(** * Schedule-matrix generation (ScheduleManager.createScheduleMatrix)

    A shallow embedding of the slot allocator of the class-schedule
    builder, in its two repository variants:

    - [Enhanced]: src/schedule.js (nine time slots, upfront capacity
      check, per-subject [slotsNeeded] derived from the credits);
    - [Basic]: src/js/schedule.js (five time slots, one position popped
      per subject, credits never read).

    JavaScript arrays are lists, array indices that come from the caller
    ([startIndex] and the [time] field derived from it) are integers of
    [Z], the counters that start at 0 are [nat].  The randomness of
    [shuffleArray] is an explicit oracle.  The local variables of one call
    ([schedule], the list of available positions) are threaded through a
    small state-and-exception monad together with a ghost trace of the grid
    accesses; the calls to [debugLog]/[debugError] only print and are left
    out.

    What a call does to the objects of its caller is a question about
    references: module [Shared] runs [createScheduleMatrix] of
    src/schedule.js on a store of objects with addresses, where the
    subjects, [this.subjects], [this.timeSlots] and [this.weekDays] are
    objects like the grid, and lemma [createScheduleMatrix_shared] shows
    that it ends as [Enhanced.createScheduleMatrix] does. *)

From Stdlib Require Import ZArith Lia.
From stdpp Require Import base list strings pretty.

Local Open Scope Z_scope.
Local Open Scope nat_scope.

(** ** JavaScript array operations used by the allocator *)

Module JS.

Section array.
Context {A : Type}.

(** [a[i]] for an integer [i]: [None] is [undefined]. *)
Definition get (a : list A) (i : Z) : option A :=
  if decide (0 ≤ i)%Z then a !! Z.to_nat i else None.

(** [a[i] = x] for a counter [i]: in range the element is replaced, past
    the end the array is extended, the skipped indices becoming [hole]s. *)
Definition set (hole : A) (a : list A) (i : nat) (x : A) : list A :=
  if decide (i < length a) then <[i := x]> a
  else a ++ replicate (i - length a) hole ++ [x].

(** [a.shift()]: the removed first element, [None] on an empty array. *)
Definition shift (a : list A) : option A * list A :=
  match a with
  | [] => (None, [])
  | x :: rest => (Some x, rest)
  end.

(** [a.pop()]: the removed last element, [None] on an empty array. *)
Definition pop (a : list A) : option A * list A :=
  (last a, take (length a - 1) a).

(** [a.findIndex(f)]: [None] is the result -1. *)
Fixpoint findIndex (f : A → bool) (a : list A) : option nat :=
  match a with
  | [] => None
  | x :: rest => if f x then Some 0 else S <$> findIndex f rest
  end.

(** [a.splice(i, 1)] *)
Definition splice1 (a : list A) (i : nat) : list A := delete i a.

(** [[a[i], a[j]] = [a[j], a[i]]]: both reads happen before the writes.
    The allocator only swaps indices that are in range. *)
Definition swap (a : list A) (i j : nat) : list A :=
  match a !! i, a !! j with
  | Some ai, Some aj => <[j := ai]> (<[i := aj]> a)
  | _, _ => a
  end.
End array.

End JS.

(** ** shuffleArray

    [rnd i] stands for the value of [Math.random()] drawn in the iteration
    with loop index [i]; [Math.floor(Math.random() * (i + 1))] is an
    integer of [0..i], here [rnd i mod (i + 1)]. *)

Definition Random := nat → nat.

Fixpoint shuffleLoop {A} (rnd : Random) (i : nat) (array : list A) : list A :=
  match i with
  | 0 => array
  | S i' =>
      let j := rnd i mod (i + 1) in
      shuffleLoop rnd i' (JS.swap array i j)
  end.

Definition shuffleArray {A} (rnd : Random) (array : list A) : list A :=
  shuffleLoop rnd (length array - 1) array.

(** ** Positions, cells and the schedule grid *)

Record Position := mkPosition { day : nat; time : Z }.

(** A cell of the grid: [null], a reference to a subject object, or
    [undefined] (a hole of an extended row).  The subject objects are the
    elements of [this.subjects], each created by its own object literal, so
    a reference is the index of the object in that array. *)
Inductive Cell :=
| Undefined
| Null
| Ref (subject : nat).

Abbreviation Row := (list Cell).
Abbreviation Schedule := (list (list Cell)).

Global Instance Cell_eq_dec : EqDecision Cell.
Proof. solve_decision. Defined.

Global Instance Position_eq_dec : EqDecision Position.
Proof. solve_decision. Defined.

(** [schedule[i] = new Array(days).fill(null)] for [i] from 0: every
    assignment is at index [schedule.length], so it appends. *)
Fixpoint initRows (slots days : nat) (schedule : Schedule) : Schedule :=
  match slots with
  | 0 => schedule
  | S n => initRows n days (schedule ++ [replicate days Null])
  end.

Definition emptySchedule (slots days : nat) : Schedule := initRows slots days [].

(** The nested loops that collect the available positions:
    [for day in 0 .. days-1, for time in startIndex .. slots-2]. *)
Definition timesFrom (startIndex : Z) (slots : nat) : list Z :=
  (λ k, startIndex + Z.of_nat k)%Z <$> seq 0 (Z.to_nat (Z.of_nat slots - 1 - startIndex)).

Definition positionsFrom (startIndex : Z) (slots days : nat) : list Position :=
  d ← seq 0 days; (λ t, mkPosition d t) <$> timesFrom startIndex slots.

(** [schedule[t][d]]: [None] is the TypeError of indexing [undefined]. *)
Definition readCell (schedule : Schedule) (t : Z) (d : nat) : option Cell :=
  row ← JS.get schedule t; Some (default Undefined (row !! d)).

(** [schedule[t][d] = v]: the row object is updated in place. *)
Definition writeCell (schedule : Schedule) (t : Z) (d : nat) (v : Cell) : option Schedule :=
  row ← JS.get schedule t;
  Some (<[Z.to_nat t := JS.set Undefined row d v]> schedule).

(** [slot => slot.day === d && slot.time === t] *)
Definition isSlot (d : nat) (t : Z) (slot : Position) : bool :=
  Nat.eqb (day slot) d && Z.eqb (time slot) t.

(** ** Local state, exceptions and the access trace *)

Inductive Error :=
| InsufficientSlots (needed available : nat)   (* src/schedule.js, upfront check *)
| NoSpaceFor (name : string)                   (* src/schedule.js, per subject *)
| NotEnoughPositions                           (* src/js/schedule.js *)
| TypeError.                                   (* indexing [undefined] *)

(** Ghost events, most recent first: a position taken from the list for a
    subject, a read of a cell, a write of a subject into a cell together
    with the content the cell had ([Undefined] outside the grid). *)
Inductive Event :=
| Take (subject : nat) (p : Position)
| ReadCell (t : Z) (d : nat)
| WriteCell (t : Z) (d : nat) (old : Cell) (subject : nat).

(** [available] is [availableSlots] in src/schedule.js and
    [availablePositions] in src/js/schedule.js. *)
Record Locals := mkLocals {
  schedule : Schedule;
  available : list Position;
  trace : list Event
}.

Inductive Outcome (A : Type) :=
| Done (a : A) (st : Locals)
| Threw (e : Error) (st : Locals).
Arguments Done {A} a st.
Arguments Threw {A} e st.

Definition M (A : Type) := Locals → Outcome A.

Global Instance M_ret : MRet M := λ A a st, Done a st.

Global Instance M_bind : MBind M := λ A B k m st,
  match m st with
  | Done a st' => k a st'
  | Threw e st' => Threw e st'
  end.

Definition throw {A} (e : Error) : M A := λ st, Threw e st.

Definition getAvailable : M (list Position) := λ st, Done (available st) st.

Definition setAvailable (l : list Position) : M unit :=
  λ st, Done tt (mkLocals (schedule st) l (trace st)).

Definition log (ev : Event) : M unit :=
  λ st, Done tt (mkLocals (schedule st) (available st) (ev :: trace st)).

(** [schedule[t][d] === null] *)
Definition isNull (t : Z) (d : nat) : M bool :=
  λ st,
    let st' := mkLocals (schedule st) (available st) (ReadCell t d :: trace st) in
    match readCell (schedule st) t d with
    | Some c => Done (bool_decide (c = Null)) st'
    | None => Threw TypeError st'
    end.

(** [schedule[t][d] = subject] *)
Definition assign (t : Z) (d : nat) (subject : nat) : M unit :=
  λ st,
    let old := default Undefined (readCell (schedule st) t d) in
    let tr := WriteCell t d old subject :: trace st in
    match writeCell (schedule st) t d (Ref subject) with
    | Some schedule' => Done tt (mkLocals schedule' (available st) tr)
    | None => Threw TypeError (mkLocals (schedule st) (available st) tr)
    end.

(** [const i = available.findIndex(slot => ...); if (i !== -1) available.splice(i, 1)] *)
Definition removeSlot (d : nat) (t : Z) : M unit :=
  l ← getAvailable;
  match JS.findIndex (isSlot d t) l with
  | Some nextSlotIndex => setAvailable (JS.splice1 l nextSlotIndex)
  | None => mret tt
  end.

(** [subjects.forEach((subject, index) => f)] *)
Fixpoint forEachFrom {T} (f : T → nat → M unit) (index : nat) (subjects : list T) : M unit :=
  match subjects with
  | [] => mret tt
  | subject :: rest => f subject index;; forEachFrom f (index + 1) rest
  end.

Definition forEach {T} (subjects : list T) (f : T → nat → M unit) : M unit :=
  forEachFrom f 0 subjects.

(** What a call hands back to its caller. *)
Inductive Completion :=
| Return (schedule : Schedule)
| Throw (e : Error).

(** [const position = available.shift()] *)
Definition shiftAvailable : M (option Position) :=
  l ← getAvailable;
  let '(position, rest) := JS.shift l in
  setAvailable rest;; mret position.

(** [const position = available.pop()] *)
Definition popAvailable : M (option Position) :=
  l ← getAvailable;
  let '(position, rest) := JS.pop l in
  setAvailable rest;; mret position.

(** ** What the callers of the allocator report *)

(** How a call of [generateSchedule] ends: with one of its toasts, with an
    exception that escapes it, or with the timer armed for a start index. *)
Inductive Started :=
| NoSubjects                 (* toast 'No hay materias configuradas' *)
| InvalidHour                (* toast 'Hora inválida' *)
| StartError                 (* src/schedule.js: caught, toast 'Error iniciando ...' *)
| Uncaught                   (* src/js/schedule.js: TypeError on a missing element *)
| Armed (startIndex : nat).  (* [setTimeout] with the callback for [startIndex] *)

(** The table [displaySchedule] builds: per time slot and week day a
    subject cell ([if (subject)]) or an empty one.  The HTML text wrapped
    around the cells is left out. *)
Definition shownCell (c : Cell) : option nat :=
  match c with
  | Ref subject => Some subject
  | Null | Undefined => None
  end.

(** [for timeIndex < slots, for dayIndex < days: schedule[timeIndex][dayIndex]];
    [None] is the TypeError of a missing row. *)
Definition tableRows (slots days : nat) (schedule : Schedule)
    : option (list (list (option nat))) :=
  mapM (λ timeIndex,
          row ← schedule !! timeIndex;
          Some ((λ dayIndex, shownCell (default Undefined (row !! dayIndex))) <$> seq 0 days))
       (seq 0 slots).

(** The table of a grid shown cell by cell. *)
Definition shownGrid (g : Schedule) : list (list (option nat)) :=
  (λ row : list Cell, shownCell <$> row) <$> g.

(** How the timer callback of [generateSchedule] ends. *)
Inductive Shown :=
| Displayed (table : list (list (option nat)))  (* toast 'Horario generado' *)
| GenerationError (e : Error)                   (* [createScheduleMatrix] threw *)
| DisplayFailed.                                (* [displaySchedule] or a later step threw *)

(** ** src/schedule.js *)

Module Enhanced.

Record Subject := mkSubject {
  name : string;
  professor : string;
  credits : Z;
  id : nat;
  index : nat
}.

Record ScheduleManager := mkManager {
  timeSlots : list string;
  weekDays : list string;
  subjects : list Subject;
  currentScheduleData : option Schedule
}.

(** The fields the constructor sets. *)
Definition constructor : ScheduleManager := {|
  timeSlots := ["07:00-09:00"; "08:00-10:00"; "09:00-11:00"; "10:00-12:00";
                "11:00-13:00"; "13:00-15:00"; "14:00-16:00"; "15:00-17:00";
                "16:00-18:00"];
  weekDays := ["Lunes"; "Martes"; "Miércoles"; "Jueves"; "Viernes"];
  subjects := [];
  currentScheduleData := None
|}.

(** [Math.max(1, Math.floor(subject.credits / 2))] *)
Definition slotsNeeded (subject : Subject) : Z := Z.max 1 (credits subject / 2).

Section createScheduleMatrix.
Context (rnd : Random) (this : ScheduleManager) (startIndex : Z).

(** One iteration of the inner [for]: take the next position and place
    the subject on it, on two consecutive slots when the later one is
    inside the grid and still [null]. *)
Definition placeNext (subject : nat) : M unit :=
  position ← shiftAvailable;
  match position with
  | Some position =>
      log (Take subject position);;
      consecutive ←
        (if decide (time position + 1 < Z.of_nat (length (timeSlots this)))%Z
         then isNull (time position + 1) (day position)
         else mret false);
      if (consecutive : bool) then
        assign (time position) (day position) subject;;
        assign (time position + 1) (day position) subject;;
        removeSlot (day position) (time position + 1)
      else
        assign (time position) (day position) subject
  | None => mret tt
  end.

(** [for (let i = 0; i < slotsNeeded && availableSlots.length > 0; i++)],
    [remaining] being [slotsNeeded - i]. *)
Fixpoint placeSlots (subject : nat) (remaining : nat) : M unit :=
  match remaining with
  | 0 => mret tt
  | S remaining' =>
      l ← getAvailable;
      if decide (0 < length l) then
        placeNext subject;; placeSlots subject remaining'
      else mret tt
  end.

(** The callback of [this.subjects.forEach]. *)
Definition scheduleSubject (subject : Subject) (index : nat) : M unit :=
  l ← getAvailable;
  if decide (length l = 0) then throw (NoSpaceFor (name subject))
  else placeSlots index (Z.to_nat (slotsNeeded subject)).

(** The positions collected in [availableSlots] before the shuffle. *)
Definition availableSlots : list Position :=
  positionsFrom startIndex (length (timeSlots this)) (length (weekDays this)).

(** The local state in which the [forEach] starts: the empty grid, the
    shuffled positions, no access yet. *)
Definition initial : Locals :=
  mkLocals (emptySchedule (length (timeSlots this)) (length (weekDays this)))
           (shuffleArray rnd availableSlots) [].

(** The body of the [try] block, up to the end of the [forEach]. *)
Definition allocation : Outcome unit :=
  let schedule := emptySchedule (length (timeSlots this)) (length (weekDays this)) in
  if decide (length availableSlots < length (subjects this) * 2) then
    Threw (InsufficientSlots (length (subjects this) * 2) (length availableSlots))
          (mkLocals schedule availableSlots [])
  else
    forEach (subjects this) scheduleSubject initial.

(** The completion of the call and the manager after it: on success
    [this.currentScheduleData = schedule], the [catch] block rethrows. *)
Definition createScheduleMatrix : Completion * ScheduleManager :=
  match allocation with
  | Done _ st =>
      (Return (schedule st),
       mkManager (timeSlots this) (weekDays this) (subjects this) (Some (schedule st)))
  | Threw e _ => (Throw e, this)
  end.
End createScheduleMatrix.

(** [generateSchedule()] up to the timer it arms; [horaInicio] is the value
    of the element of that id, [None] when the element is missing. *)
Definition generateSchedule (this : ScheduleManager) (horaInicio : option string) : Started :=
  if decide (length (subjects this) = 0) then NoSubjects
  else
    match horaInicio with
    | None => StartError
    | Some startTime =>
        match JS.findIndex (String.prefix startTime) (timeSlots this) with
        | None => InvalidHour
        | Some startIndex => Armed startIndex
        end
    end.

(** [displaySchedule(schedule)]: throws when the preview container is
    missing, before any cell is read. *)
Definition displaySchedule (this : ScheduleManager) (schedulePreview : bool)
    (schedule : Schedule) : option (list (list (option nat))) :=
  if schedulePreview
  then tableRows (length (timeSlots this)) (length (weekDays this)) schedule
  else None.

(** The callback the timer runs, on the manager as it is then. *)
Definition generateScheduleTimer (rnd : Random) (this : ScheduleManager) (startIndex : nat)
    (schedulePreview : bool) : Shown * ScheduleManager :=
  match createScheduleMatrix rnd this (Z.of_nat startIndex) with
  | (Return schedule, this') =>
      match displaySchedule this' schedulePreview schedule with
      | Some table => (Displayed table, this')
      | None => (DisplayFailed, this')
      end
  | (Throw e, this') => (GenerationError e, this')
  end.

End Enhanced.

(** ** src/js/schedule.js *)

Module Basic.

Record Subject := mkSubject {
  name : string;
  professor : string;
  credits : Z;
  id : nat
}.

Record ScheduleManager := mkManager {
  timeSlots : list string;
  weekDays : list string;
  subjects : list Subject;
  currentScheduleData : option Schedule
}.

Definition constructor : ScheduleManager := {|
  timeSlots := ["07:00-09:00"; "09:00-11:00"; "11:00-13:00"; "13:00-15:00";
                "15:00-17:00"];
  weekDays := ["Lunes"; "Martes"; "Miércoles"; "Jueves"; "Viernes"];
  subjects := [];
  currentScheduleData := None
|}.

Section createScheduleMatrix.
Context (rnd : Random) (this : ScheduleManager) (startIndex : Z).

(** The callback of [this.subjects.forEach]. *)
Definition scheduleSubject (subject : Subject) (index : nat) : M unit :=
  l ← getAvailable;
  if decide (length l < 2) then throw NotEnoughPositions
  else
    position ← popAvailable;
    match position with
    | Some position =>
        log (Take index position);;
        if decide (time position + 1 < Z.of_nat (length (timeSlots this)))%Z then
          assign (time position) (day position) index;;
          assign (time position + 1) (day position) index;;
          removeSlot (day position) (time position + 1)
        else
          assign (time position) (day position) index
    | None => throw TypeError
    end.

(** The positions collected in [availablePositions] before the shuffle. *)
Definition availablePositions : list Position :=
  positionsFrom startIndex (length (timeSlots this)) (length (weekDays this)).

(** The local state in which the [forEach] starts. *)
Definition initial : Locals :=
  mkLocals (emptySchedule (length (timeSlots this)) (length (weekDays this)))
           (shuffleArray rnd availablePositions) [].

(** The body of the function up to the end of the [forEach]. *)
Definition allocation : Outcome unit :=
  forEach (subjects this) scheduleSubject initial.

Definition createScheduleMatrix : Completion * ScheduleManager :=
  match allocation with
  | Done _ st =>
      (Return (schedule st),
       mkManager (timeSlots this) (weekDays this) (subjects this) (Some (schedule st)))
  | Threw e _ => (Throw e, this)
  end.
End createScheduleMatrix.

(** [showToast] of src/js/utils.js appends the toast to the element
    [toastContainer] without testing that it exists: [None] is the
    TypeError of [container.appendChild] on a missing container. *)
Definition showToast (toastContainer : bool) : option unit :=
  if toastContainer then Some () else None.

(** [generateSchedule()] up to the timer it arms; the elements are used
    without a test, so a missing one is a TypeError that escapes, also
    from the toasts of the two early returns. *)
Definition generateSchedule (this : ScheduleManager) (horaInicio : option string)
    (generateBtn toastContainer : bool) : Started :=
  if decide (length (subjects this) = 0) then
    match showToast toastContainer with
    | Some _ => NoSubjects
    | None => Uncaught
    end
  else
    match horaInicio with
    | None => Uncaught
    | Some startTime =>
        match JS.findIndex (String.prefix startTime) (timeSlots this) with
        | None =>
            match showToast toastContainer with
            | Some _ => InvalidHour
            | None => Uncaught
            end
        | Some startIndex => if generateBtn then Armed startIndex else Uncaught
        end
    end.

(** [displaySchedule(schedule)]: the cells are read first, then the table
    is assigned to the preview container. *)
Definition displaySchedule (this : ScheduleManager) (schedulePreview : bool)
    (schedule : Schedule) : option (list (list (option nat))) :=
  table ← tableRows (length (timeSlots this)) (length (weekDays this)) schedule;
  if schedulePreview then Some table else None.

(** How the timer callback of src/js/schedule.js ends: with a toast on the
    page, or with the TypeError of [showToast] thrown from the catch
    clause, which escapes the callback once the finally clause has run. *)
Inductive Ended :=
| Toasted (shown : Shown)   (* the toast for [shown] is on the page *)
| Escaped (shown : Shown).  (* how far the try block got; no toast, an uncaught TypeError *)

(** The callback the timer runs, on the manager as it is then.  The try
    block ends with the toast 'Horario generado'; an exception of any of
    its statements, that toast included, leads to the catch clause, whose
    only statement is the toast 'Error'. *)
Definition generateScheduleTimer (rnd : Random) (this : ScheduleManager) (startIndex : nat)
    (schedulePreview saveScheduleBtn toastContainer : bool) : Ended * ScheduleManager :=
  let '(completion, this') := createScheduleMatrix rnd this (Z.of_nat startIndex) in
  let reached :=
    match completion with
    | Return schedule =>
        match displaySchedule this' schedulePreview schedule with
        | Some table => if saveScheduleBtn then Displayed table else DisplayFailed
        | None => DisplayFailed
        end
    | Throw e => GenerationError e
    end in
  match reached with
  | Displayed table =>
      match showToast toastContainer with
      | Some _ => (Toasted (Displayed table), this')
      | None =>
          match showToast toastContainer with
          | Some _ => (Toasted DisplayFailed, this')
          | None => (Escaped (Displayed table), this')
          end
      end
  | failure =>
      match showToast toastContainer with
      | Some _ => (Toasted failure, this')
      | None => (Escaped failure, this')
      end
  end.

(** A professor conflict found by [detectConflicts]; its constant field
    [type: 'professor_conflict'] is left out. *)
Record Conflict := mkConflict {
  conflictTime : option string;          (* [this.timeSlots[timeIndex]] *)
  conflictProfessor : string;
  conflictSubjects : string * string     (* [[subject.name, otherSubject.name]] *)
}.

(** The subject object a cell refers to; [None] where [if (subject)] fails.
    A reference is to an element of [this.subjects]; one past its end, which
    no grid of the allocator holds, counts as an empty cell. *)
Definition deref (this : ScheduleManager) (c : Cell) : option Subject :=
  match c with
  | Ref subject => subjects this !! subject
  | Null | Undefined => None
  end.

(** [detectConflicts(schedule)] *)
Definition detectConflicts (this : ScheduleManager) (schedule : Schedule) : list Conflict :=
  '(timeIndex, row) ← imap pair schedule;
  '(dayIndex, cell) ← imap pair row;
  match deref this cell with
  | Some subject =>
      '(otherDay, otherCell) ← imap pair row;
      if decide (otherDay ≠ dayIndex) then
        match deref this otherCell with
        | Some otherSubject =>
            if decide (professor otherSubject = professor subject) then
              [mkConflict (timeSlots this !! timeIndex) (professor subject)
                          (name subject, name otherSubject)]
            else []
        | None => []
        end
      else []
  | None => []
  end.

End Basic.

(** ** src/schedule.js on the objects it shares with its caller

    The subject objects, the array [this.subjects] that holds references
    to them, and the arrays [this.timeSlots] and [this.weekDays] belong to
    the manager; the call receives them through [this].  Here every object
    lives in a store at an address, [this] holds addresses, and so do the
    cells of the grid: [Ref a] is a reference to the subject object at the
    address [a].  Every statement of [createScheduleMatrix] that reads or
    writes an object does so through an address, so a write to a subject or
    to an array of the manager can be expressed as well as a write to the
    grid.  The objects are of the kinds the program creates; an operation
    on an object of another kind ends in [TypeError], which does not happen
    when the fields of [this] refer to arrays of their kinds. *)

Module Shared.

Abbreviation Address := nat.

Inductive Object :=
| SubjectObject (subject : Enhanced.Subject)  (* { id, name, professor, credits, index } *)
| Strings (elements : list string)            (* an array of strings *)
| Subjects (elements : list Address)          (* an array of references to subject objects *)
| Positions (elements : list Position)        (* an array of { day, time } *)
| Cells (elements : list Cell)                (* a row of the grid *)
| Rows (elements : list Address).             (* an array of references to rows *)

(** The fields of [this] that the call uses: references. *)
Record Manager := mkManager {
  timeSlots : Address;
  weekDays : Address;
  subjects : Address;
  currentScheduleData : option Address
}.

(** The store: the object at the address [a] is [heap !! a]; a new object
    gets the next address. *)
Record Memory := mkMemory {
  heap : list Object;
  this : Manager
}.

Inductive Result (A : Type) :=
| Value (a : A) (m : Memory)
| Exception (e : Error) (m : Memory).
Arguments Value {A} a m.
Arguments Exception {A} e m.

Definition Run (A : Type) := Memory → Result A.

Global Instance Run_ret : MRet Run := λ A a m, Value a m.

Global Instance Run_bind : MBind Run := λ A B k c m,
  match c m with
  | Value a m' => k a m'
  | Exception e m' => Exception e m'
  end.

Definition throw {A} (e : Error) : Run A := λ m, Exception e m.

(** An array literal, an object literal or [new Array]. *)
Definition new (object : Object) : Run Address :=
  λ m, Value (length (heap m)) (mkMemory (heap m ++ [object]) (this m)).

Definition load (address : Address) : Run Object :=
  λ m, match heap m !! address with
       | Some object => Value object m
       | None => Exception TypeError m
       end.

(** The object at [address] is updated in place. *)
Definition store (address : Address) (object : Object) : Run unit :=
  λ m, Value tt (mkMemory (<[address := object]> (heap m)) (this m)).

Definition getThis : Run Manager := λ m, Value (this m) m.

(** [this.currentScheduleData = schedule] *)
Definition setCurrentScheduleData (schedule : Address) : Run unit :=
  λ m, Value tt (mkMemory (heap m)
                   (mkManager (timeSlots (this m)) (weekDays (this m)) (subjects (this m))
                              (Some schedule))).

Definition asSubject (object : Object) : option Enhanced.Subject :=
  match object with SubjectObject subject => Some subject | _ => None end.

Definition asStrings (object : Object) : option (list string) :=
  match object with Strings elements => Some elements | _ => None end.

Definition asSubjects (object : Object) : option (list Address) :=
  match object with Subjects elements => Some elements | _ => None end.

Definition asPositions (object : Object) : option (list Position) :=
  match object with Positions elements => Some elements | _ => None end.

Definition asCells (object : Object) : option (list Cell) :=
  match object with Cells elements => Some elements | _ => None end.

Definition asRows (object : Object) : option (list Address) :=
  match object with Rows elements => Some elements | _ => None end.

(** The object at [address], of the kind that [as] selects. *)
Definition the {A} (as_ : Object → option A) (address : Address) : Run A :=
  object ← load address;
  match as_ object with
  | Some a => mret a
  | None => throw TypeError
  end.

(** [array.length] *)
Definition lengthOf (array : Address) : Run nat :=
  object ← load array;
  match object with
  | SubjectObject _ => throw TypeError
  | Strings elements => mret (length elements)
  | Subjects elements => mret (length elements)
  | Positions elements => mret (length elements)
  | Cells elements => mret (length elements)
  | Rows elements => mret (length elements)
  end.

(** [schedule[i] = row] at [i = schedule.length]: the row is appended. *)
Definition appendRow (schedule row : Address) : Run unit :=
  rows ← the asRows schedule;
  store schedule (Rows (rows ++ [row])).

(** [availableSlots.push(position)] *)
Definition push (array : Address) (position : Position) : Run unit :=
  elements ← the asPositions array;
  store array (Positions (elements ++ [position])).

(** [availableSlots.shift()] *)
Definition shift (array : Address) : Run (option Position) :=
  elements ← the asPositions array;
  let '(position, rest) := JS.shift elements in
  store array (Positions rest);; mret position.

(** [const i = availableSlots.findIndex(slot => ...); if (i !== -1) availableSlots.splice(i, 1)] *)
Definition removeSlot (array : Address) (d : nat) (t : Z) : Run unit :=
  elements ← the asPositions array;
  match JS.findIndex (isSlot d t) elements with
  | Some nextSlotIndex => store array (Positions (JS.splice1 elements nextSlotIndex))
  | None => mret tt
  end.

(** The elements of an array after the swaps of [shuffleArray]; the loop
    does not run on an object without elements. *)
Definition shuffled (rnd : Random) (object : Object) : Object :=
  match object with
  | SubjectObject subject => SubjectObject subject
  | Strings elements => Strings (shuffleArray rnd elements)
  | Subjects elements => Subjects (shuffleArray rnd elements)
  | Positions elements => Positions (shuffleArray rnd elements)
  | Cells elements => Cells (shuffleArray rnd elements)
  | Rows elements => Rows (shuffleArray rnd elements)
  end.

(** [this.shuffleArray(array)]: the swaps are made in the array itself. *)
Definition shuffleArray (rnd : Random) (array : Address) : Run unit :=
  object ← load array;
  store array (shuffled rnd object).

(** [schedule[t][d]]: a missing row is the TypeError of indexing
    [undefined]. *)
Definition readCell (schedule : Address) (t : Z) (d : nat) : Run Cell :=
  rows ← the asRows schedule;
  match JS.get rows t with
  | Some row =>
      cells ← the asCells row;
      mret (default Undefined (cells !! d))
  | None => throw TypeError
  end.

(** [schedule[t][d] = v]: the write goes to the row object. *)
Definition writeCell (schedule : Address) (t : Z) (d : nat) (v : Cell) : Run unit :=
  rows ← the asRows schedule;
  match JS.get rows t with
  | Some row =>
      cells ← the asCells row;
      store row (Cells (JS.set Undefined cells d v))
  | None => throw TypeError
  end.

(** [array.forEach(f)]: the length is read once, every element when its
    turn comes, and an index the array no longer has is skipped. *)
Fixpoint forEachFrom (array : Address) (f : Address → nat → Run unit)
    (index count : nat) : Run unit :=
  match count with
  | 0 => mret tt
  | S count' =>
      elements ← the asSubjects array;
      match elements !! index with
      | Some subject => f subject index
      | None => mret tt
      end;;
      forEachFrom array f (index + 1) count'
  end.

Definition forEach (array : Address) (f : Address → nat → Run unit) : Run unit :=
  count ← lengthOf array;
  forEachFrom array f 0 count.

Section createScheduleMatrix.
Context (rnd : Random) (startIndex : Z).

(** [for (i = 0; i < slots; i++) schedule[i] = new Array(this.weekDays.length).fill(null)],
    [remaining] being [slots - i]. *)
Fixpoint initRows (schedule : Address) (remaining : nat) : Run unit :=
  match remaining with
  | 0 => mret tt
  | S remaining' =>
      this ← getThis;
      days ← lengthOf (weekDays this);
      row ← new (Cells (replicate days Null));
      appendRow schedule row;;
      initRows schedule remaining'
  end.

(** [availableSlots.push({ day, time })] for the positions of the two
    nested loops, in their order. *)
Fixpoint pushEach (availableSlots : Address) (positions : list Position) : Run unit :=
  match positions with
  | [] => mret tt
  | position :: rest => push availableSlots position;; pushEach availableSlots rest
  end.

(** One iteration of the inner [for] of the callback. *)
Definition placeNext (schedule availableSlots subject : Address) : Run unit :=
  position ← shift availableSlots;
  match position with
  | Some position =>
      this ← getThis;
      slots ← lengthOf (timeSlots this);
      consecutive ←
        (if decide (time position + 1 < Z.of_nat slots)%Z
         then cell ← readCell schedule (time position + 1) (day position);
              mret (bool_decide (cell = Null))
         else mret false);
      if (consecutive : bool) then
        writeCell schedule (time position) (day position) (Ref subject);;
        writeCell schedule (time position + 1) (day position) (Ref subject);;
        removeSlot availableSlots (day position) (time position + 1)
      else
        writeCell schedule (time position) (day position) (Ref subject)
  | None => mret tt
  end.

(** [for (let i = 0; i < slotsNeeded && availableSlots.length > 0; i++)],
    [remaining] being [slotsNeeded - i]. *)
Fixpoint placeSlots (schedule availableSlots subject : Address) (remaining : nat)
    : Run unit :=
  match remaining with
  | 0 => mret tt
  | S remaining' =>
      available ← lengthOf availableSlots;
      if decide (0 < available) then
        placeNext schedule availableSlots subject;;
        placeSlots schedule availableSlots subject remaining'
      else mret tt
  end.

(** The callback of [this.subjects.forEach]; [subject] is the reference
    the array holds at [index]. *)
Definition scheduleSubject (schedule availableSlots subject : Address) (index : nat)
    : Run unit :=
  available ← lengthOf availableSlots;
  if decide (available = 0) then
    fields ← the asSubject subject;
    throw (NoSpaceFor (Enhanced.name fields))
  else
    fields ← the asSubject subject;
    placeSlots schedule availableSlots subject (Z.to_nat (Enhanced.slotsNeeded fields)).

(** [createScheduleMatrix(startIndex)]: the address of the grid it returns,
    or the exception it throws; the [catch] block rethrows, and [debugLog]
    and [debugError] only write to the console.  The bounds
    [this.timeSlots.length] and [this.weekDays.length] of the first three
    loops are read before them: their bodies are [schedule[i] = new Array(...)]
    and [availableSlots.push(...)], on the two arrays just created. *)
Definition createScheduleMatrix : Run Address :=
  schedule ← new (Rows []);
  this ← getThis;
  slots ← lengthOf (timeSlots this);
  initRows schedule slots;;
  availableSlots ← new (Positions []);
  days ← lengthOf (weekDays this);
  pushEach availableSlots (positionsFrom startIndex slots days);;
  available ← lengthOf availableSlots;
  count ← lengthOf (subjects this);
  if decide (available < count * 2) then throw (InsufficientSlots (count * 2) available)
  else
    shuffleArray rnd availableSlots;;
    forEach (subjects this) (scheduleSubject schedule availableSlots);;
    setCurrentScheduleData schedule;;
    mret schedule.
End createScheduleMatrix.

(** The memory in which a computation ended, normally or not. *)
Definition memoryAfter {A} (r : Result A) : Memory :=
  match r with
  | Value _ m => m
  | Exception _ m => m
  end.

(** What the caller sees through [this]: the strings of an array, and the
    subjects in the order of [this.subjects], each with its fields. *)
Definition stringsAt (m : Memory) (array : Address) : option (list string) :=
  object ← heap m !! array; asStrings object.

Definition subjectAt (m : Memory) (subject : Address) : option Enhanced.Subject :=
  object ← heap m !! subject; asSubject object.

Definition subjectsOf (m : Memory) : option (list Enhanced.Subject) :=
  object ← heap m !! subjects (this m);
  elements ← asSubjects object;
  mapM (subjectAt m) elements.

Definition timeSlotsOf (m : Memory) : option (list string) :=
  stringsAt m (timeSlots (this m)).

Definition weekDaysOf (m : Memory) : option (list string) :=
  stringsAt m (weekDays (this m)).

(** The grid at an address, row by row. *)
Definition gridAt (m : Memory) (schedule : Address) : option Schedule :=
  object ← heap m !! schedule;
  rows ← asRows object;
  mapM (λ row, object ← heap m !! row; asCells object) rows.

(** The memory of a manager of src/schedule.js: its three arrays, then its
    subject objects, one per element of [this.subjects]. *)
Definition memoryOf (manager : Enhanced.ScheduleManager) : Memory :=
  mkMemory
    ([Strings (Enhanced.timeSlots manager); Strings (Enhanced.weekDays manager);
      Subjects (seq 3 (length (Enhanced.subjects manager)))] ++
     (SubjectObject <$> Enhanced.subjects manager))
    (mkManager 0 1 2 None).

End Shared.

(** ** Vocabulary of the properties *)

(** [slots] rows of [days] cells each. *)
Definition gridShape (slots days : nat) (g : Schedule) : Prop :=
  length g = slots ∧ Forall (λ row, length row = days) g.

(** A cell of the grid. *)
Definition inGrid (slots days : nat) (t : Z) (d : nat) : Prop :=
  (0 ≤ t < Z.of_nat slots)%Z ∧ d < days.

(** The number of cells that hold a reference to [subject]. *)
Definition cellCount (subject : nat) (g : Schedule) : nat :=
  sum_list_with (sum_list_with (λ c, if decide (c = Ref subject) then 1 else 0)) g.

(** An access inside the grid; a write moreover found its cell [null]. *)
Definition safeEvent (slots days : nat) (ev : Event) : Prop :=
  match ev with
  | Take _ _ => True
  | ReadCell t d => inGrid slots days t d
  | WriteCell t d old _ => inGrid slots days t d ∧ old = Null
  end.

(** An access of the trace that stays inside the grid. *)
Definition accessInGrid (slots days : nat) (ev : Event) : Prop :=
  match ev with
  | Take _ _ => True
  | ReadCell t d | WriteCell t d _ _ => inGrid slots days t d
  end.

(** The number of positions taken from the list for [subject]. *)
Definition attempts (subject : nat) (tr : list Event) : nat :=
  sum_list_with
    (λ ev, match ev with Take s _ => if decide (s = subject) then 1 else 0 | _ => 0 end) tr.

(** Computations whose only exception is the TypeError of an access
    outside the grid. *)
Definition onlyTypeError {A} (m : M A) : Prop :=
  ∀ st e st', m st = Threw e st' → e = TypeError.

(** The local state in which a computation ended, normally or not. *)
Definition finalLocals {A} (o : Outcome A) : Locals :=
  match o with
  | Done _ st => st
  | Threw _ st => st
  end.

(** The capacity the specification asks for: the sum over the subjects of
    [slotsNeeded]. *)
Definition requiredCapacity (subjects : list Enhanced.Subject) : Z :=
  foldr (λ s acc, (Enhanced.slotsNeeded s + acc)%Z) 0%Z subjects.

(** Two subjects that differ at most in their credits. *)
Definition sameButCredits (s1 s2 : Basic.Subject) : Prop :=
  Basic.name s1 = Basic.name s2 ∧ Basic.professor s1 = Basic.professor s2 ∧
  Basic.id s1 = Basic.id s2.

(** Invariant of the placement loop of src/schedule.js, for a grid of
    [slots] by [days] cells: the positions still in the list are distinct
    candidates whose cells are [null], the slots before the start index are
    [null], and every access so far was inside the grid, every write on a
    [null] cell. *)
Record Inv (slots days : nat) (startIndex : Z) (st : Locals) : Prop := mkInv {
  inv_shape : gridShape slots days (schedule st);
  inv_nodup : NoDup (available st);
  inv_range : ∀ p, p ∈ available st →
    day p < days ∧ (startIndex ≤ time p)%Z ∧ (time p + 1 < Z.of_nat slots)%Z;
  inv_free : ∀ p, p ∈ available st →
    readCell (schedule st) (time p) (day p) = Some Null;
  inv_early : ∀ t d, inGrid slots days t d → (t < startIndex)%Z →
    readCell (schedule st) t d = Some Null;
  inv_trace : Forall (safeEvent slots days) (trace st)
}.

(** What one placement of [subject] on the position [p] does to the
    local state. *)
Record Placed (subject : nat) (p : Position) (st st' : Locals) : Prop := mkPlaced {
  placed_avail : available st' `sublist_of` available st;
  placed_shrink : length (available st') < length (available st) ≤ length (available st') + 2;
  placed_cell : readCell (schedule st') (time p) (day p) = Some (Ref subject);
  placed_keeps : ∀ t d r, readCell (schedule st) t d = Some (Ref r) →
    readCell (schedule st') t d = Some (Ref r);
  placed_others : ∀ r, r ≠ subject → cellCount r (schedule st') = cellCount r (schedule st);
  placed_count :
    cellCount subject (schedule st') = cellCount subject (schedule st) + 1 ∨
    cellCount subject (schedule st') = cellCount subject (schedule st) + 2;
  placed_block : readCell (schedule st) (time p + 1) (day p) = Some Null →
    readCell (schedule st') (time p + 1) (day p) = Some (Ref subject) ∧
    cellCount subject (schedule st') = cellCount subject (schedule st) + 2;
  placed_attempts : ∀ r,
    attempts r (trace st') = attempts r (trace st) + (if decide (subject = r) then 1 else 0)
}.

(** What the turn of [subject] does when it takes [k] positions. *)
Record Turn (subject k : nat) (st st' : Locals) : Prop := mkTurn {
  turn_avail : available st' `sublist_of` available st;
  turn_shrink : length (available st) ≤ length (available st') + 2 * k;
  turn_keeps : ∀ t d r, readCell (schedule st) t d = Some (Ref r) →
    readCell (schedule st') t d = Some (Ref r);
  turn_others : ∀ r, r ≠ subject → cellCount r (schedule st') = cellCount r (schedule st);
  turn_count :
    cellCount subject (schedule st) + k ≤ cellCount subject (schedule st') ≤
    cellCount subject (schedule st) + 2 * k;
  turn_attempts : ∀ r,
    attempts r (trace st') = attempts r (trace st) + (if decide (subject = r) then k else 0);
  turn_cell : 0 < k → ∃ t d, readCell (schedule st') t d = Some (Ref subject)
}.

(** What the turns of the subjects [l], numbered from [i], do together. *)
Record Ran (i : nat) (l : list Enhanced.Subject) (st st' : Locals) : Prop := mkRan {
  ran_avail : available st' `sublist_of` available st;
  ran_keeps : ∀ t d r, readCell (schedule st) t d = Some (Ref r) →
    readCell (schedule st') t d = Some (Ref r);
  ran_each : ∀ j s, l !! j = Some s →
    ∃ k, 1 ≤ k ≤ Z.to_nat (Enhanced.slotsNeeded s) ∧
         attempts (i + j) (trace st') = attempts (i + j) (trace st) + k ∧
         (k < Z.to_nat (Enhanced.slotsNeeded s) → available st' = []) ∧
         ∃ t d, readCell (schedule st') t d = Some (Ref (i + j));
  ran_frame : ∀ r, r < i ∨ i + length l ≤ r →
    attempts r (trace st') = attempts r (trace st) ∧
    cellCount r (schedule st') = cellCount r (schedule st)
}.

(** The state of the loop of src/js/schedule.js after the turns of the
    subjects [0 .. k-1].  A later subject may overwrite the first cell of
    an earlier one, never its second: the position and its successor have
    both left the list. *)
Record BasicInv (slots days : nat) (startIndex : Z) (k : nat) (st : Locals) : Prop :=
  mkBasicInv {
  binv_shape : gridShape slots days (schedule st);
  binv_nodup : NoDup (available st);
  binv_range : ∀ p, p ∈ available st →
    day p < days ∧ (startIndex ≤ time p)%Z ∧ (time p + 1 < Z.of_nat slots)%Z;
  binv_fresh : ∀ r, k ≤ r →
    cellCount r (schedule st) = 0 ∧ attempts r (trace st) = 0;
  binv_done : ∀ r, r < k →
    attempts r (trace st) = 1 ∧ cellCount r (schedule st) ≤ 2 ∧
    ∃ p, readCell (schedule st) (time p + 1) (day p) = Some (Ref r) ∧
         (p ∉ available st) ∧ (mkPosition (day p) (time p + 1) ∉ available st);
  binv_trace : Forall (accessInGrid slots days) (trace st)
}.

(** The projections take the state they speak of from their proof. *)
Arguments inv_shape {slots days startIndex st} _.
Arguments inv_nodup {slots days startIndex st} _.
Arguments inv_range {slots days startIndex st} _.
Arguments inv_free {slots days startIndex st} _.
Arguments inv_early {slots days startIndex st} _.
Arguments inv_trace {slots days startIndex st} _.
Arguments placed_avail {subject p st st'} _.
Arguments placed_shrink {subject p st st'} _.
Arguments placed_cell {subject p st st'} _.
Arguments placed_keeps {subject p st st'} _.
Arguments placed_others {subject p st st'} _.
Arguments placed_count {subject p st st'} _.
Arguments placed_block {subject p st st'} _.
Arguments placed_attempts {subject p st st'} _.
Arguments turn_avail {subject k st st'} _.
Arguments turn_shrink {subject k st st'} _.
Arguments turn_keeps {subject k st st'} _.
Arguments turn_others {subject k st st'} _.
Arguments turn_count {subject k st st'} _.
Arguments turn_attempts {subject k st st'} _.
Arguments turn_cell {subject k st st'} _.
Arguments ran_avail {i l st st'} _.
Arguments ran_keeps {i l st st'} _.
Arguments ran_each {i l st st'} _.
Arguments ran_frame {i l st st'} _.
Arguments binv_shape {slots days startIndex k st} _.
Arguments binv_nodup {slots days startIndex k st} _.
Arguments binv_range {slots days startIndex k st} _.
Arguments binv_fresh {slots days startIndex k st} _.
Arguments binv_done {slots days startIndex k st} _.
Arguments binv_trace {slots days startIndex k st} _.

(** Every subject of the grid keeps to one week day. *)
Definition onOneDay (g : Schedule) : Prop :=
  ∀ r t1 d1 t2 d2,
    readCell g t1 d1 = Some (Ref r) → readCell g t2 d2 = Some (Ref r) → d1 = d2.

(** The grid of src/js/schedule.js after the turns of the subjects
    [0 .. k-1]: besides the invariant of the loop, every subject keeps to
    one day and the slots before the start index are [null]. *)
Record BasicGrid (slots days : nat) (startIndex : Z) (k : nat) (st : Locals) : Prop :=
  mkBasicGrid {
  bgrid_inv : BasicInv slots days startIndex k st;
  bgrid_days : onOneDay (schedule st);
  bgrid_early : ∀ t d, inGrid slots days t d → (t < startIndex)%Z →
    readCell (schedule st) t d = Some Null
}.
Arguments bgrid_inv {slots days startIndex k st} _.
Arguments bgrid_days {slots days startIndex k st} _.
Arguments bgrid_early {slots days startIndex k st} _.

(** The memory of a call of [createScheduleMatrix] on the shared objects
    that started in [m0] and created its grid at [grid]: every object
    of [m0] is as it was, [this] refers to the same three arrays, and the
    rows of the grid are objects created since. *)
Record Owned (m0 : Shared.Memory) (grid : Shared.Address) (m : Shared.Memory) : Prop :=
  mkOwned {
  owned_heap : ∀ address object,
    Shared.heap m0 !! address = Some object → Shared.heap m !! address = Some object;
  owned_timeSlots : Shared.timeSlots (Shared.this m) = Shared.timeSlots (Shared.this m0);
  owned_weekDays : Shared.weekDays (Shared.this m) = Shared.weekDays (Shared.this m0);
  owned_subjects : Shared.subjects (Shared.this m) = Shared.subjects (Shared.this m0);
  owned_schedule : length (Shared.heap m0) ≤ grid < length (Shared.heap m);
  owned_rows : ∀ rows,
    Shared.heap m !! grid = Some (Shared.Rows rows) →
    Forall (λ row, length (Shared.heap m0) ≤ row) rows
}.
Arguments owned_heap {m0 grid m} _.
Arguments owned_timeSlots {m0 grid m} _.
Arguments owned_weekDays {m0 grid m} _.
Arguments owned_subjects {m0 grid m} _.
Arguments owned_schedule {m0 grid m} _.
Arguments owned_rows {m0 grid m} _.

(** A computation that keeps [I], however it ends, and returns only values
    of [Q]. *)
Definition keeps {A} (I : Shared.Memory → Prop) (c : Shared.Run A) (Q : A → Prop) : Prop :=
  ∀ m, I m →
    match c m with
    | Shared.Value a m' => I m' ∧ Q a
    | Shared.Exception _ m' => I m'
    end.

(** A cell of the grid of [Enhanced.createScheduleMatrix], where a
    reference is an index into [this.subjects], as the cell of the grid in
    [Shared.memoryOf], where it is the address of the object of that
    subject. *)
Definition relocate (c : Cell) : Cell :=
  match c with
  | Ref index => Ref (3 + index)
  | Null => Null
  | Undefined => Undefined
  end.

(** The grid [g] of the local state of [Enhanced.createScheduleMatrix] is
    the grid at [grid] in a memory that started as the memory of
    [manager]: the rows are distinct objects created since, and the objects
    of the manager are as they were. *)
Record GridSim (manager : Enhanced.ScheduleManager) (grid : Shared.Address)
    (g : Schedule) (m : Shared.Memory) : Prop := mkGridSim {
  grid_inputs : ∀ address object,
    Shared.heap (Shared.memoryOf manager) !! address = Some object →
    Shared.heap m !! address = Some object;
  grid_this : Shared.this m = Shared.this (Shared.memoryOf manager);
  grid_schedule :
    3 + length (Enhanced.subjects manager) ≤ grid < length (Shared.heap m);
  grid_rows : ∃ rows,
    Shared.heap m !! grid = Some (Shared.Rows rows) ∧ NoDup rows ∧
    Forall (λ row, row ≠ grid ∧
                   3 + length (Enhanced.subjects manager) ≤ row < length (Shared.heap m))
           rows ∧
    Forall2 (λ row cells, Shared.heap m !! row = Some (Shared.Cells (relocate <$> cells)))
            rows g
}.
Arguments grid_inputs {manager grid g m} _.
Arguments grid_this {manager grid g m} _.
Arguments grid_schedule {manager grid g m} _.
Arguments grid_rows {manager grid g m} _.

(** The local state [st] of [Enhanced.createScheduleMatrix] and the memory
    [m] of the call on the shared objects hold the same grid and the same
    list of positions. *)
Record Sim (manager : Enhanced.ScheduleManager) (grid availableSlots : Shared.Address)
    (st : Locals) (m : Shared.Memory) : Prop := mkSim {
  sim_grid : GridSim manager grid (schedule st) m;
  sim_other : availableSlots ≠ grid;
  sim_fresh : 3 + length (Enhanced.subjects manager) ≤ availableSlots;
  sim_row : ∀ rows,
    Shared.heap m !! grid = Some (Shared.Rows rows) → availableSlots ∉ rows;
  sim_available :
    Shared.heap m !! availableSlots = Some (Shared.Positions (available st))
}.
Arguments sim_grid {manager grid availableSlots st m} _.
Arguments sim_other {manager grid availableSlots st m} _.
Arguments sim_fresh {manager grid availableSlots st m} _.
Arguments sim_row {manager grid availableSlots st m} _.
Arguments sim_available {manager grid availableSlots st m} _.

(** The two computations end alike from the states [st] and [m]: with the
    same value, or with the same exception, in states of [R]. *)
Definition alike {A} (R : Locals → Shared.Memory → Prop) (c : M A) (c' : Shared.Run A)
    (st : Locals) (m : Shared.Memory) : Prop :=
  match c st, c' m with
  | Done a st', Shared.Value a' m' => a' = a ∧ R st' m'
  | Threw e st', Shared.Exception e' m' => e' = e ∧ R st' m'
  | _, _ => False
  end.

Definition simulates {A} (R : Locals → Shared.Memory → Prop) (c : M A) (c' : Shared.Run A)
    : Prop :=
  ∀ st m, R st m → alike R c c' st m.

(** ** Concrete inputs *)

(** The draws under which every swap of the shuffle is with the element
    itself: [identityDraws i mod (i + 1) = i]. *)
Definition identityDraws : Random := λ i, i.

(** The manager of src/schedule.js once [proceedToSchedule] has stored
    subjects with the given credits. *)
Definition enhancedManager (credits : list Z) : Enhanced.ScheduleManager :=
  Enhanced.mkManager
    (Enhanced.timeSlots Enhanced.constructor) (Enhanced.weekDays Enhanced.constructor)
    (imap (λ i c, Enhanced.mkSubject ("Materia " +:+ pretty (i + 1)) "Docente" c (i + 1) (i + 1))
          credits)
    None.

(** The manager of src/js/schedule.js once [proceedToSchedule] has stored
    subjects with the given credits. *)
Definition basicManager (credits : list Z) : Basic.ScheduleManager :=
  Basic.mkManager
    (Basic.timeSlots Basic.constructor) (Basic.weekDays Basic.constructor)
    (imap (λ i c, Basic.mkSubject ("Materia " +:+ pretty (i + 1)) "Docente" c (i + 1)) credits)
    None.

(** A manager of src/js/schedule.js with two subjects of different
    professors. *)
Definition twoProfessors : Basic.ScheduleManager :=
  Basic.mkManager
    (Basic.timeSlots Basic.constructor) (Basic.weekDays Basic.constructor)
    [Basic.mkSubject "Álgebra" "Ana" 3 1; Basic.mkSubject "Física" "Luis" 4 2]
    None.

(** ** Arrays: shuffling permutes, removal keeps distinctness *)

Section array_facts.
Context {A : Type}.
Implicit Types (a l : list A) (i j : nat).

Lemma insert_Permutation l i x y :
  l !! i = Some x → <[i := y]> l ≡ₚ y :: delete i l.
Proof.
  intros Hi. pose proof (lookup_lt_Some _ _ _ Hi) as Hlt.
  rewrite insert_take_drop; [|done].
  rewrite delete_take_drop. symmetry. apply Permutation_middle.
Qed.

Lemma swap_Permutation a i j : JS.swap a i j ≡ₚ a.
Proof.
  unfold JS.swap.
  destruct (a !! i) as [ai|] eqn:Hi; [|done].
  destruct (a !! j) as [aj|] eqn:Hj; [|done].
  revert i j Hi Hj. induction a as [|x a IH]; intros [|i] [|j] Hi Hj;
    simplify_eq/=; try done.
  - etrans; [apply perm_skip, (insert_Permutation _ _ _ _ Hj)|].
    etrans; [apply perm_swap|]. apply perm_skip. symmetry.
    by apply delete_Permutation.
  - etrans; [apply perm_skip, (insert_Permutation _ _ _ _ Hi)|].
    etrans; [apply perm_swap|]. apply perm_skip. symmetry.
    by apply delete_Permutation.
  - constructor. by apply IH.
Qed.

Lemma shuffleLoop_Permutation rnd i a : shuffleLoop rnd i a ≡ₚ a.
Proof.
  revert a. induction i as [|i IH]; intros a; simpl; [done|].
  rewrite IH. apply swap_Permutation.
Qed.

Lemma shuffleArray_Permutation rnd a : shuffleArray rnd a ≡ₚ a.
Proof. apply shuffleLoop_Permutation. Qed.

Lemma shuffleArray_length rnd a : length (shuffleArray rnd a) = length a.
Proof. apply Permutation_length, shuffleArray_Permutation. Qed.

(** The swaps of the loop never leave the array: the fall-back branch of
    [JS.swap] is dead code in [shuffleArray]. *)
Lemma shuffleLoop_in_range rnd i a :
  i < length a → is_Some (a !! i) ∧ is_Some (a !! (rnd i mod (i + 1))).
Proof.
  intros Hi. split; apply lookup_lt_is_Some; [done|].
  pose proof (Nat.mod_upper_bound (rnd i) (i + 1)). lia.
Qed.

Lemma findIndex_Some f l i :
  JS.findIndex f l = Some i →
  ∃ x, l !! i = Some x ∧ f x = true ∧ ∀ j y, j < i → l !! j = Some y → f y = false.
Proof.
  revert i. induction l as [|x l IH]; intros i; simpl; [done|].
  destruct (f x) eqn:Hfx.
  - intros [= <-]. exists x. split_and!; [done..|]. intros; lia.
  - destruct (JS.findIndex f l) as [k|]; [|done]. intros [= <-].
    destruct (IH k eq_refl) as (y & Hk & Hy & Hlt). exists y. split_and!; [done..|].
    intros [|j] z Hj Hz; simplify_eq/=; [done|]. eapply Hlt; [|done]. lia.
Qed.

Lemma findIndex_None f l x : JS.findIndex f l = None → x ∈ l → f x = false.
Proof.
  induction l as [|y l IH]; simpl; [by intros _ ?%elem_of_nil|].
  destruct (f y) eqn:Hfy; [done|].
  destruct (JS.findIndex f l); [done|]. intros _ [->|?]%elem_of_cons; auto.
Qed.

Lemma NoDup_delete l i : NoDup l → NoDup (delete i l).
Proof. intros. eapply sublist_NoDup; [done|apply sublist_delete]. Qed.

Lemma NoDup_delete_notin l i x : NoDup l → l !! i = Some x → x ∉ delete i l.
Proof.
  intros Hnd Hi Hin.
  assert (NoDup (x :: delete i l)) as Hnd'.
  { by rewrite <-(delete_Permutation _ _ _ Hi). }
  by inversion Hnd'.
Qed.
End array_facts.

Lemma sum_list_with_insert {A} (f : A → nat) (l : list A) i x y :
  l !! i = Some x →
  sum_list_with f (<[i := y]> l) + f x = sum_list_with f l + f y.
Proof.
  revert i. induction l as [|z l IH]; intros [|i] Hi; simplify_eq/=; [lia|].
  specialize (IH _ Hi). lia.
Qed.

Lemma sum_list_with_replicate {A} (f : A → nat) n x :
  sum_list_with f (replicate n x) = n * f x.
Proof. induction n as [|n IH]; simpl; [done|]. rewrite IH. lia. Qed.

Lemma length_bind_const {A B} (f : A → list B) (l : list A) k :
  (∀ x, length (f x) = k) → length (l ≫= f) = length l * k.
Proof.
  intros Hf. induction l as [|x l IH]; [done|].
  rewrite bind_cons, length_app, Hf, IH. simpl. lia.
Qed.

(** ** The candidate positions *)

Lemma timesFrom_elem startIndex slots t :
  t ∈ timesFrom startIndex slots ↔ (startIndex ≤ t < Z.of_nat slots - 1)%Z.
Proof.
  unfold timesFrom. rewrite list_elem_of_fmap. setoid_rewrite elem_of_seq. split.
  - intros (k & -> & Hk). lia.
  - intros Ht. exists (Z.to_nat (t - startIndex)). lia.
Qed.

Lemma timesFrom_NoDup startIndex slots : NoDup (timesFrom startIndex slots).
Proof.
  unfold timesFrom. apply NoDup_fmap_2; [|apply NoDup_seq].
  intros k1 k2 ?. lia.
Qed.

Lemma positionsFrom_elem startIndex slots days p :
  p ∈ positionsFrom startIndex slots days ↔
  day p < days ∧ (startIndex ≤ time p < Z.of_nat slots - 1)%Z.
Proof.
  unfold positionsFrom. rewrite list_elem_of_bind. split.
  - intros (d & (t & -> & Ht)%list_elem_of_fmap & Hd%elem_of_seq). simpl.
    apply timesFrom_elem in Ht. lia.
  - intros [Hd Ht]. exists (day p). split; [|apply elem_of_seq; lia].
    apply list_elem_of_fmap. exists (time p). split; [by destruct p|].
    by apply timesFrom_elem.
Qed.

Lemma positionsFrom_NoDup startIndex slots days :
  NoDup (positionsFrom startIndex slots days).
Proof.
  unfold positionsFrom. apply NoDup_bind; [| |apply NoDup_seq].
  - intros d1 d2 p _ _ (t1 & -> & _)%list_elem_of_fmap (t2 & [= -> _] & _)%list_elem_of_fmap.
    done.
  - intros d _. apply NoDup_fmap_2; [|apply timesFrom_NoDup]. by intros t1 t2 [= ->].
Qed.

Lemma positionsFrom_length startIndex slots days :
  length (positionsFrom startIndex slots days) =
  days * Z.to_nat (Z.of_nat slots - 1 - startIndex).
Proof.
  unfold positionsFrom.
  rewrite (length_bind_const _ _ (Z.to_nat (Z.of_nat slots - 1 - startIndex))).
  - by rewrite length_seq.
  - intros d. unfold timesFrom. by rewrite !length_fmap, length_seq.
Qed.

(** ** The grid *)

Lemma initRows_eq slots days g :
  initRows slots days g = g ++ replicate slots (replicate days Null).
Proof.
  revert g. induction slots as [|n IH]; intros g; simpl.
  - by rewrite app_nil_r.
  - rewrite IH, <-app_assoc. done.
Qed.

Lemma emptySchedule_eq slots days :
  emptySchedule slots days = replicate slots (replicate days Null).
Proof. apply initRows_eq. Qed.

Lemma emptySchedule_shape slots days : gridShape slots days (emptySchedule slots days).
Proof.
  rewrite emptySchedule_eq. split; [apply length_replicate|].
  apply Forall_replicate, length_replicate.
Qed.

Lemma emptySchedule_read slots days t d :
  inGrid slots days t d → readCell (emptySchedule slots days) t d = Some Null.
Proof.
  intros [Ht Hd]. rewrite emptySchedule_eq. unfold readCell, JS.get.
  rewrite decide_True by lia.
  rewrite lookup_replicate_2 by lia. simpl.
  by rewrite lookup_replicate_2.
Qed.

Lemma emptySchedule_count slots days subject :
  cellCount subject (emptySchedule slots days) = 0.
Proof.
  rewrite emptySchedule_eq. unfold cellCount.
  rewrite !sum_list_with_replicate. simpl. lia.
Qed.

Lemma readCell_None g t d :
  readCell g t d = None ↔ ¬ (0 ≤ t < Z.of_nat (length g))%Z.
Proof.
  unfold readCell, JS.get. destruct (decide (0 ≤ t)%Z) as [Ht|Ht]; simpl.
  - destruct (g !! Z.to_nat t) as [row|] eqn:Hrow; simpl.
    + apply lookup_lt_Some in Hrow. split; [done|lia].
    + apply lookup_ge_None in Hrow. split; [lia|done].
  - split; [lia|done].
Qed.

Lemma readCell_in slots days g t d :
  gridShape slots days g → inGrid slots days t d → is_Some (readCell g t d).
Proof.
  intros [Hlen _] Hin. destruct (readCell g t d) eqn:Hr; [done|].
  apply readCell_None in Hr. destruct Hin. lia.
Qed.

(** Writing inside the grid: the shape is kept, the cell holds the new
    value, every other cell is untouched, and the count of a subject
    changes by what the cell lost and gained. *)
Lemma writeCell_in slots days g t d v :
  gridShape slots days g → inGrid slots days t d →
  ∃ g' old,
    writeCell g t d v = Some g' ∧
    readCell g t d = Some old ∧
    gridShape slots days g' ∧
    readCell g' t d = Some v ∧
    (∀ t' d', (t', d') ≠ (t, d) → readCell g' t' d' = readCell g t' d') ∧
    (∀ r, cellCount r g' + (if decide (old = Ref r) then 1 else 0) =
          cellCount r g + (if decide (v = Ref r) then 1 else 0)).
Proof.
  intros [Hlen Hrows] [Ht Hd]. unfold writeCell, readCell, JS.get.
  rewrite decide_True by lia.
  destruct (lookup_lt_is_Some_2 g (Z.to_nat t)) as [row Hrow]; [lia|].
  rewrite Hrow. simpl.
  assert (length row = days) as Hrowlen.
  { eapply (proj1 (Forall_lookup _ _) Hrows); done. }
  destruct (lookup_lt_is_Some_2 row d) as [old Hold]; [lia|].
  unfold JS.set. rewrite decide_True by lia.
  eexists _, old. split_and!; [done|by rewrite Hold| | | |].
  - split; [by rewrite length_insert|].
    apply Forall_insert; [done|]. by rewrite length_insert.
  - rewrite decide_True by lia.
    rewrite list_lookup_insert_eq by lia. simpl.
    by rewrite list_lookup_insert_eq by lia.
  - intros t' d' Hne. destruct (decide (0 ≤ t')%Z) as [Ht'|]; [|done].
    destruct (decide (Z.to_nat t' = Z.to_nat t)) as [Heq|Hneq].
    + rewrite Heq, list_lookup_insert_eq by lia. rewrite Hrow. simpl.
      rewrite list_lookup_insert_ne; [done|]. intros ->. apply Hne. f_equal. lia.
    + by rewrite list_lookup_insert_ne.
  - intros r. unfold cellCount.
    pose proof (sum_list_with_insert
      (sum_list_with (λ c, if decide (c = Ref r) then 1 else 0)) g (Z.to_nat t) row
      (<[d := v]> row) Hrow) as H1.
    pose proof (sum_list_with_insert
      (λ c, if decide (c = Ref r) then 1 else 0) row d old v Hold) as H2.
    lia.
Qed.

(** ** Running the monad *)

Lemma bind_Done {A B} (m : M A) (k : A → M B) st a st' :
  m st = Done a st' → (m ≫= k) st = k a st'.
Proof. intros H. unfold mbind, M_bind. by rewrite H. Qed.

Lemma bind_Threw {A B} (m : M A) (k : A → M B) st e st' :
  m st = Threw e st' → (m ≫= k) st = Threw e st'.
Proof. intros H. unfold mbind, M_bind. by rewrite H. Qed.

Lemma onlyTypeError_ret {A} (a : A) : onlyTypeError (mret a).
Proof. by intros st e st'. Qed.

Lemma onlyTypeError_bind {A B} (m : M A) (k : A → M B) :
  onlyTypeError m → (∀ a, onlyTypeError (k a)) → onlyTypeError (m ≫= k).
Proof.
  intros Hm Hk st e st'. unfold mbind, M_bind.
  destruct (m st) as [a st1|e1 st1] eqn:Hmst.
  - apply Hk.
  - intros [= <- <-]. by eapply Hm.
Qed.

Lemma onlyTypeError_getAvailable : onlyTypeError getAvailable.
Proof. by intros st e st'. Qed.

Lemma onlyTypeError_setAvailable l : onlyTypeError (setAvailable l).
Proof. by intros st e st'. Qed.

Lemma onlyTypeError_log ev : onlyTypeError (log ev).
Proof. by intros st e st'. Qed.

Lemma onlyTypeError_isNull t d : onlyTypeError (isNull t d).
Proof.
  intros st e st'. unfold isNull. destruct (readCell _ _ _); [done|]. by intros [= <- _].
Qed.

Lemma onlyTypeError_assign t d subject : onlyTypeError (assign t d subject).
Proof.
  intros st e st'. unfold assign. destruct (writeCell _ _ _ _); [done|]. by intros [= <- _].
Qed.

Lemma onlyTypeError_removeSlot d t : onlyTypeError (removeSlot d t).
Proof.
  unfold removeSlot. apply onlyTypeError_bind; [apply onlyTypeError_getAvailable|].
  intros l. destruct (JS.findIndex _ _);
    [apply onlyTypeError_setAvailable|apply onlyTypeError_ret].
Qed.

Lemma onlyTypeError_shiftAvailable : onlyTypeError shiftAvailable.
Proof.
  unfold shiftAvailable. apply onlyTypeError_bind; [apply onlyTypeError_getAvailable|].
  intros l. destruct (JS.shift l).
  apply onlyTypeError_bind; [apply onlyTypeError_setAvailable|].
  intros _. apply onlyTypeError_ret.
Qed.

Create HintDb throws.
Global Hint Resolve onlyTypeError_ret onlyTypeError_getAvailable onlyTypeError_setAvailable
  onlyTypeError_log onlyTypeError_isNull onlyTypeError_assign onlyTypeError_removeSlot
  onlyTypeError_shiftAvailable : throws.

(** ** The primitive steps inside the grid *)

Lemma isSlot_true d t slot : isSlot d t slot = true ↔ slot = mkPosition d t.
Proof.
  unfold isSlot. rewrite andb_true_iff, Nat.eqb_eq, Z.eqb_eq.
  destruct slot as [d' t']; simpl. split; [by intros [-> ->]|by intros [= -> ->]].
Qed.

Lemma isNull_in slots days t d st :
  gridShape slots days (schedule st) → inGrid slots days t d →
  ∃ c, readCell (schedule st) t d = Some c ∧
       isNull t d st =
       Done (bool_decide (c = Null))
            (mkLocals (schedule st) (available st) (ReadCell t d :: trace st)).
Proof.
  intros Hshape Hin. destruct (readCell_in _ _ _ _ _ Hshape Hin) as [c Hc].
  exists c. split; [done|]. unfold isNull. by rewrite Hc.
Qed.

Lemma assign_in slots days t d subject st :
  gridShape slots days (schedule st) → inGrid slots days t d →
  ∃ g' old,
    assign t d subject st =
      Done tt (mkLocals g' (available st) (WriteCell t d old subject :: trace st)) ∧
    readCell (schedule st) t d = Some old ∧
    gridShape slots days g' ∧
    readCell g' t d = Some (Ref subject) ∧
    (∀ t' d', (t', d') ≠ (t, d) → readCell g' t' d' = readCell (schedule st) t' d') ∧
    (∀ r, cellCount r g' + (if decide (old = Ref r) then 1 else 0) =
          cellCount r (schedule st) + (if decide (Ref subject = Ref r) then 1 else 0)).
Proof.
  intros Hshape Hin.
  destruct (writeCell_in _ _ _ _ _ (Ref subject) Hshape Hin)
    as (g' & old & Hw & Hr & Hshape' & Hnew & Hother & Hcount).
  exists g', old. unfold assign. rewrite Hw, Hr. simpl. by split_and!.
Qed.

Lemma removeSlot_spec d t st :
  ∃ l, removeSlot d t st = Done tt (mkLocals (schedule st) l (trace st)) ∧
       l `sublist_of` available st ∧
       length (available st) ≤ length l + 1 ∧
       (NoDup (available st) → mkPosition d t ∉ l).
Proof.
  unfold removeSlot. cbv [mbind M_bind getAvailable].
  destruct (JS.findIndex (isSlot d t) (available st)) as [i|] eqn:Hfind.
  - exists (delete i (available st)). unfold setAvailable, JS.splice1.
    split_and!; [done|apply sublist_delete| |].
    + rewrite length_delete; [lia|].
      apply findIndex_Some in Hfind as (x & Hx & _). eauto.
    + intros Hnd. apply findIndex_Some in Hfind as (x & Hx & Hfx & _).
      apply isSlot_true in Hfx as ->. by apply NoDup_delete_notin.
  - exists (available st). split_and!; [by destruct st|done|lia|].
    intros _ Hin. apply (findIndex_None _ _ _ Hfind) in Hin.
    by rewrite (proj2 (isSlot_true d t _) eq_refl) in Hin.
Qed.

(** ** Exceptions of the placement loop of src/schedule.js *)

Lemma onlyTypeError_placeNext this subject : onlyTypeError (Enhanced.placeNext this subject).
Proof.
  unfold Enhanced.placeNext.
  apply onlyTypeError_bind; [auto with throws|]. intros [position|]; [|auto with throws].
  apply onlyTypeError_bind; [auto with throws|]. intros _.
  apply onlyTypeError_bind.
  - destruct (decide _); auto with throws.
  - intros []; [|auto with throws].
    repeat (apply onlyTypeError_bind; [auto with throws|intros _]). auto with throws.
Qed.

Lemma onlyTypeError_placeSlots this subject n :
  onlyTypeError (Enhanced.placeSlots this subject n).
Proof.
  induction n as [|n IH]; simpl; [auto with throws|].
  apply onlyTypeError_bind; [auto with throws|]. intros l.
  destruct (decide _); [|auto with throws].
  apply onlyTypeError_bind; [apply onlyTypeError_placeNext|done].
Qed.

Lemma scheduleSubject_empty this subject index st :
  available st = [] →
  Enhanced.scheduleSubject this subject index st = Threw (NoSpaceFor (Enhanced.name subject)) st.
Proof.
  intros Hav. unfold Enhanced.scheduleSubject, mbind, M_bind, getAvailable.
  by rewrite Hav.
Qed.

Lemma scheduleSubject_nonempty this subject index st :
  available st ≠ [] →
  Enhanced.scheduleSubject this subject index st =
  Enhanced.placeSlots this index (Z.to_nat (Enhanced.slotsNeeded subject)) st.
Proof.
  intros Hav. unfold Enhanced.scheduleSubject, mbind, M_bind, getAvailable.
  destruct (available st); [done|]. reflexivity.
Qed.

(** The callback throws the per-subject capacity error exactly when the
    list of positions is empty when the subject's turn begins. *)
Lemma scheduleSubject_Threw this subject index st e st' :
  Enhanced.scheduleSubject this subject index st = Threw e st' →
  e = TypeError ∨ (e = NoSpaceFor (Enhanced.name subject) ∧ available st = [] ∧ st' = st).
Proof.
  unfold Enhanced.scheduleSubject, mbind, M_bind, getAvailable.
  destruct (available st) as [|p rest] eqn:Hav; simpl.
  - intros [= <- <-]. by right.
  - intros H%onlyTypeError_placeSlots. by left.
Qed.

Lemma forEachFrom_app {T} (f : T → nat → M unit) i l1 l2 st :
  forEachFrom f i (l1 ++ l2) st =
  match forEachFrom f i l1 st with
  | Done _ st' => forEachFrom f (i + length l1) l2 st'
  | Threw e st' => Threw e st'
  end.
Proof.
  revert i st. induction l1 as [|s l1 IH]; intros i st; simpl.
  - by rewrite Nat.add_0_r.
  - destruct (f s i st) as [[] st1|e st1] eqn:Hf.
    + rewrite !(bind_Done _ _ _ _ _ Hf), IH.
      by replace (i + 1 + length l1) with (i + S (length l1)) by lia.
    + by rewrite !(bind_Threw _ _ _ _ _ Hf).
Qed.

Lemma forEachFrom_NoSpaceFor this i l st nm st' :
  forEachFrom (Enhanced.scheduleSubject this) i l st = Threw (NoSpaceFor nm) st' ↔
  ∃ pre s post,
    l = pre ++ s :: post ∧ Enhanced.name s = nm ∧
    forEachFrom (Enhanced.scheduleSubject this) i pre st = Done tt st' ∧
    available st' = [].
Proof.
  split.
  - revert i st. induction l as [|s l IH]; intros i st; simpl; [done|].
    unfold mbind at 1, M_bind at 1.
    destruct (Enhanced.scheduleSubject this s i st) as [[] st1|e st1] eqn:Hs.
    + intros (pre & s' & post & -> & Hnm & Hpre & Hav)%IH.
      exists (s :: pre), s', post. split_and!; [done..| |done].
      simpl. by rewrite (bind_Done _ _ _ _ _ Hs).
    + intros [= -> ->].
      apply scheduleSubject_Threw in Hs as [[=]|([= Hnm] & Hav & ->)].
      exists [], s, l. by split_and!.
  - intros (pre & s & post & -> & <- & Hpre & Hav).
    rewrite forEachFrom_app, Hpre. simpl.
    by rewrite (bind_Threw _ _ _ _ _ (scheduleSubject_empty this s _ st' Hav)).
Qed.

Lemma requiredCapacity_length subjects :
  (Z.of_nat (length subjects) ≤ requiredCapacity subjects)%Z.
Proof.
  induction subjects as [|s l IH]; simpl; [done|].
  unfold Enhanced.slotsNeeded at 1. lia.
Qed.

(** ** Invariant of the placement loop of src/schedule.js *)

Section enhanced_loop.
Context (this : Enhanced.ScheduleManager) (startIndex : Z).
Context (Hstart : (0 ≤ startIndex)%Z).

Local Abbreviation slots := (length (Enhanced.timeSlots this)).
Local Abbreviation days := (length (Enhanced.weekDays this)).
Local Abbreviation LoopInv := (Inv slots days startIndex).

Lemma placeNext_unfold subject st p rest :
  available st = p :: rest →
  Enhanced.placeNext this subject st =
  let st1 := mkLocals (schedule st) rest (Take subject p :: trace st) in
  if decide (time p + 1 < Z.of_nat slots)%Z then
    match isNull (time p + 1) (day p) st1 with
    | Done true st2 =>
        (assign (time p) (day p) subject;;
         assign (time p + 1) (day p) subject;;
         removeSlot (day p) (time p + 1)) st2
    | Done false st2 => assign (time p) (day p) subject st2
    | Threw e st2 => Threw e st2
    end
  else assign (time p) (day p) subject st1.
Proof.
  intros Hav. destruct st as [g av tr]. simpl in Hav. subst av.
  unfold Enhanced.placeNext, shiftAvailable.
  cbv [mbind M_bind getAvailable JS.shift setAvailable mret M_ret log
       available schedule trace].
  destruct (decide (time p + 1 < Z.of_nat slots)%Z); [|reflexivity].
  destruct (isNull _ _ _) as [[] ?|]; reflexivity.
Qed.

Lemma placeNext_spec subject st p rest :
  LoopInv st → available st = p :: rest →
  ∃ st', Enhanced.placeNext this subject st = Done tt st' ∧ LoopInv st' ∧ Placed subject p st st'.
Proof.
  intros HI Hav.
  destruct (inv_range HI p) as (Hd & Hlo & Hhi); [rewrite Hav; left|].
  pose proof (inv_free HI p) as Hfree. rewrite Hav in Hfree.
  specialize (Hfree ltac:(left)).
  pose proof (inv_nodup HI) as Hnd. rewrite Hav in Hnd.
  apply NoDup_cons in Hnd as [Hp Hnd].
  assert (inGrid slots days (time p) (day p)) as Hin1 by (split; [lia|done]).
  assert (inGrid slots days (time p + 1) (day p)) as Hin2 by (split; [lia|done]).
  assert (∀ q, q ∈ rest → q ∈ available st) as Hsub.
  { intros q ?. rewrite Hav. by right. }
  rewrite (placeNext_unfold _ _ _ _ Hav). cbv zeta. rewrite decide_True by done.
  destruct (isNull_in slots days (time p + 1) (day p)
              (mkLocals (schedule st) rest (Take subject p :: trace st)))
    as (c & Hc & ->); [apply HI|done|]. simpl in Hc.
  destruct (decide (c = Null)) as [->|Hcn].
  - (* two consecutive slots *)
    rewrite bool_decide_true by done.
    match goal with |- context [ (assign ?t ?d ?s ≫= _) ?st0 ] =>
      destruct (assign_in slots days t d s st0)
        as (g1 & old1 & Ha1 & Hold1 & Hsh1 & Hnew1 & Hoth1 & Hcnt1);
        [apply HI|done|]
    end.
    simpl in Ha1, Hold1, Hoth1, Hcnt1. rewrite (bind_Done _ _ _ _ _ Ha1).
    rewrite Hfree in Hold1. injection Hold1 as <-.
    match goal with |- context [ (assign ?t ?d ?s ≫= _) ?st0 ] =>
      destruct (assign_in slots days t d s st0)
        as (g2 & old2 & Ha2 & Hold2 & Hsh2 & Hnew2 & Hoth2 & Hcnt2);
        [done|done|]
    end.
    simpl in Ha2, Hold2, Hoth2, Hcnt2. rewrite (bind_Done _ _ _ _ _ Ha2).
    rewrite Hoth1, Hc in Hold2 by (intros [=]; lia). injection Hold2 as <-.
    match goal with |- context [ removeSlot ?d ?t ?st0 ] =>
      destruct (removeSlot_spec d t st0) as (l & -> & Hl & Hlen & Hnot)
    end.
    simpl in Hl, Hlen, Hnot. specialize (Hnot Hnd).
    eexists. split; [done|]. split; constructor; simpl.
    + done.
    + by eapply sublist_NoDup.
    + intros q Hq. apply (inv_range HI), Hsub. by eapply elem_of_sublist.
    + intros q Hq. assert (q ∈ rest) as Hq' by by eapply elem_of_sublist.
      rewrite Hoth2, Hoth1.
      * by apply (inv_free HI), Hsub.
      * intros [= ? ?]. apply Hp. by replace p with q by (destruct p, q; naive_solver).
      * intros [= ? ?]. apply Hnot. by replace (mkPosition (day p) (time p + 1)) with q
          by (destruct q; naive_solver).
    + intros t d Hin Hlt. rewrite Hoth2, Hoth1 by (intros [=]; lia).
      by apply (inv_early HI).
    + repeat (constructor; [done|]). apply HI.
    + rewrite Hav. by apply sublist_cons.
    + rewrite Hav. simpl. apply sublist_length in Hl. lia.
    + rewrite Hoth2 by (intros [=]; lia). done.
    + intros t d r Hr. rewrite Hoth2, Hoth1; [done|intros [= -> ->]..]; congruence.
    + intros r Hne. specialize (Hcnt1 r). specialize (Hcnt2 r).
      rewrite !(decide_False (P := Null = Ref r)) in * by done.
      rewrite !(decide_False (P := Ref subject = Ref r)) in * by congruence. lia.
    + right. specialize (Hcnt1 subject). specialize (Hcnt2 subject).
      rewrite !(decide_False (P := Null = Ref subject)) in * by done.
      rewrite !(decide_True (P := Ref subject = Ref subject)) in * by done. lia.
    + intros _. split; [done|]. specialize (Hcnt1 subject). specialize (Hcnt2 subject).
      rewrite !(decide_False (P := Null = Ref subject)) in * by done.
      rewrite !(decide_True (P := Ref subject = Ref subject)) in * by done. lia.
    + intros r. unfold attempts. simpl. lia.
  - (* a single slot *)
    rewrite bool_decide_false by done.
    match goal with |- context [ assign ?t ?d ?s ?st0 ] =>
      destruct (assign_in slots days t d s st0)
        as (g1 & old1 & -> & Hold1 & Hsh1 & Hnew1 & Hoth1 & Hcnt1);
        [apply HI|done|]
    end.
    simpl in Hold1, Hoth1, Hcnt1. rewrite Hfree in Hold1. injection Hold1 as <-.
    eexists. split; [done|]. split; constructor; simpl.
    + done.
    + done.
    + intros q Hq. by apply (inv_range HI), Hsub.
    + intros q Hq. rewrite Hoth1; [by apply (inv_free HI), Hsub|].
      intros [= ? ?]. apply Hp. by replace p with q by (destruct p, q; naive_solver).
    + intros t d Hin Hlt. rewrite Hoth1 by (intros [=]; lia).
      by apply (inv_early HI).
    + repeat (constructor; [done|]). apply HI.
    + rewrite Hav. by apply sublist_cons.
    + rewrite Hav. simpl. lia.
    + done.
    + intros t d r Hr. rewrite Hoth1; [done|intros [= -> ->]]; congruence.
    + intros r Hne. specialize (Hcnt1 r).
      rewrite !(decide_False (P := Null = Ref r)) in * by done.
      rewrite !(decide_False (P := Ref subject = Ref r)) in * by congruence. lia.
    + left. specialize (Hcnt1 subject).
      rewrite !(decide_False (P := Null = Ref subject)) in * by done.
      rewrite !(decide_True (P := Ref subject = Ref subject)) in * by done. lia.
    + intros Hnull. congruence.
    + intros r. unfold attempts. simpl. lia.
Qed.

Lemma Turn_refl subject st : Turn subject 0 st st.
Proof.
  constructor; try done; try lia.
  intros r. destruct (decide (subject = r)); lia.
Qed.

Lemma Turn_step subject p k st st1 st2 :
  Placed subject p st st1 → Turn subject k st1 st2 → Turn subject (S k) st st2.
Proof.
  intros HP HT. constructor.
  - etrans; [apply HT|apply HP].
  - pose proof (placed_shrink HP). pose proof (turn_shrink HT). lia.
  - intros t d r Hr. by apply (turn_keeps HT), (placed_keeps HP).
  - intros r Hr. by rewrite (turn_others HT), (placed_others HP).
  - pose proof (placed_count HP). pose proof (turn_count HT). lia.
  - intros r. rewrite (turn_attempts HT), (placed_attempts HP).
    destruct (decide (subject = r)); lia.
  - intros _. exists (time p), (day p).
    apply (turn_keeps HT), (placed_cell HP).
Qed.

Lemma placeSlots_spec subject n st :
  LoopInv st →
  ∃ st' k,
    Enhanced.placeSlots this subject n st = Done tt st' ∧ LoopInv st' ∧
    Turn subject k st st' ∧ k ≤ n ∧
    (k < n → available st' = []) ∧
    (0 < n → available st ≠ [] → 0 < k).
Proof.
  revert st. induction n as [|n IH]; intros st HI; simpl.
  - exists st, 0. split_and!; [done..|apply Turn_refl|lia|lia|lia].
  - unfold mbind at 1, M_bind at 1, getAvailable.
    destruct (available st) as [|p rest] eqn:Hav; simpl.
    + exists st, 0. split_and!; [done..|apply Turn_refl|lia|done|done].
    + destruct (placeNext_spec subject st p rest HI Hav) as (st1 & Hp & HI1 & HP).
      rewrite (bind_Done _ _ _ _ _ Hp).
      destruct (IH st1 HI1) as (st2 & k & -> & HI2 & HT & Hk & Hempty & _).
      exists st2, (S k). split_and!; [done..|by eapply Turn_step|lia| |lia].
      intros ?. apply Hempty. lia.
Qed.

Lemma slotsNeeded_pos subject : 0 < Z.to_nat (Enhanced.slotsNeeded subject).
Proof. unfold Enhanced.slotsNeeded. lia. Qed.

Lemma scheduleSubject_spec subject index st :
  LoopInv st → available st ≠ [] →
  ∃ st' k,
    Enhanced.scheduleSubject this subject index st = Done tt st' ∧ LoopInv st' ∧
    Turn index k st st' ∧ 1 ≤ k ≤ Z.to_nat (Enhanced.slotsNeeded subject) ∧
    (k < Z.to_nat (Enhanced.slotsNeeded subject) → available st' = []).
Proof.
  intros HI Hav. rewrite scheduleSubject_nonempty by done.
  destruct (placeSlots_spec index (Z.to_nat (Enhanced.slotsNeeded subject)) st HI)
    as (st' & k & Heq & HI' & HT & Hk & Hempty & Hpos).
  exists st', k. split_and!; [done..| |done|done].
  apply Hpos; [apply slotsNeeded_pos|done].
Qed.

Lemma forEachFrom_spec l i st :
  LoopInv st →
  match forEachFrom (Enhanced.scheduleSubject this) i l st with
  | Done _ st' => LoopInv st' ∧ Ran i l st st'
  | Threw e st' => LoopInv st' ∧ ∃ s, s ∈ l ∧ e = NoSpaceFor (Enhanced.name s)
  end.
Proof.
  revert i st. induction l as [|s l IH]; intros i st HI; simpl.
  - split; [done|]. constructor; [done|done|intros j s'; by rewrite lookup_nil|done].
  - destruct (decide (available st = [])) as [Hav|Hav].
    + rewrite (bind_Threw _ _ _ _ _ (scheduleSubject_empty this s i st Hav)).
      split; [done|]. exists s. split; [left|done].
    + destruct (scheduleSubject_spec s i st HI Hav)
        as (st1 & k & Heq & HI1 & HT & Hk & Hempty).
      rewrite (bind_Done _ _ _ _ _ Heq).
      specialize (IH (i + 1) st1 HI1).
      destruct (forEachFrom _ (i + 1) l st1) as [[] st2|e st2].
      * destruct IH as [HI2 HR]. split; [done|]. constructor.
        -- etrans; [apply HR|apply HT].
        -- intros t d r Hr. by apply (ran_keeps HR), (turn_keeps HT).
        -- intros [|j] s' Hj; simplify_eq/=.
           ++ exists k. rewrite Nat.add_0_r. split_and!; [lia|lia| | |].
              ** destruct (ran_frame HR i) as [-> _]; [lia|].
                 rewrite (turn_attempts HT). by rewrite decide_True.
              ** intros Hlt. pose proof (ran_avail HR) as Hsub.
                 rewrite (Hempty Hlt) in Hsub. by apply sublist_nil_r.
              ** destruct (turn_cell HT) as (t & d & Hc); [lia|].
                 exists t, d. by apply (ran_keeps HR).
           ++ destruct (ran_each HR j s' Hj) as (k' & Hk' & Hatt & Hemp & Hcell).
              replace (i + S j) with (i + 1 + j) by lia.
              exists k'. split_and!; [lia|lia| |done|done].
              rewrite Hatt, (turn_attempts HT).
              rewrite decide_False by lia. lia.
        -- intros r Hr. simpl in Hr.
           destruct (ran_frame HR r) as [-> ->]; [lia|].
           rewrite (turn_attempts HT), decide_False by lia.
           rewrite (turn_others HT) by lia. split; lia.
      * destruct IH as (HI2 & s' & Hs' & ->). split; [done|].
        exists s'. split; [by right|done].
Qed.

Lemma initial_elem rnd p :
  p ∈ available (Enhanced.initial rnd this startIndex) ↔
  day p < days ∧ (startIndex ≤ time p < Z.of_nat slots - 1)%Z.
Proof.
  simpl. rewrite shuffleArray_Permutation. apply positionsFrom_elem.
Qed.

Lemma initial_Inv rnd : LoopInv (Enhanced.initial rnd this startIndex).
Proof.
  constructor.
  - apply emptySchedule_shape.
  - simpl. rewrite shuffleArray_Permutation. apply positionsFrom_NoDup.
  - intros p Hp%initial_elem. lia.
  - intros p Hp%initial_elem. apply emptySchedule_read. split; lia.
  - intros t d Hin _. by apply emptySchedule_read.
  - constructor.
Qed.

Lemma allocation_unfold rnd :
  Enhanced.allocation rnd this startIndex =
  if decide (length (Enhanced.availableSlots this startIndex) <
             length (Enhanced.subjects this) * 2)
  then Threw (InsufficientSlots (length (Enhanced.subjects this) * 2)
                                (length (Enhanced.availableSlots this startIndex)))
             (mkLocals (emptySchedule slots days)
                       (Enhanced.availableSlots this startIndex) [])
  else forEachFrom (Enhanced.scheduleSubject this) 0 (Enhanced.subjects this) (Enhanced.initial rnd this startIndex).
Proof. reflexivity. Qed.

(** Twice the required capacity is always enough: a turn consumes at most
    two positions per placement. *)
Lemma forEachFrom_enough l i st :
  LoopInv st →
  (2 * requiredCapacity l ≤ Z.of_nat (length (available st)))%Z →
  ∃ st', forEachFrom (Enhanced.scheduleSubject this) i l st = Done tt st'.
Proof.
  revert i st. induction l as [|s l IH]; intros i st HI Hcap; simpl in *.
  - by eexists.
  - pose proof (slotsNeeded_pos s) as Hpos.
    assert (available st ≠ []) as Hav.
    { intros Hnil. rewrite Hnil in Hcap. simpl in Hcap.
      pose proof (requiredCapacity_length l). lia. }
    destruct (scheduleSubject_spec s i st HI Hav) as (st1 & k & Heq & HI1 & HT & Hk & _).
    rewrite (bind_Done _ _ _ _ _ Heq). apply IH; [done|].
    pose proof (turn_shrink HT). lia.
Qed.

Lemma allocation_spec rnd :
  match Enhanced.allocation rnd this startIndex with
  | Done _ st =>
      LoopInv st ∧ Ran 0 (Enhanced.subjects this) (Enhanced.initial rnd this startIndex) st ∧
      length (Enhanced.subjects this) * 2 ≤ length (Enhanced.availableSlots this startIndex)
  | Threw e st => LoopInv st ∧ e ≠ TypeError
  end.
Proof.
  rewrite allocation_unfold. destruct (decide _) as [Hlt|Hge].
  - split; [|done]. constructor; simpl.
    + apply emptySchedule_shape.
    + apply positionsFrom_NoDup.
    + intros p Hp%positionsFrom_elem. lia.
    + intros p Hp%positionsFrom_elem. apply emptySchedule_read. split; lia.
    + intros t d Hin _. by apply emptySchedule_read.
    + constructor.
  - pose proof (forEachFrom_spec (Enhanced.subjects this) 0 (Enhanced.initial rnd this startIndex) (initial_Inv rnd))
      as Hspec.
    destruct (forEachFrom _ _ _ _) as [[] st|e st].
    + destruct Hspec. split_and!; [done..|lia].
    + destruct Hspec as (HI & s & _ & ->). done.
Qed.
End enhanced_loop.

Lemma createScheduleMatrix_Return rnd this startIndex g :
  (Enhanced.createScheduleMatrix rnd this startIndex).1 = Return g ↔
  ∃ st, Enhanced.allocation rnd this startIndex = Done tt st ∧ schedule st = g.
Proof.
  unfold Enhanced.createScheduleMatrix.
  destruct (Enhanced.allocation rnd this startIndex) as [[] st|e st]; simpl.
  - split; [intros [= <-]; eauto|]. by intros (st' & [= <-] & <-).
  - split; [done|]. by intros (st' & [=] & _).
Qed.

Lemma createScheduleMatrix_Throw rnd this startIndex e :
  (Enhanced.createScheduleMatrix rnd this startIndex).1 = Throw e ↔
  ∃ st, Enhanced.allocation rnd this startIndex = Threw e st.
Proof.
  unfold Enhanced.createScheduleMatrix.
  destruct (Enhanced.allocation rnd this startIndex) as [[] st|e' st]; simpl.
  - split; [done|]. by intros (st' & [=]).
  - split; [intros [= <-]; eauto|]. by intros (st' & [= <- _]).
Qed.

Lemma forEachFrom_Threw this i l st e st' :
  forEachFrom (Enhanced.scheduleSubject this) i l st = Threw e st' →
  e = TypeError ∨ ∃ nm, e = NoSpaceFor nm.
Proof.
  revert i st. induction l as [|s l IH]; intros i st; simpl; [done|].
  unfold mbind at 1, M_bind at 1.
  destruct (Enhanced.scheduleSubject this s i st) as [[] st1|e1 st1] eqn:Hs.
  - apply IH.
  - intros [= -> ->]. apply scheduleSubject_Threw in Hs as [->|(-> & _)]; eauto.
Qed.


Lemma safeEvent_accessInGrid slots days ev :
  safeEvent slots days ev → accessInGrid slots days ev.
Proof. destruct ev; simpl; tauto. Qed.

(** ** Properties of src/schedule.js *)

(** In src/schedule.js no write of the placement loop lands on a cell that
    already holds a subject: every written cell was [null]. *)
Theorem enhanced_never_overwrites rnd this startIndex t d old r :
  (0 ≤ startIndex)%Z →
  WriteCell t d old r ∈ trace (finalLocals (Enhanced.allocation rnd this startIndex)) →
  old = Null.
Proof.
  intros Hstart Hin. pose proof (allocation_spec this startIndex Hstart rnd) as Hspec.
  assert (Inv (length (Enhanced.timeSlots this)) (length (Enhanced.weekDays this)) startIndex
            (finalLocals (Enhanced.allocation rnd this startIndex))) as HI.
  { destruct (Enhanced.allocation rnd this startIndex); simpl; tauto. }
  pose proof (proj1 (Forall_forall _ _) (inv_trace HI) _ Hin) as Hsafe.
  simpl in Hsafe. tauto.
Qed.

(** C2, amended: the upfront check of src/schedule.js compares the number
    of candidate positions with twice the number of subjects.  The call
    fails with the global capacity error exactly when the candidates are
    fewer than that, and then nothing has been written: the grid is the
    empty one, no access was made and the manager is unchanged. *)
Theorem upfront_capacity_check rnd this startIndex :
  let candidates := length (Enhanced.availableSlots this startIndex) in
  let needed := length (Enhanced.subjects this) * 2 in
  ((∃ n a, (Enhanced.createScheduleMatrix rnd this startIndex).1 =
           Throw (InsufficientSlots n a)) ↔ candidates < needed) ∧
  (candidates < needed →
     Enhanced.createScheduleMatrix rnd this startIndex =
       (Throw (InsufficientSlots needed candidates), this) ∧
     finalLocals (Enhanced.allocation rnd this startIndex) =
       mkLocals (emptySchedule (length (Enhanced.timeSlots this))
                               (length (Enhanced.weekDays this)))
                (Enhanced.availableSlots this startIndex) []).
Proof.
  intros candidates needed. subst candidates needed.
  unfold Enhanced.createScheduleMatrix. rewrite allocation_unfold.
  destruct (decide _) as [Hlt|Hge]; simpl.
  - split; [|done]. split; [done|]. intros _. by eexists _, _.
  - split; [|done]. split; [|done]. intros (n & a & Hthrow).
    destruct (forEachFrom _ _ _ _) as [[] st|e st] eqn:Hrun; simpl in Hthrow; [done|].
    apply forEachFrom_Threw in Hrun as [->|[nm ->]]; done.
Qed.

(** C3, amended: for a start index that is not negative, the call returns
    a grid whenever the candidate positions are at least twice the required
    capacity, and every grid it returns holds every subject of the input in
    at least one cell.  With fewer candidates the call may throw a capacity
    error instead, also when they reach the required capacity. *)
Theorem coverage_or_failure rnd this startIndex :
  (0 ≤ startIndex)%Z →
  ((2 * requiredCapacity (Enhanced.subjects this) ≤
    Z.of_nat (length (Enhanced.availableSlots this startIndex)))%Z →
   ∃ g, (Enhanced.createScheduleMatrix rnd this startIndex).1 = Return g) ∧
  (∀ g, (Enhanced.createScheduleMatrix rnd this startIndex).1 = Return g →
        ∀ i, i < length (Enhanced.subjects this) →
             ∃ t d, readCell g t d = Some (Ref i)).
Proof.
  intros Hstart. split.
  - intros Hcap. pose proof (requiredCapacity_length (Enhanced.subjects this)) as Hlen.
    destruct (forEachFrom_enough this startIndex Hstart (Enhanced.subjects this) 0
                (Enhanced.initial rnd this startIndex)) as [st Hst].
    { apply initial_Inv. done. }
    { simpl. rewrite shuffleArray_length. done. }
    exists (schedule st). apply createScheduleMatrix_Return. exists st. split; [|done].
    rewrite allocation_unfold, decide_False by lia. done.
  - intros g (st & Hrun & <-)%createScheduleMatrix_Return i Hi.
    pose proof (allocation_spec this startIndex Hstart rnd) as Hspec.
    rewrite Hrun in Hspec. destruct Hspec as (_ & HR & _).
    destruct (lookup_lt_is_Some_2 _ _ Hi) as [s Hs].
    destruct (ran_each HR i s Hs) as (k & _ & _ & _ & Hcell). done.
Qed.

(** C4, amended: for a start index that is not negative, the call throws
    the per-subject capacity error with a subject's name exactly when the
    upfront check passed and the list of positions is empty when the turn
    of a subject of that name begins.  In a call that completes, every
    subject was given at least one and at most [slotsNeeded] placement
    attempts, and fewer than [slotsNeeded] only if the list ran empty, which
    raises no error. *)
Theorem subject_capacity_error rnd this startIndex :
  (0 ≤ startIndex)%Z →
  (∀ nm, (Enhanced.createScheduleMatrix rnd this startIndex).1 = Throw (NoSpaceFor nm) ↔
     length (Enhanced.subjects this) * 2 ≤ length (Enhanced.availableSlots this startIndex) ∧
     ∃ pre s post st,
       Enhanced.subjects this = pre ++ s :: post ∧ Enhanced.name s = nm ∧
       forEach pre (Enhanced.scheduleSubject this) (Enhanced.initial rnd this startIndex) = Done tt st ∧
       available st = []) ∧
  (∀ st, Enhanced.allocation rnd this startIndex = Done tt st →
     ∀ i s, Enhanced.subjects this !! i = Some s →
       1 ≤ attempts i (trace st) ≤ Z.to_nat (Enhanced.slotsNeeded s) ∧
       (attempts i (trace st) < Z.to_nat (Enhanced.slotsNeeded s) → available st = [])).
Proof.
  intros Hstart. split.
  - intros nm. rewrite createScheduleMatrix_Throw, allocation_unfold.
    destruct (decide _) as [Hlt|Hge].
    + split; [by intros (st & [=])|]. intros [? _]. lia.
    + split.
      * intros (st & (pre & s & post & Hsplit & Hnm & Hpre & Hav)%forEachFrom_NoSpaceFor).
        split; [lia|]. by exists pre, s, post, st.
      * intros (_ & pre & s & post & st & Hsplit & Hnm & Hpre & Hav).
        exists st. apply forEachFrom_NoSpaceFor. by exists pre, s, post.
  - intros st Hrun i s Hs.
    pose proof (allocation_spec this startIndex Hstart rnd) as Hspec.
    rewrite Hrun in Hspec. destruct Hspec as (_ & HR & _).
    destruct (ran_each HR i s Hs) as (k & Hk & Hatt & Hempty & _).
    simpl in Hatt. rewrite Hatt. split; [lia|]. intros ?. apply Hempty. lia.
Qed.

(** C5, amended: a single subject of 5 credits is given two placements.
    With at least four candidate positions the returned grid holds the
    subject in 3 or 4 cells: the first placement always is a consecutive
    block, two cells of one day at adjacent time indices, and the second
    adds one cell or another block of two. *)
Theorem single_subject_of_five_credits rnd this startIndex s :
  Enhanced.subjects this = [s] → Enhanced.credits s = 5%Z →
  (0 ≤ startIndex)%Z →
  4 ≤ length (Enhanced.availableSlots this startIndex) →
  ∃ g, (Enhanced.createScheduleMatrix rnd this startIndex).1 = Return g ∧
       (cellCount 0 g = 3 ∨ cellCount 0 g = 4) ∧
       ∃ t d, readCell g t d = Some (Ref 0) ∧ readCell g (t + 1) d = Some (Ref 0).
Proof.
  intros Hsubjects Hcredits Hstart Hample.
  pose proof (initial_Inv this startIndex Hstart rnd) as HI0.
  assert (length (available (Enhanced.initial rnd this startIndex)) =
          length (Enhanced.availableSlots this startIndex)) as Hlen0.
  { simpl. apply shuffleArray_length. }
  destruct (available (Enhanced.initial rnd this startIndex)) as [|p rest] eqn:Hav0;
    [simpl in Hlen0; lia|].
  destruct (placeNext_spec this startIndex Hstart 0 _ p rest HI0 Hav0)
    as (st1 & Hp1 & HI1 & HP1).
  pose proof (placed_shrink HP1) as Hshrink1. rewrite Hav0, Hlen0 in Hshrink1.
  destruct (available st1) as [|q rest1] eqn:Hav1; [simpl in Hshrink1; lia|].
  destruct (placeNext_spec this startIndex Hstart 0 _ q rest1 HI1 Hav1)
    as (st2 & Hp2 & HI2 & HP2).
  assert (Enhanced.allocation rnd this startIndex = Done tt st2) as Hrun.
  { rewrite allocation_unfold, Hsubjects, decide_False by (simpl; lia). simpl.
    erewrite bind_Done; [done|].
    rewrite scheduleSubject_nonempty by by rewrite Hav0.
    unfold Enhanced.slotsNeeded. rewrite Hcredits. simpl.
    unfold mbind at 1, M_bind at 1, getAvailable. rewrite Hav0. simpl.
    rewrite (bind_Done _ _ _ _ _ Hp1).
    unfold mbind at 1, M_bind at 1. rewrite Hav1. simpl.
    by rewrite (bind_Done _ _ _ _ _ Hp2). }
  assert (p ∈ available (Enhanced.initial rnd this startIndex)) as Hp by (rewrite Hav0; left).
  apply initial_elem in Hp.
  destruct (placed_block HP1) as [Hnext Hcount1].
  { apply emptySchedule_read. split; lia. }
  simpl in Hcount1. rewrite emptySchedule_count in Hcount1.
  exists (schedule st2). split_and!.
  - apply createScheduleMatrix_Return. by exists st2.
  - pose proof (placed_count HP2). lia.
  - exists (time p), (day p). split; apply (placed_keeps HP2); [|done].
    apply (placed_cell HP1).
Qed.

(** C7: in every grid the call returns, the cells of the time slots before
    the start index are [null]. *)
Theorem slots_before_start_unused rnd this startIndex g t d :
  (Enhanced.createScheduleMatrix rnd this startIndex).1 = Return g →
  inGrid (length (Enhanced.timeSlots this)) (length (Enhanced.weekDays this)) t d →
  (t < startIndex)%Z →
  readCell g t d = Some Null.
Proof.
  intros (st & Hrun & <-)%createScheduleMatrix_Return Hin Hlt.
  assert (0 ≤ startIndex)%Z as Hstart by (destruct Hin; lia).
  pose proof (allocation_spec this startIndex Hstart rnd) as Hspec.
  rewrite Hrun in Hspec. destruct Hspec as (HI & _ & _).
  by apply (inv_early HI).
Qed.

(** ** The call on the shared objects writes only what it created *)

Section keeps.
Context (I : Shared.Memory → Prop).

Lemma keeps_ret {A} (a : A) (Q : A → Prop) : Q a → keeps I (mret a) Q.
Proof. by intros HQ m HI. Qed.

Lemma keeps_throw {A} e (Q : A → Prop) : keeps I (Shared.throw e) Q.
Proof. by intros m HI. Qed.

Lemma keeps_bind {A B} (c : Shared.Run A) (k : A → Shared.Run B) Q R :
  keeps I c Q → (∀ a, Q a → keeps I (k a) R) → keeps I (c ≫= k) R.
Proof.
  intros Hc Hk m HI. specialize (Hc m HI). unfold mbind, Shared.Run_bind.
  destruct (c m) as [a m'|e m']; [|done]. destruct Hc as [HI' HQ]. by apply Hk.
Qed.

Lemma keeps_weaken {A} (c : Shared.Run A) (Q R : A → Prop) :
  keeps I c Q → (∀ a, Q a → R a) → keeps I c R.
Proof.
  intros Hc HQR m HI. specialize (Hc m HI).
  destruct (c m) as [a m'|e m']; [|done]. destruct Hc. auto.
Qed.

(** Reading changes nothing. *)
Lemma keeps_load address : keeps I (Shared.load address) (λ _, True).
Proof. intros m HI. unfold Shared.load. by destruct (_ !! _). Qed.

Lemma keeps_the {A} (as_ : Shared.Object → option A) address :
  keeps I (Shared.the as_ address) (λ _, True).
Proof.
  apply (keeps_bind _ _ _ _ (keeps_load address)). intros object _.
  destruct (as_ object); [by apply keeps_ret|apply keeps_throw].
Qed.

Lemma keeps_lengthOf array : keeps I (Shared.lengthOf array) (λ _, True).
Proof.
  apply (keeps_bind _ _ _ _ (keeps_load array)). intros object _.
  destruct object; first [by apply keeps_ret|apply keeps_throw].
Qed.

Lemma keeps_getThis : keeps I Shared.getThis (λ _, True).
Proof. by intros m HI. Qed.
End keeps.

Section owned.
Context (m0 : Shared.Memory) (grid : Shared.Address).

Local Abbreviation fresh := (λ address : Shared.Address, length (Shared.heap m0) ≤ address).
Local Abbreviation Mine := (Owned m0 grid).

(** The rows the grid refers to were created by the call. *)
Lemma keeps_rows : keeps Mine (Shared.the Shared.asRows grid) (Forall fresh).
Proof.
  intros m HI. unfold Shared.the, Shared.load, mbind, Shared.Run_bind.
  destruct (Shared.heap m !! grid) as [object|] eqn:Hobject; [|done].
  destruct object; try done. simpl. split; [done|]. by apply (owned_rows HI).
Qed.

(** A write to an object the call created keeps the others; the grid may
    only receive rows the call created. *)
Lemma keeps_store address object :
  fresh address →
  (address = grid → ∀ rows, object = Shared.Rows rows → Forall fresh rows) →
  keeps Mine (Shared.store address object) (λ _, True).
Proof.
  intros Hfresh Hrows m HI. cbv beta in Hfresh. simpl. split; [|done].
  destruct HI as [Hheap Hts Hwd Hsub Hsched Hmine]. constructor; simpl; try done.
  - intros a o Ha. rewrite list_lookup_insert_ne; [by apply Hheap|].
    apply lookup_lt_Some in Ha. lia.
  - by rewrite length_insert.
  - intros rows. destruct (decide (address = grid)) as [->|Hne].
    + rewrite list_lookup_insert_eq by lia. intros [= ->]. by eapply Hrows.
    + rewrite list_lookup_insert_ne by done. apply Hmine.
Qed.

(** A new object is none of those that were there. *)
Lemma keeps_new object :
  keeps Mine (Shared.new object) (λ address, fresh address ∧ address ≠ grid).
Proof.
  intros m HI. simpl.
  destruct HI as [Hheap Hts Hwd Hsub Hsched Hmine].
  assert (length (Shared.heap m0) ≤ length (Shared.heap m)) by lia.
  split; [|lia]. constructor; simpl; try done.
  - intros a o Ha. rewrite lookup_app_l; [by apply Hheap|].
    apply lookup_lt_Some in Ha. lia.
  - rewrite length_app. simpl. lia.
  - intros rows. rewrite lookup_app_l by lia. apply Hmine.
Qed.

Lemma keeps_setCurrentScheduleData address :
  keeps Mine (Shared.setCurrentScheduleData address) (λ _, True).
Proof. intros m HI. simpl. split; [|done]. by destruct HI. Qed.

Lemma keeps_appendRow row :
  fresh row → keeps Mine (Shared.appendRow grid row) (λ _, True).
Proof.
  intros Hrow. apply (keeps_bind _ _ _ _ _ keeps_rows). intros rows Hrows.
  intros m HI. apply keeps_store; [apply (owned_schedule HI)| |done].
  intros _ rows' [= <-]. apply Forall_app. split; [done|]. by constructor.
Qed.

Section positions.
Context (availableSlots : Shared.Address).
Context (Havailable : fresh availableSlots) (Hother : availableSlots ≠ grid).

Lemma keeps_push position :
  keeps Mine (Shared.push availableSlots position) (λ _, True).
Proof.
  apply (keeps_bind _ _ _ _ _ (keeps_the _ _ _)). intros elements _.
  by apply keeps_store.
Qed.

Lemma keeps_shift : keeps Mine (Shared.shift availableSlots) (λ _, True).
Proof.
  apply (keeps_bind _ _ _ _ _ (keeps_the _ _ _)). intros elements _.
  destruct (JS.shift elements) as [position rest].
  apply (keeps_bind _ _ _ (λ _, True)); [by apply keeps_store|].
  intros _ _. by apply keeps_ret.
Qed.

Lemma keeps_removeSlot d t :
  keeps Mine (Shared.removeSlot availableSlots d t) (λ _, True).
Proof.
  apply (keeps_bind _ _ _ _ _ (keeps_the _ _ _)). intros elements _.
  destruct (JS.findIndex _ _); [by apply keeps_store|by apply keeps_ret].
Qed.

Lemma keeps_shuffleArray rnd :
  keeps Mine (Shared.shuffleArray rnd availableSlots) (λ _, True).
Proof.
  apply (keeps_bind _ _ _ _ _ (keeps_load _ _)). intros object _.
  by apply keeps_store.
Qed.

Lemma keeps_pushEach positions :
  keeps Mine (Shared.pushEach availableSlots positions) (λ _, True).
Proof.
  induction positions as [|position rest IH]; simpl; [by apply keeps_ret|].
  apply (keeps_bind _ _ _ _ _ (keeps_push position)). by intros _ _.
Qed.

Lemma keeps_readCell t d : keeps Mine (Shared.readCell grid t d) (λ _, True).
Proof.
  apply (keeps_bind _ _ _ _ _ (keeps_the _ _ _)). intros rows _.
  destruct (JS.get rows t) as [row|]; [|apply keeps_throw].
  apply (keeps_bind _ _ _ _ _ (keeps_the _ _ _)). intros cells _. by apply keeps_ret.
Qed.

(** A write to a cell goes to a row of the grid. *)
Lemma keeps_writeCell t d v : keeps Mine (Shared.writeCell grid t d v) (λ _, True).
Proof.
  apply (keeps_bind _ _ _ _ _ keeps_rows). intros rows Hrows.
  destruct (JS.get rows t) as [row|] eqn:Hrow; [|apply keeps_throw].
  apply (keeps_bind _ _ _ _ _ (keeps_the _ _ _)). intros cells _.
  apply keeps_store; [|done].
  unfold JS.get in Hrow. destruct (decide _); [|done].
  rewrite Forall_lookup in Hrows. by eapply Hrows.
Qed.

Lemma keeps_placeNext subject :
  keeps Mine (Shared.placeNext grid availableSlots subject) (λ _, True).
Proof.
  apply (keeps_bind _ _ _ _ _ keeps_shift). intros [position|] _; [|by apply keeps_ret].
  apply (keeps_bind _ _ _ _ _ (keeps_getThis _)). intros this _.
  apply (keeps_bind _ _ _ _ _ (keeps_lengthOf _ _)). intros slots _.
  apply (keeps_bind _ _ _ (λ _, True)).
  { destruct (decide _); [|by apply keeps_ret].
    apply (keeps_bind _ _ _ _ _ (keeps_readCell _ _)). intros cell _. by apply keeps_ret. }
  intros [] _.
  - apply (keeps_bind _ _ _ _ _ (keeps_writeCell _ _ _)). intros _ _.
    apply (keeps_bind _ _ _ _ _ (keeps_writeCell _ _ _)). intros _ _.
    apply keeps_removeSlot.
  - apply keeps_writeCell.
Qed.

Lemma keeps_placeSlots subject remaining :
  keeps Mine (Shared.placeSlots grid availableSlots subject remaining) (λ _, True).
Proof.
  induction remaining as [|remaining IH]; simpl; [by apply keeps_ret|].
  apply (keeps_bind _ _ _ _ _ (keeps_lengthOf _ _)). intros available _.
  destruct (decide _); [|by apply keeps_ret].
  apply (keeps_bind _ _ _ _ _ (keeps_placeNext subject)). by intros _ _.
Qed.

Lemma keeps_scheduleSubject subject index :
  keeps Mine (Shared.scheduleSubject grid availableSlots subject index) (λ _, True).
Proof.
  apply (keeps_bind _ _ _ _ _ (keeps_lengthOf _ _)). intros available _.
  destruct (decide _).
  - apply (keeps_bind _ _ _ _ _ (keeps_the _ _ _)). intros fields _. apply keeps_throw.
  - apply (keeps_bind _ _ _ _ _ (keeps_the _ _ _)). intros fields _. apply keeps_placeSlots.
Qed.
End positions.

Lemma keeps_forEachFrom array f index count :
  (∀ subject i, keeps Mine (f subject i) (λ _, True)) →
  keeps Mine (Shared.forEachFrom array f index count) (λ _, True).
Proof.
  intros Hf. revert index. induction count as [|count IH]; intros index; simpl;
    [by apply keeps_ret|].
  apply (keeps_bind _ _ _ _ _ (keeps_the _ _ _)). intros elements _.
  apply (keeps_bind _ _ _ (λ _, True)).
  { destruct (elements !! index); [apply Hf|by apply keeps_ret]. }
  intros _ _. apply IH.
Qed.

Lemma keeps_forEach array f :
  (∀ subject i, keeps Mine (f subject i) (λ _, True)) →
  keeps Mine (Shared.forEach array f) (λ _, True).
Proof.
  intros Hf. apply (keeps_bind _ _ _ _ _ (keeps_lengthOf _ _)). intros count _.
  by apply keeps_forEachFrom.
Qed.

Lemma keeps_initRows remaining :
  keeps Mine (Shared.initRows grid remaining) (λ _, True).
Proof.
  induction remaining as [|remaining IH]; simpl; [by apply keeps_ret|].
  apply (keeps_bind _ _ _ _ _ (keeps_getThis _)). intros this _.
  apply (keeps_bind _ _ _ _ _ (keeps_lengthOf _ _)). intros days _.
  apply (keeps_bind _ _ _ _ _ (keeps_new _)). intros row [Hrow _].
  apply (keeps_bind _ _ _ _ _ (keeps_appendRow row Hrow)). by intros _ _.
Qed.
End owned.

(** The call keeps every object it was given. *)
Lemma createScheduleMatrix_Owned rnd startIndex m0 :
  Owned m0 (length (Shared.heap m0))
    (Shared.memoryAfter (Shared.createScheduleMatrix rnd startIndex m0)).
Proof.
  set (grid := length (Shared.heap m0)).
  set (m1 := Shared.mkMemory (Shared.heap m0 ++ [Shared.Rows []]) (Shared.this m0)).
  assert (Owned m0 grid m1) as HI.
  { constructor; simpl; try done.
    - intros a o Ha. by apply lookup_app_l_Some.
    - rewrite length_app. simpl. lia.
    - intros rows. rewrite list_lookup_middle by done. by intros [= <-]. }
  unfold Shared.createScheduleMatrix.
  change ((Shared.new (Shared.Rows []) ≫= ?k) m0) with (k grid m1).
  cbv beta.
  match goal with |- Owned _ _ (Shared.memoryAfter (?c m1)) =>
    assert (keeps (Owned m0 grid) c (λ _, True)) as Hkeeps end.
  { apply (keeps_bind _ _ _ _ _ (keeps_getThis _)). intros this _.
    apply (keeps_bind _ _ _ _ _ (keeps_lengthOf _ _)). intros slots _.
    apply (keeps_bind _ _ _ _ _ (keeps_initRows _ _ _)). intros _ _.
    apply (keeps_bind _ _ _ _ _ (keeps_new _ _ _)). intros availableSlots [Hfresh Hne].
    apply (keeps_bind _ _ _ _ _ (keeps_lengthOf _ _)). intros days _.
    apply (keeps_bind _ _ _ (λ _, True)); [by apply keeps_pushEach|]. intros _ _.
    apply (keeps_bind _ _ _ _ _ (keeps_lengthOf _ _)). intros available _.
    apply (keeps_bind _ _ _ _ _ (keeps_lengthOf _ _)). intros count _.
    destruct (decide _); [apply keeps_throw|].
    apply (keeps_bind _ _ _ (λ _, True)); [by apply keeps_shuffleArray|]. intros _ _.
    apply (keeps_bind _ _ _ (λ _, True)).
    { apply keeps_forEach. intros subject i. by apply keeps_scheduleSubject. }
    intros _ _.
    apply (keeps_bind _ _ _ _ _ (keeps_setCurrentScheduleData _ _ _)). intros _ _.
    by apply keeps_ret. }
  specialize (Hkeeps m1 HI).
  match goal with |- Owned _ _ (Shared.memoryAfter ?r) => destruct r as [a m'|e m'] end;
    simpl; [by destruct Hkeeps|done].
Qed.

(** What the caller sees through [this] is made of objects that were there
    before the call. *)
Lemma subjectsOf_kept m m' subjects :
  (∀ address object,
     Shared.heap m !! address = Some object → Shared.heap m' !! address = Some object) →
  Shared.subjects (Shared.this m') = Shared.subjects (Shared.this m) →
  Shared.subjectsOf m = Some subjects → Shared.subjectsOf m' = Some subjects.
Proof.
  intros Hheap Hthis. unfold Shared.subjectsOf. rewrite Hthis.
  destruct (Shared.heap m !! Shared.subjects (Shared.this m)) as [object|] eqn:Harray;
    [|done].
  rewrite (Hheap _ _ Harray). simpl.
  destruct (Shared.asSubjects object) as [elements|]; [|done]. simpl.
  rewrite !mapM_Some. intros Hall. eapply Forall2_impl; [exact Hall|].
  intros subject fields.
  unfold Shared.subjectAt.
  destruct (Shared.heap m !! subject) as [object'|] eqn:Hsubject; [|done].
  by rewrite (Hheap _ _ Hsubject).
Qed.

Lemma stringsAt_kept m m' array strings :
  (∀ address object,
     Shared.heap m !! address = Some object → Shared.heap m' !! address = Some object) →
  Shared.stringsAt m array = Some strings → Shared.stringsAt m' array = Some strings.
Proof.
  intros Hheap. unfold Shared.stringsAt.
  destruct (Shared.heap m !! array) as [object|] eqn:Harray; [|done].
  by rewrite (Hheap _ _ Harray).
Qed.

(** C8: the call of [createScheduleMatrix] on the objects it shares with
    its caller.  Whatever the memory in which it starts, and whether it
    returns or throws, every object that existed before the call is
    unchanged after it, and [this] still refers to the same arrays of
    subjects, time slots and week days: the call writes only the grid, the
    rows and the list of positions it has created, and the field
    [currentScheduleData].  So the subjects seen through [this.subjects]
    are the same, in the same order and with the same fields, and so are
    the time slots and the week days. *)
Theorem inputs_not_mutated rnd startIndex m subjects timeSlots weekDays :
  Shared.subjectsOf m = Some subjects →
  Shared.timeSlotsOf m = Some timeSlots →
  Shared.weekDaysOf m = Some weekDays →
  let m' := Shared.memoryAfter (Shared.createScheduleMatrix rnd startIndex m) in
  Shared.subjectsOf m' = Some subjects ∧
  Shared.timeSlotsOf m' = Some timeSlots ∧
  Shared.weekDaysOf m' = Some weekDays ∧
  Shared.subjects (Shared.this m') = Shared.subjects (Shared.this m) ∧
  Shared.timeSlots (Shared.this m') = Shared.timeSlots (Shared.this m) ∧
  Shared.weekDays (Shared.this m') = Shared.weekDays (Shared.this m) ∧
  ∀ address object,
    Shared.heap m !! address = Some object → Shared.heap m' !! address = Some object.
Proof.
  intros Hsubjects HtimeSlots HweekDays m'.
  destruct (createScheduleMatrix_Owned rnd startIndex m) as [Hheap Hts Hwd Hsub _ _].
  fold m' in Hheap, Hts, Hwd, Hsub.
  split_and!; [| | |done..].
  - by apply (subjectsOf_kept m).
  - unfold Shared.timeSlotsOf. rewrite Hts. by apply (stringsAt_kept m).
  - unfold Shared.weekDaysOf. rewrite Hwd. by apply (stringsAt_kept m).
Qed.

(** ** The call on the shared objects computes the grid of [Enhanced.createScheduleMatrix] *)

Lemma alike_bind {A B} R (c : M A) (k : A → M B) (c' : Shared.Run A) (k' : A → Shared.Run B)
    st m :
  alike R c c' st m → (∀ a, simulates R (k a) (k' a)) →
  alike R (c ≫= k) (c' ≫= k') st m.
Proof.
  unfold alike, mbind, M_bind, Shared.Run_bind. intros Hc Hk.
  destruct (c st) as [a st'|e st'], (c' m) as [a' m'|e' m']; try done.
  destruct Hc as [-> HR]. by apply Hk.
Qed.

Lemma simulates_bind {A B} R (c : M A) (k : A → M B) (c' : Shared.Run A)
    (k' : A → Shared.Run B) :
  simulates R c c' → (∀ a, simulates R (k a) (k' a)) → simulates R (c ≫= k) (c' ≫= k').
Proof. intros Hc Hk st m HR. apply alike_bind; [by apply Hc|done]. Qed.

Lemma simulates_ret {A} R (a : A) : simulates R (mret a) (mret a).
Proof. by intros st m HR. Qed.

(** A read of the memory whose result is known. *)
Lemma alike_read {A B} R (c : M B) (c' : Shared.Run A) (k' : A → Shared.Run B) st m a :
  c' m = Shared.Value a m → alike R c (k' a) st m → alike R c (c' ≫= k') st m.
Proof. unfold alike, mbind, Shared.Run_bind. by intros ->. Qed.

Lemma memoryOf_length manager :
  length (Shared.heap (Shared.memoryOf manager)) = 3 + length (Enhanced.subjects manager).
Proof. simpl. by rewrite length_fmap. Qed.

Lemma memoryOf_lookup_lt manager address object :
  Shared.heap (Shared.memoryOf manager) !! address = Some object →
  address < 3 + length (Enhanced.subjects manager).
Proof. intros Ha%lookup_lt_Some. by rewrite memoryOf_length in Ha. Qed.

Lemma memoryOf_subject manager index subject :
  Enhanced.subjects manager !! index = Some subject →
  Shared.heap (Shared.memoryOf manager) !! (3 + index) = Some (Shared.SubjectObject subject).
Proof. intros Hs. simpl. by rewrite list_lookup_fmap, Hs. Qed.

Arguments Shared.memoryOf : simpl never.

Lemma relocate_Null c : relocate c = Null ↔ c = Null.
Proof. by destruct c. Qed.

Lemma relocate_set (cells : list Cell) d index :
  relocate <$> JS.set Undefined cells d (Ref index) =
  JS.set Undefined (relocate <$> cells) d (Ref (3 + index)).
Proof.
  unfold JS.set. rewrite length_fmap. destruct (decide _).
  - by rewrite list_fmap_insert.
  - rewrite !fmap_app, fmap_replicate. done.
Qed.

Section sim.
Context (manager : Enhanced.ScheduleManager) (grid availableSlots : Shared.Address).

Local Abbreviation Same := (Sim manager grid availableSlots).

Lemma sim_lengthOf_availableSlots st m :
  Same st m →
  Shared.lengthOf availableSlots m = Shared.Value (length (available st)) m.
Proof.
  intros HR. unfold Shared.lengthOf, Shared.load, mbind, Shared.Run_bind.
  by rewrite (sim_available HR).
Qed.

Lemma sim_getThis st m :
  Same st m → Shared.getThis m = Shared.Value (Shared.mkManager 0 1 2 None) m.
Proof. intros HR. unfold Shared.getThis. by rewrite (grid_this (sim_grid HR)). Qed.

Lemma sim_lengthOf_timeSlots st m :
  Same st m →
  Shared.lengthOf 0 m = Shared.Value (length (Enhanced.timeSlots manager)) m.
Proof.
  intros HR. unfold Shared.lengthOf, Shared.load, mbind, Shared.Run_bind.
  by rewrite (grid_inputs (sim_grid HR) 0 (Shared.Strings (Enhanced.timeSlots manager))).
Qed.

Lemma sim_subjects st m :
  Same st m →
  Shared.the Shared.asSubjects 2 m =
    Shared.Value (seq 3 (length (Enhanced.subjects manager))) m.
Proof.
  intros HR. unfold Shared.the, Shared.load, mbind, Shared.Run_bind.
  by rewrite (grid_inputs (sim_grid HR) 2
                (Shared.Subjects (seq 3 (length (Enhanced.subjects manager))))).
Qed.

Lemma sim_subject st m index subject :
  Same st m → Enhanced.subjects manager !! index = Some subject →
  Shared.the Shared.asSubject (3 + index) m = Shared.Value subject m.
Proof.
  intros HR Hs. unfold Shared.the, Shared.load, mbind, Shared.Run_bind.
  by rewrite (grid_inputs (sim_grid HR) _ _ (memoryOf_subject _ _ _ Hs)).
Qed.

(** The ghost trace is not part of the memory. *)
Lemma sim_trace st m tr :
  Same st m → Same (mkLocals (schedule st) (available st) tr) m.
Proof. by intros []. Qed.

(** A new list of positions. *)
Lemma sim_setAvailable st m l :
  Same st m →
  Same (mkLocals (schedule st) l (trace st))
       (Shared.mkMemory (<[availableSlots := Shared.Positions l]> (Shared.heap m))
                        (Shared.this m)).
Proof.
  intros [[Hin Hthis Hsched (rows & Hrows & Hnodup & Hfresh & Hcells)] Hother Hav Hrow Hpos].
  assert (availableSlots ∉ rows) as Hnot by by apply Hrow.
  constructor; simpl; try done.
  - constructor; simpl; try done.
    + intros a o Ha. rewrite list_lookup_insert_ne; [by apply Hin|].
      apply memoryOf_lookup_lt in Ha. lia.
    + by rewrite length_insert.
    + exists rows. rewrite list_lookup_insert_ne by done. split_and!; [done..| |].
      * rewrite length_insert. done.
      * apply Forall2_same_length_lookup. split; [by eapply Forall2_length|].
        intros i row cells Hi Hc. rewrite list_lookup_insert_ne.
        -- by apply (Forall2_lookup_lr _ _ _ _ _ _ Hcells Hi Hc).
        -- intros <-. apply Hnot. by eapply list_elem_of_lookup_2.
  - intros rows'. rewrite list_lookup_insert_ne by done. apply Hrow.
  - rewrite list_lookup_insert_eq; [done|]. by eapply lookup_lt_Some.
Qed.

Lemma sim_positions st m :
  Same st m →
  Shared.the Shared.asPositions availableSlots m = Shared.Value (available st) m.
Proof.
  intros HR. unfold Shared.the, Shared.load, mbind, Shared.Run_bind.
  by rewrite (sim_available HR).
Qed.

Lemma sim_shift : simulates Same shiftAvailable (Shared.shift availableSlots).
Proof.
  intros st m HR. unfold Shared.shift. apply (alike_read _ _ _ _ _ _ _ (sim_positions _ _ HR)).
  unfold alike, shiftAvailable. cbv [mbind M_bind getAvailable].
  destruct (JS.shift (available st)) as [position rest]. simpl.
  split; [done|]. by apply sim_setAvailable.
Qed.

Lemma sim_removeSlot d t :
  simulates Same (removeSlot d t) (Shared.removeSlot availableSlots d t).
Proof.
  intros st m HR. unfold Shared.removeSlot.
  apply (alike_read _ _ _ _ _ _ _ (sim_positions _ _ HR)).
  unfold alike, removeSlot. cbv [mbind M_bind getAvailable].
  destruct (JS.findIndex _ _) as [nextSlotIndex|]; simpl; [|done].
  split; [done|]. by apply sim_setAvailable.
Qed.

(** The rows of the two grids, index by index. *)
Lemma sim_rows st m :
  Same st m →
  ∃ rows,
    Shared.the Shared.asRows grid m = Shared.Value rows m ∧
    ∀ t, match JS.get (schedule st) t with
         | Some cells =>
             ∃ row, JS.get rows t = Some row ∧ rows !! Z.to_nat t = Some row ∧
                    schedule st !! Z.to_nat t = Some cells ∧
                    Shared.the Shared.asCells row m = Shared.Value (relocate <$> cells) m
         | None => JS.get rows t = None
         end.
Proof.
  intros HR. destruct (grid_rows (sim_grid HR)) as (rows & Hrows & _ & _ & Hcells).
  exists rows. split.
  { unfold Shared.the, Shared.load, mbind, Shared.Run_bind. by rewrite Hrows. }
  intros t. unfold JS.get. destruct (decide (0 ≤ t)%Z); [|done].
  destruct (schedule st !! Z.to_nat t) as [cells|] eqn:Hc.
  - destruct (Forall2_lookup_r _ _ _ _ _ Hcells Hc) as (row & Hrow & Hcell).
    exists row. split_and!; [done..|].
    unfold Shared.the, Shared.load, mbind, Shared.Run_bind. by rewrite Hcell.
  - apply lookup_ge_None. apply lookup_ge_None in Hc.
    by rewrite (Forall2_length _ _ _ Hcells).
Qed.

Lemma sim_isNull t d :
  simulates Same (isNull t d)
    (cell ← Shared.readCell grid t d; mret (bool_decide (cell = Null))).
Proof.
  intros st m HR. destruct (sim_rows st m HR) as (rows & Hrows & Hget).
  specialize (Hget t). unfold Shared.readCell.
  unfold alike, isNull, readCell. cbv [mbind Shared.Run_bind option_bind].
  rewrite Hrows. cbv [mbind Shared.Run_bind option_bind].
  destruct (JS.get (schedule st) t) as [cells|].
  - destruct Hget as (row & -> & _ & _ & Hcells).
    cbv [mbind Shared.Run_bind option_bind]. rewrite Hcells. simpl.
    split; [|by apply sim_trace].
    rewrite list_lookup_fmap. destruct (cells !! d) as [c|]; simpl; [|done].
    apply bool_decide_ext, relocate_Null.
  - rewrite Hget. simpl. split; [done|]. by apply sim_trace.
Qed.

(** A row of the grid updated in place. *)
Lemma sim_writeRow st m rows i row cells cells' tr :
  Same st m →
  Shared.heap m !! grid = Some (Shared.Rows rows) →
  rows !! i = Some row → schedule st !! i = Some cells →
  Same (mkLocals (<[i := cells']> (schedule st)) (available st) tr)
       (Shared.mkMemory (<[row := Shared.Cells (relocate <$> cells')]> (Shared.heap m))
                        (Shared.this m)).
Proof.
  intros [[Hin Hthis Hsched (rows' & Hrows' & Hnodup & Hfresh & Hcells)] Hother Hav Hrow Hpos]
    Hrows Hi Hc.
  rewrite Hrows in Hrows'. injection Hrows' as <-.
  assert (availableSlots ∉ rows) as Hnot by by apply Hrow.
  assert (row ∈ rows) as Hmem by by eapply list_elem_of_lookup_2.
  rewrite Forall_forall in Hfresh. destruct (Hfresh row Hmem) as [Hne Hbound].
  constructor; simpl; try done.
  - constructor; simpl; try done.
    + intros a o Ha. rewrite list_lookup_insert_ne; [by apply Hin|].
      apply memoryOf_lookup_lt in Ha. lia.
    + by rewrite length_insert.
    + exists rows. rewrite list_lookup_insert_ne by done. split_and!; [done..| |].
      * rewrite length_insert. by apply Forall_forall.
      * apply Forall2_same_length_lookup. split.
        { rewrite length_insert. by eapply Forall2_length. }
        intros j row' cells'' Hj Hc'.
        destruct (decide (j = i)) as [->|Hji].
        -- rewrite Hi in Hj. injection Hj as <-.
           rewrite list_lookup_insert_eq in Hc' by (by eapply lookup_lt_Some).
           injection Hc' as <-.
           rewrite list_lookup_insert_eq; [done|]. lia.
        -- rewrite list_lookup_insert_ne in Hc' by done.
           rewrite list_lookup_insert_ne.
           ++ by apply (Forall2_lookup_lr _ _ _ _ _ _ Hcells Hj Hc').
           ++ intros <-. by apply Hji, (NoDup_lookup _ _ _ _ Hnodup Hj Hi).
  - intros rows'. rewrite list_lookup_insert_ne by done. apply Hrow.
  - rewrite list_lookup_insert_ne; [done|]. by intros <-.
Qed.

Lemma sim_assign t d index :
  simulates Same (assign t d index) (Shared.writeCell grid t d (Ref (3 + index))).
Proof.
  intros st m HR. destruct (sim_rows st m HR) as (rows & Hrows & Hget).
  specialize (Hget t). unfold Shared.writeCell.
  apply (alike_read _ _ _ _ _ _ _ Hrows).
  unfold alike, assign, writeCell. cbv [mbind option_bind].
  destruct (JS.get (schedule st) t) as [cells|].
  - destruct Hget as (row & -> & Hrow & Hcells & Hload).
    cbv [mbind Shared.Run_bind]. rewrite Hload. simpl. split; [done|].
    change (S (S (S index))) with (3 + index). rewrite <-relocate_set.
    apply (sim_writeRow st m rows (Z.to_nat t) row cells); [done| |done..].
    destruct (grid_rows (sim_grid HR)) as (rows' & Hrows' & _).
    unfold Shared.the, Shared.load, mbind, Shared.Run_bind in Hrows.
    rewrite Hrows' in Hrows. simpl in Hrows. by injection Hrows as ->.
  - rewrite Hget. simpl. split; [done|]. by apply sim_trace.
Qed.

Lemma alike_log {A} R (k : M A) (c' : Shared.Run A) ev st m :
  alike R k c' (mkLocals (schedule st) (available st) (ev :: trace st)) m →
  alike R (log ev;; k) c' st m.
Proof. done. Qed.

Lemma alike_getAvailable {A} R (k : list Position → M A) (c' : Shared.Run A) st m :
  alike R (k (available st)) c' st m → alike R (getAvailable ≫= k) c' st m.
Proof. done. Qed.

Lemma sim_placeNext index :
  simulates Same (Enhanced.placeNext manager index)
            (Shared.placeNext grid availableSlots (3 + index)).
Proof.
  apply (simulates_bind _ _ _ _ _ sim_shift). intros [position|]; [|apply simulates_ret].
  intros st m HR. apply alike_log.
  assert (Same (mkLocals (schedule st) (available st)
                         (Take index position :: trace st)) m) as HR'
    by by apply sim_trace.
  apply (alike_read _ _ _ _ _ _ _ (sim_getThis _ _ HR')). simpl.
  apply (alike_read _ _ _ _ _ _ _ (sim_lengthOf_timeSlots _ _ HR')).
  apply alike_bind.
  { destruct (decide _); [by apply sim_isNull|by apply simulates_ret]. }
  intros [].
  - apply (simulates_bind _ _ _ _ _ (sim_assign _ _ _)). intros _.
    apply (simulates_bind _ _ _ _ _ (sim_assign _ _ _)). intros _.
    apply sim_removeSlot.
  - apply sim_assign.
Qed.

Lemma sim_placeSlots index remaining :
  simulates Same (Enhanced.placeSlots manager index remaining)
            (Shared.placeSlots grid availableSlots (3 + index) remaining).
Proof.
  induction remaining as [|remaining IH]; simpl; [apply simulates_ret|].
  intros st m HR. apply alike_getAvailable.
  apply (alike_read _ _ _ _ _ _ _ (sim_lengthOf_availableSlots _ _ HR)).
  destruct (decide _); [|by apply simulates_ret].
  apply alike_bind; [by apply sim_placeNext|]. by intros _.
Qed.

Lemma sim_scheduleSubject subject index :
  Enhanced.subjects manager !! index = Some subject →
  simulates Same (Enhanced.scheduleSubject manager subject index)
            (Shared.scheduleSubject grid availableSlots (3 + index) index).
Proof.
  intros Hs st m HR. unfold Enhanced.scheduleSubject, Shared.scheduleSubject.
  apply alike_getAvailable.
  apply (alike_read _ _ _ _ _ _ _ (sim_lengthOf_availableSlots _ _ HR)).
  destruct (decide _).
  - by apply (alike_read _ _ _ _ _ _ _ (sim_subject _ _ _ _ HR Hs)).
  - apply (alike_read _ _ _ _ _ _ _ (sim_subject _ _ _ _ HR Hs)).
    by apply sim_placeSlots.
Qed.

Lemma sim_forEachFrom l index :
  (∀ j subject, l !! j = Some subject →
                Enhanced.subjects manager !! (index + j) = Some subject) →
  simulates Same (forEachFrom (Enhanced.scheduleSubject manager) index l)
            (Shared.forEachFrom 2 (Shared.scheduleSubject grid availableSlots)
                                index (length l)).
Proof.
  revert index. induction l as [|subject l IH]; intros index Hl; simpl;
    [apply simulates_ret|].
  intros st m HR. apply (alike_read _ _ _ _ _ _ _ (sim_subjects _ _ HR)).
  assert (Enhanced.subjects manager !! index = Some subject) as Hs.
  { specialize (Hl 0 subject eq_refl). by rewrite Nat.add_0_r in Hl. }
  rewrite lookup_seq_lt by (by eapply lookup_lt_Some).
  apply alike_bind; [by apply sim_scheduleSubject|]. intros _.
  apply IH. intros j s Hj. specialize (Hl (S j) s Hj).
  by replace (index + 1 + j) with (index + S j) by lia.
Qed.
End sim.

(** The rows are created one by one, as in [initRows]. *)
Lemma sim_initRows manager grid remaining g m :
  GridSim manager grid g m →
  ∃ m', Shared.initRows grid remaining m = Shared.Value tt m' ∧
        GridSim manager grid
          (initRows remaining (length (Enhanced.weekDays manager)) g) m'.
Proof.
  revert g m. induction remaining as [|remaining IH]; intros g m HG; simpl; [by exists m|].
  destruct HG as [Hin Hthis Hsched (rows & Hrows & Hnodup & Hfresh & Hcells)].
  unfold Shared.appendRow, Shared.the, Shared.getThis, Shared.lengthOf, Shared.load,
    Shared.new, Shared.store.
  cbv [mbind Shared.Run_bind]. rewrite Hthis. simpl.
  rewrite (Hin 1 (Shared.Strings (Enhanced.weekDays manager))) by done. simpl.
  rewrite lookup_app_l by lia. rewrite Hrows. simpl.
  apply IH. rewrite Forall_forall in Hfresh.
  constructor; simpl; try done.
  - intros a o Ha. pose proof (memoryOf_lookup_lt _ _ _ Ha).
    rewrite list_lookup_insert_ne by lia. rewrite lookup_app_l by lia. by apply Hin.
  - rewrite length_insert, length_app. simpl. lia.
  - exists (rows ++ [length (Shared.heap m)]).
    rewrite list_lookup_insert_eq by (rewrite length_app; simpl; lia).
    split_and!; [done| | |].
    + apply NoDup_app. split_and!; [done| |apply NoDup_singleton].
      intros row Hrow%Hfresh ->%list_elem_of_singleton. lia.
    + rewrite length_insert, length_app. simpl. apply Forall_app. split.
      * apply Forall_forall. intros row Hrow%Hfresh. lia.
      * constructor; [lia|constructor].
    + apply Forall2_app.
      * apply Forall2_same_length_lookup. split; [by eapply Forall2_length|].
        intros i row cells Hi Hc.
        assert (row ∈ rows) as Hrow%Hfresh by by eapply list_elem_of_lookup_2.
        rewrite list_lookup_insert_ne by lia. rewrite lookup_app_l by lia.
        by apply (Forall2_lookup_lr _ _ _ _ _ _ Hcells Hi Hc).
      * constructor; [|constructor].
        rewrite list_lookup_insert_ne by lia. rewrite list_lookup_middle by done.
        by rewrite fmap_replicate.
Qed.

Lemma sim_pushEach manager grid availableSlots positions g l tr m :
  Sim manager grid availableSlots (mkLocals g l tr) m →
  ∃ m', Shared.pushEach availableSlots positions m = Shared.Value tt m' ∧
        Sim manager grid availableSlots (mkLocals g (l ++ positions) tr) m'.
Proof.
  revert l m. induction positions as [|position rest IH]; intros l m HR; simpl.
  { exists m. by rewrite app_nil_r. }
  unfold Shared.push. cbv [mbind Shared.Run_bind].
  rewrite (sim_positions _ _ _ _ _ HR). simpl.
  rewrite (assoc_L (++) l [position] rest : l ++ position :: rest = (l ++ [position]) ++ rest).
  apply IH. apply (sim_setAvailable _ _ _ _ _ (l ++ [position]) HR).
Qed.

(** The grid of the memory is the grid of the local state, its references
    relocated. *)
Lemma GridSim_gridAt manager grid g m :
  GridSim manager grid g m →
  Shared.gridAt m grid = Some ((λ cells : list Cell, relocate <$> cells) <$> g).
Proof.
  intros HG. destruct (grid_rows HG) as (rows & Hrows & _ & _ & Hcells).
  unfold Shared.gridAt. rewrite Hrows. simpl. apply mapM_Some.
  apply Forall2_fmap_r. eapply Forall2_impl; [exact Hcells|].
  intros row cells Hrow. simpl in *. by rewrite Hrow.
Qed.

(** The call on the memory of a manager up to its capacity check: the
    grid and the list of positions are new objects, empty and unshuffled as
    in the local state of [Enhanced.allocation]. *)
Lemma createScheduleMatrix_prelude rnd manager startIndex :
  ∃ grid availableSlots m,
    Sim manager grid availableSlots
        (mkLocals (emptySchedule (length (Enhanced.timeSlots manager))
                                 (length (Enhanced.weekDays manager)))
                  (Enhanced.availableSlots manager startIndex) []) m ∧
    Shared.createScheduleMatrix rnd startIndex (Shared.memoryOf manager) =
    (available ← Shared.lengthOf availableSlots;
     count ← Shared.lengthOf 2;
     if decide (available < count * 2)
     then Shared.throw (InsufficientSlots (count * 2) available)
     else
       Shared.shuffleArray rnd availableSlots;;
       Shared.forEach 2 (Shared.scheduleSubject grid availableSlots);;
       Shared.setCurrentScheduleData grid;;
       mret grid) m.
Proof.
  pose proof (memoryOf_length manager) as Hlen.
  assert (Shared.this (Shared.memoryOf manager) = Shared.mkManager 0 1 2 None) as Hthis0
    by done.
  remember (Shared.memoryOf manager) as m0 eqn:Hm0.
  set (grid := length (Shared.heap m0)).
  set (m1 := Shared.mkMemory (Shared.heap m0 ++ [Shared.Rows []]) (Shared.this m0)).
  assert (GridSim manager grid [] m1) as HG.
  { constructor; rewrite <-?Hm0; simpl; try done.
    - intros a o Ha. by apply lookup_app_l_Some.
    - rewrite length_app. simpl. unfold grid. lia.
    - exists []. rewrite list_lookup_middle by done. split_and!; [done|constructor..]. }
  exists grid.
  unfold Shared.createScheduleMatrix.
  change ((Shared.new (Shared.Rows []) ≫= ?k) m0) with (k grid m1). cbv beta.
  unfold Shared.getThis at 1. cbv [mbind Shared.Run_bind].
  change (Shared.this m1) with (Shared.this m0). rewrite Hthis0.
  cbv [Shared.timeSlots Shared.weekDays Shared.subjects].
  assert (∀ m g, GridSim manager grid g m →
            Shared.lengthOf 0 m = Shared.Value (length (Enhanced.timeSlots manager)) m ∧
            Shared.lengthOf 1 m = Shared.Value (length (Enhanced.weekDays manager)) m)
    as Hlengths.
  { intros m g Hm. unfold Shared.lengthOf, Shared.load. cbv [mbind Shared.Run_bind].
    rewrite (grid_inputs Hm 0 (Shared.Strings (Enhanced.timeSlots manager))) by done.
    by rewrite (grid_inputs Hm 1 (Shared.Strings (Enhanced.weekDays manager))) by done. }
  destruct (Hlengths _ _ HG) as [-> _].
  destruct (sim_initRows manager grid (length (Enhanced.timeSlots manager)) [] m1 HG)
    as (m2 & -> & HG2).
  fold (emptySchedule (length (Enhanced.timeSlots manager))
                      (length (Enhanced.weekDays manager))) in HG2.
  set (g := emptySchedule _ _) in *.
  set (availableSlots := length (Shared.heap m2)).
  set (m3 := Shared.mkMemory (Shared.heap m2 ++ [Shared.Positions []]) (Shared.this m2)).
  change (Shared.new (Shared.Positions []) m2) with (Shared.Value availableSlots m3).
  cbv beta iota. exists availableSlots.
  assert (Sim manager grid availableSlots (mkLocals g [] []) m3) as HR.
  { destruct HG2 as [Hin Hthis Hsched (rows & Hrows & Hnodup & Hfresh & Hcells)].
    rewrite Forall_forall in Hfresh.
    constructor; simpl; try (unfold availableSlots; lia).
    - constructor; simpl; try done.
      + intros a o Ha. pose proof (memoryOf_lookup_lt _ _ _ Ha).
        rewrite lookup_app_l by lia. by apply Hin.
      + rewrite length_app. simpl. lia.
      + exists rows. rewrite lookup_app_l by lia. split_and!; [done..| |].
        * apply Forall_forall. intros row Hrow%Hfresh. rewrite length_app. simpl. lia.
        * apply Forall2_same_length_lookup. split; [by eapply Forall2_length|].
          intros i row cells Hi Hc.
          assert (row ∈ rows) as Hrow%Hfresh by by eapply list_elem_of_lookup_2.
          rewrite lookup_app_l by lia.
          by apply (Forall2_lookup_lr _ _ _ _ _ _ Hcells Hi Hc).
    - intros rows'. rewrite lookup_app_l by lia. rewrite Hrows. intros [= <-].
      intros Hmem%Hfresh. unfold availableSlots in Hmem. lia.
    - by rewrite list_lookup_middle. }
  destruct (Hlengths _ _ (sim_grid HR)) as [_ ->].
  destruct (sim_pushEach manager grid availableSlots
              (positionsFrom startIndex (length (Enhanced.timeSlots manager))
                                        (length (Enhanced.weekDays manager)))
              g [] [] m3 HR) as (m4 & -> & HR4).
  rewrite app_nil_l in HR4. by exists m4.
Qed.

(** The call on the memory of a manager ends as [Enhanced.createScheduleMatrix]
    does for that manager: with the same exception, or with the same grid,
    whose references are now the addresses of the subject objects, and
    which [this.currentScheduleData] refers to. *)
Lemma createScheduleMatrix_shared rnd manager startIndex :
  match Enhanced.createScheduleMatrix rnd manager startIndex,
        Shared.createScheduleMatrix rnd startIndex (Shared.memoryOf manager) with
  | (Return g, _), Shared.Value grid m' =>
      Shared.gridAt m' grid = Some ((λ cells : list Cell, relocate <$> cells) <$> g) ∧
      Shared.currentScheduleData (Shared.this m') = Some grid
  | (Throw e, _), Shared.Exception e' m' =>
      e' = e ∧ Shared.currentScheduleData (Shared.this m') = None
  | _, _ => False
  end.
Proof.
  destruct (createScheduleMatrix_prelude rnd manager startIndex)
    as (grid & availableSlots & m4 & HR4 & ->).
  assert (∀ st m, Sim manager grid availableSlots st m →
            Shared.lengthOf 2 m = Shared.Value (length (Enhanced.subjects manager)) m)
    as Hcount.
  { intros st m Hm. unfold Shared.lengthOf, Shared.load. cbv [mbind Shared.Run_bind].
    rewrite (grid_inputs (sim_grid Hm) 2
               (Shared.Subjects (seq 3 (length (Enhanced.subjects manager))))) by done.
    simpl. by rewrite length_seq. }
  cbv [mbind Shared.Run_bind].
  rewrite (sim_lengthOf_availableSlots _ _ _ _ _ HR4), (Hcount _ _ HR4).
  unfold Enhanced.createScheduleMatrix, Enhanced.allocation. cbv [available].
  destruct (decide _) as [Hfew|Henough].
  { simpl. split; [done|]. by rewrite (grid_this (sim_grid HR4)). }
  unfold Shared.shuffleArray, Shared.load, Shared.store. cbv [mbind Shared.Run_bind].
  rewrite (sim_available HR4). cbv [Shared.shuffled available].
  pose proof (sim_setAvailable _ _ _ _ _
                (shuffleArray rnd (Enhanced.availableSlots manager startIndex)) HR4) as HR5.
  cbv [schedule trace available] in HR5.
  fold (Enhanced.initial rnd manager startIndex) in HR5.
  match type of HR5 with Sim _ _ _ _ ?m => set (m5 := m) in * end.
  unfold Shared.forEach. cbv [mbind Shared.Run_bind].
  rewrite (Hcount _ _ HR5).
  pose proof (sim_forEachFrom manager grid availableSlots (Enhanced.subjects manager) 0
                (λ j subject Hj, Hj) _ _ HR5) as Hloop.
  unfold alike in Hloop. unfold forEach.
  destruct (forEachFrom _ 0 _ _) as [[] st|e st],
           (Shared.forEachFrom _ _ _ _ _) as [[] m6|e' m6]; try done.
  - destruct Hloop as [_ HR6]. simpl.
    split; [|done]. exact (GridSim_gridAt _ _ _ _ (sim_grid HR6)).
  - destruct Hloop as [-> HR6]. simpl. split; [done|].
    by rewrite (grid_this (sim_grid HR6)).
Qed.

(** C9: for a start index that is not negative, every read and write of the
    grid made during the call, whether it returns or throws, has its time
    index inside the time slots and its day index inside the week days, and
    the call never fails with the TypeError of an access outside the grid. *)
Theorem grid_accesses_in_bounds rnd this startIndex :
  (0 ≤ startIndex)%Z →
  Forall (accessInGrid (length (Enhanced.timeSlots this)) (length (Enhanced.weekDays this)))
         (trace (finalLocals (Enhanced.allocation rnd this startIndex))) ∧
  (Enhanced.createScheduleMatrix rnd this startIndex).1 ≠ Throw TypeError.
Proof.
  intros Hstart. pose proof (allocation_spec this startIndex Hstart rnd) as Hspec.
  split.
  - eapply Forall_impl; [|apply safeEvent_accessInGrid].
    destruct (Enhanced.allocation rnd this startIndex); simpl; apply Hspec.
  - intros (st & Hrun)%createScheduleMatrix_Throw. rewrite Hrun in Hspec. tauto.
Qed.

(** ** The placement loop of src/js/schedule.js *)

Lemma pop_snoc {A} (l : list A) x : JS.pop (l ++ [x]) = (Some x, l).
Proof.
  unfold JS.pop. rewrite last_snoc, length_app. simpl.
  replace (length l + 1 - 1) with (length l) by lia. by rewrite take_app_length.
Qed.

Lemma elem_of_snoc {A} (l : list A) x : x ∈ l ++ [x].
Proof. apply elem_of_app. right. by apply list_elem_of_singleton. Qed.

Lemma snoc_inv {A} (l : list A) : l ≠ [] → ∃ rest x, l = rest ++ [x].
Proof.
  destruct l as [|y l] using rev_ind; [done|]. intros _. by exists l, y.
Qed.

Lemma cellCount_pos g t d r : readCell g t d = Some (Ref r) → 0 < cellCount r g.
Proof.
  unfold readCell, JS.get. destruct (decide (0 ≤ t)%Z); [|done].
  destruct (g !! Z.to_nat t) as [row|] eqn:Hrow; [|done]. simpl.
  destruct (row !! d) as [c|] eqn:Hc; [|done]. simpl. intros [= ->].
  apply list_elem_of_lookup_2 in Hrow, Hc.
  pose proof (sum_list_with_in _ (λ c, if decide (c = Ref r) then 1 else 0) _ Hc) as H1.
  pose proof (sum_list_with_in _
    (sum_list_with (λ c, if decide (c = Ref r) then 1 else 0)) _ Hrow) as H2.
  cbv beta in H1. rewrite decide_True in H1 by done. unfold cellCount. lia.
Qed.

Lemma basic_scheduleSubject_few this subject index st :
  length (available st) < 2 →
  Basic.scheduleSubject this subject index st = Threw NotEnoughPositions st.
Proof.
  intros Hlen. unfold Basic.scheduleSubject, mbind, M_bind, getAvailable.
  by rewrite decide_True.
Qed.

Lemma basic_scheduleSubject_unfold this subject index st rest p :
  available st = rest ++ [p] → 2 ≤ length (available st) →
  Basic.scheduleSubject this subject index st =
  let st1 := mkLocals (schedule st) rest (Take index p :: trace st) in
  if decide (time p + 1 < Z.of_nat (length (Basic.timeSlots this)))%Z then
    (assign (time p) (day p) index;;
     assign (time p + 1) (day p) index;;
     removeSlot (day p) (time p + 1)) st1
  else assign (time p) (day p) index st1.
Proof.
  intros Hav Hlen. destruct st as [g av tr]. simpl in *. subst av.
  unfold Basic.scheduleSubject, popAvailable.
  cbv [mbind M_bind getAvailable available schedule trace].
  rewrite decide_False by lia. rewrite pop_snoc.
  cbv [setAvailable mret M_ret log available schedule trace].
  by destruct (decide _).
Qed.

Section basic_loop.
Context (this : Basic.ScheduleManager) (startIndex : Z).
Context (Hstart : (0 ≤ startIndex)%Z).

Local Abbreviation slots := (length (Basic.timeSlots this)).
Local Abbreviation days := (length (Basic.weekDays this)).
Local Abbreviation LoopInv := (BasicInv slots days startIndex).

Lemma basic_scheduleSubject_spec subject k st :
  LoopInv k st → 2 ≤ length (available st) →
  ∃ st', Basic.scheduleSubject this subject k st = Done tt st' ∧ LoopInv (k + 1) st'.
Proof.
  intros HI Hlen.
  destruct (snoc_inv (available st)) as (rest & p & Hav).
  { intros Hnil. rewrite Hnil in Hlen. simpl in Hlen. lia. }
  destruct (binv_range HI p) as (Hd & Hlo & Hhi); [rewrite Hav; apply elem_of_snoc|].
  pose proof (binv_nodup HI) as Hnd. rewrite Hav in Hnd.
  apply NoDup_app in Hnd as (Hnd & Hp & _).
  assert (p ∉ rest) as Hprest.
  { intros Hin. apply (Hp _ Hin). by apply list_elem_of_singleton. }
  assert (inGrid slots days (time p) (day p)) as Hin1 by (split; [lia|done]).
  assert (inGrid slots days (time p + 1) (day p)) as Hin2 by (split; [lia|done]).
  assert (∀ q, q ∈ rest → q ∈ available st) as Hsub.
  { intros q ?. rewrite Hav. apply elem_of_app. by left. }
  rewrite (basic_scheduleSubject_unfold _ _ _ _ _ _ Hav Hlen). cbv zeta.
  rewrite decide_True by done.
  match goal with |- context [ (assign ?t ?d ?s ≫= _) ?st0 ] =>
    destruct (assign_in slots days t d s st0)
      as (g1 & old1 & Ha1 & Hold1 & Hsh1 & Hnew1 & Hoth1 & Hcnt1);
      [apply HI|done|]
  end.
  simpl in Ha1, Hold1, Hoth1, Hcnt1. rewrite (bind_Done _ _ _ _ _ Ha1).
  match goal with |- context [ (assign ?t ?d ?s ≫= _) ?st0 ] =>
    destruct (assign_in slots days t d s st0)
      as (g2 & old2 & Ha2 & Hold2 & Hsh2 & Hnew2 & Hoth2 & Hcnt2);
      [done|done|]
  end.
  simpl in Ha2, Hold2, Hoth2, Hcnt2. rewrite (bind_Done _ _ _ _ _ Ha2).
  rewrite Hoth1 in Hold2 by (intros [=]; lia).
  match goal with |- context [ removeSlot ?d ?t ?st0 ] =>
    destruct (removeSlot_spec d t st0) as (l & -> & Hl & _ & Hnot)
  end.
  simpl in Hl, Hnot. specialize (Hnot Hnd).
  assert (∀ q, q ∈ l → q ∈ available st) as Hsubl.
  { intros q Hq. apply Hsub. by eapply elem_of_sublist. }
  assert (∀ r, cellCount r (schedule st) = 0 → old1 ≠ Ref r ∧ old2 ≠ Ref r) as Hfresh.
  { intros r Hr. split; intros ->.
    - apply cellCount_pos in Hold1. lia.
    - apply cellCount_pos in Hold2. lia. }
  eexists. split; [done|]. constructor; simpl.
  - done.
  - by eapply sublist_NoDup.
  - intros q Hq. by apply (binv_range HI), Hsubl.
  - intros r Hr. destruct (binv_fresh HI r) as [Hc Ha]; [lia|].
    destruct (Hfresh r Hc) as [Ho1 Ho2].
    specialize (Hcnt1 r). specialize (Hcnt2 r).
    rewrite (decide_False (P := old1 = Ref r)) in Hcnt1 by done.
    rewrite (decide_False (P := old2 = Ref r)) in Hcnt2 by done.
    rewrite (decide_False (P := Ref k = Ref r)) in Hcnt1, Hcnt2 by (intros [=]; lia).
    unfold attempts in *. simpl. rewrite decide_False by lia. lia.
  - intros r Hr. destruct (decide (r = k)) as [->|Hne].
    + destruct (binv_fresh HI k) as [Hc Ha]; [lia|].
      destruct (Hfresh k Hc) as [Ho1 Ho2].
      specialize (Hcnt1 k). specialize (Hcnt2 k).
      rewrite (decide_False (P := old1 = Ref k)) in Hcnt1 by done.
      rewrite (decide_False (P := old2 = Ref k)) in Hcnt2 by done.
      rewrite (decide_True (P := Ref k = Ref k)) in Hcnt1, Hcnt2 by done.
      split_and!.
      * unfold attempts in *. simpl. rewrite decide_True by done. lia.
      * lia.
      * exists p. split_and!; [done| |done].
        intros Hq. apply Hprest. by eapply elem_of_sublist.
    + destruct (binv_done HI r) as (Ha & Hc & q & Hq & Hq1 & Hq2); [lia|].
      specialize (Hcnt1 r). specialize (Hcnt2 r).
      rewrite (decide_False (P := Ref k = Ref r)) in Hcnt1, Hcnt2 by congruence.
      split_and!.
      * unfold attempts in *. simpl. rewrite decide_False by done. lia.
      * lia.
      * exists q. split_and!; [|by intros ?%Hsubl..].
        rewrite Hoth2, Hoth1; [done| |].
        -- intros [= Ht Hday]. apply Hq2. rewrite Hav, Hday, Ht.
           destruct p; apply elem_of_snoc.
        -- intros [= Ht Hday]. apply Hq1. rewrite Hav.
           replace q with p by (destruct p, q; simpl in *; f_equal; lia).
           apply elem_of_snoc.
  - repeat (constructor; [done|]). apply HI.
Qed.

Lemma basic_forEachFrom_spec l i st :
  LoopInv i st →
  match forEachFrom (Basic.scheduleSubject this) i l st with
  | Done _ st' => LoopInv (i + length l) st'
  | Threw e st' => e = NotEnoughPositions
  end.
Proof.
  revert i st. induction l as [|s l IH]; intros i st HI; simpl.
  - by rewrite Nat.add_0_r.
  - destruct (decide (length (available st) < 2)) as [Hlt|Hge].
    + by rewrite (bind_Threw _ _ _ _ _ (basic_scheduleSubject_few this s i st Hlt)).
    + destruct (basic_scheduleSubject_spec s i st HI) as (st1 & Heq & HI1); [lia|].
      rewrite (bind_Done _ _ _ _ _ Heq).
      specialize (IH (i + 1) st1 HI1).
      by replace (i + S (length l)) with (i + 1 + length l) by lia.
Qed.

Lemma basic_initial_Inv rnd :
  LoopInv 0 (Basic.initial rnd this startIndex).
Proof.
  constructor; simpl.
  - apply emptySchedule_shape.
  - rewrite shuffleArray_Permutation. apply positionsFrom_NoDup.
  - intros p. rewrite shuffleArray_Permutation. intros Hp%positionsFrom_elem. lia.
  - intros r _. by rewrite emptySchedule_count.
  - intros r ?. lia.
  - constructor.
Qed.
End basic_loop.

(** ** Properties of src/js/schedule.js and of both variants *)

(** C1, the defect of src/js/schedule.js: with two subjects, start index 0
    and the shuffle that leaves the positions in place, the first subject is
    placed on Friday at slots 3 and 4, then the second subject takes Friday
    slot 2 and its block overwrites slot 3: that write finds the cell
    holding the first subject, which is left with one cell.  The variant of
    src/schedule.js tests the later cell for [null] first
    ([enhanced_never_overwrites]). *)
Theorem basic_overwrites_earlier_subject :
  ∃ st,
    Basic.allocation identityDraws (basicManager [3; 3]%Z) 0 = Done tt st ∧
    (Basic.createScheduleMatrix identityDraws (basicManager [3; 3]%Z) 0).1 =
      Return (schedule st) ∧
    trace st !! 0 = Some (WriteCell 3 4 (Ref 0) 1) ∧
    readCell (schedule st) 3 4 = Some (Ref 1) ∧
    cellCount 0 (schedule st) = 1 ∧ cellCount 1 (schedule st) = 2.
Proof. eexists. split; [vm_compute; reflexivity|]. by vm_compute. Qed.

(** C6: in both variants the candidate positions are exactly the pairs
    [(d, t)] with [d] a week day and [startIndex ≤ t < TimeSlot-count - 1],
    each once; the last time slot never is a candidate.  The shuffle keeps
    that set.  This holds for every start index, in particular for those
    inside the time slots. *)
Theorem candidate_positions (enhanced : Enhanced.ScheduleManager)
    (basic : Basic.ScheduleManager) (startIndex : Z) :
  (∀ p, p ∈ Enhanced.availableSlots enhanced startIndex ↔
        day p < length (Enhanced.weekDays enhanced) ∧
        (startIndex ≤ time p < Z.of_nat (length (Enhanced.timeSlots enhanced)) - 1)%Z) ∧
  (∀ p, p ∈ Basic.availablePositions basic startIndex ↔
        day p < length (Basic.weekDays basic) ∧
        (startIndex ≤ time p < Z.of_nat (length (Basic.timeSlots basic)) - 1)%Z) ∧
  NoDup (Enhanced.availableSlots enhanced startIndex) ∧
  NoDup (Basic.availablePositions basic startIndex) ∧
  (∀ d, mkPosition d (Z.of_nat (length (Enhanced.timeSlots enhanced)) - 1)
          ∉ Enhanced.availableSlots enhanced startIndex) ∧
  (∀ d, mkPosition d (Z.of_nat (length (Basic.timeSlots basic)) - 1)
          ∉ Basic.availablePositions basic startIndex) ∧
  (∀ rnd, available (Enhanced.initial rnd enhanced startIndex) ≡ₚ
          Enhanced.availableSlots enhanced startIndex) ∧
  (∀ rnd, available (Basic.initial rnd basic startIndex) ≡ₚ
          Basic.availablePositions basic startIndex).
Proof.
  split_and!.
  - intros p. apply positionsFrom_elem.
  - intros p. apply positionsFrom_elem.
  - apply positionsFrom_NoDup.
  - apply positionsFrom_NoDup.
  - intros d Hin%positionsFrom_elem. simpl in Hin. lia.
  - intros d Hin%positionsFrom_elem. simpl in Hin. lia.
  - intros rnd. apply shuffleArray_Permutation.
  - intros rnd. apply shuffleArray_Permutation.
Qed.

Lemma basic_forEachFrom_ext this1 this2 l1 l2 i st :
  Basic.timeSlots this1 = Basic.timeSlots this2 →
  length l1 = length l2 →
  forEachFrom (Basic.scheduleSubject this1) i l1 st =
  forEachFrom (Basic.scheduleSubject this2) i l2 st.
Proof.
  intros Hslots. revert l2 i st.
  induction l1 as [|s1 l1 IH]; intros [|s2 l2] i st Hlen; simplify_eq/=; [done|].
  assert (Basic.scheduleSubject this1 s1 i = Basic.scheduleSubject this2 s2 i) as ->.
  { unfold Basic.scheduleSubject. by rewrite Hslots. }
  destruct (Basic.scheduleSubject this2 s2 i st) as [[] st1|e st1] eqn:Hs.
  - rewrite !(bind_Done _ _ _ _ _ Hs). by apply IH.
  - by rewrite !(bind_Threw _ _ _ _ _ Hs).
Qed.

(** ** Concrete runs *)

(** C2 as stated fails: three subjects of 1 credit need a capacity of 3, the
    start index 7 leaves 5 candidate positions, and the upfront check
    rejects the call all the same, asking for 6. *)
Lemma capacity_check_is_stricter :
  (requiredCapacity (Enhanced.subjects (enhancedManager [1; 1; 1]%Z)) ≤
   Z.of_nat (length (Enhanced.availableSlots (enhancedManager [1; 1; 1]%Z) 7)))%Z ∧
  (Enhanced.createScheduleMatrix identityDraws (enhancedManager [1; 1; 1]%Z) 7).1 =
    Throw (InsufficientSlots 6 5).
Proof. split; [by vm_compute|reflexivity]. Qed.

(** C3 as stated fails: five subjects of 4 credits and start index 6 are a
    valid input whose 10 candidate positions reach the required capacity
    of 10, and the call returns no grid: the blocks of the first three
    subjects use up the list and the fourth subject gets the error. *)
Lemma enough_capacity_yet_no_grid :
  let this := enhancedManager [4; 4; 4; 4; 4]%Z in
  Enhanced.subjects this ≠ [] ∧
  Forall (λ s, 1 ≤ Enhanced.credits s ≤ 5)%Z (Enhanced.subjects this) ∧
  (0 ≤ 6 < Z.of_nat (length (Enhanced.timeSlots this)))%Z ∧
  (requiredCapacity (Enhanced.subjects this) ≤
   Z.of_nat (length (Enhanced.availableSlots this 6)))%Z ∧
  (Enhanced.createScheduleMatrix identityDraws this 6).1 = Throw (NoSpaceFor "Materia 4").
Proof.
  cbv zeta. split; [done|]. split; [repeat constructor; by vm_compute|].
  split; [by vm_compute|]. split; by vm_compute.
Qed.

(** C4 as stated fails: with three subjects of 4 credits and start index 6
    the call returns a grid although the third subject, which needs two
    placements, was given one: the list ran empty during its turn. *)
Lemma fewer_placements_without_error :
  ∃ st s,
    Enhanced.allocation identityDraws (enhancedManager [4; 4; 4]%Z) 6 = Done tt st ∧
    (Enhanced.createScheduleMatrix identityDraws (enhancedManager [4; 4; 4]%Z) 6).1 =
      Return (schedule st) ∧
    Enhanced.subjects (enhancedManager [4; 4; 4]%Z) !! 2 = Some s ∧
    Enhanced.slotsNeeded s = 2%Z ∧
    attempts 2 (trace st) = 1.
Proof. eexists _, _. split; [vm_compute; reflexivity|]. by vm_compute. Qed.

(** C5 as stated fails: a single subject of 5 credits with all 40 candidate
    positions ends up in four cells, not two. *)
Lemma five_credits_four_cells :
  ∃ g,
    (Enhanced.createScheduleMatrix identityDraws (enhancedManager [5]%Z) 0).1 = Return g ∧
    cellCount 0 g = 4.
Proof. eexists. split; [vm_compute; reflexivity|]. by vm_compute. Qed.

(** The scenario of five subjects with credits 3, 2, 4, 3, 2 from slot 0. *)
Lemma coverage_or_failure_witness :
  (0 ≤ 0)%Z ∧
  ∃ g, (Enhanced.createScheduleMatrix identityDraws
          (enhancedManager [3; 2; 4; 3; 2]%Z) 0).1 = Return g ∧
       ∀ i, i < 5 → ∃ t d, readCell g t d = Some (Ref i).
Proof.
  assert (0 ≤ 0)%Z as H0 by lia. split; [exact H0|].
  destruct (coverage_or_failure identityDraws (enhancedManager [3; 2; 4; 3; 2]%Z) 0 H0)
    as [Hret Hcov].
  destruct Hret as [g Hg]; [by vm_compute|].
  exists g. split; [exact Hg|]. exact (Hcov g Hg).
Defined.

Lemma subject_capacity_error_witness :
  (0 ≤ 6)%Z ∧
  (Enhanced.createScheduleMatrix identityDraws (enhancedManager [4; 4; 4; 4; 4]%Z) 6).1 =
    Throw (NoSpaceFor "Materia 4") ∧
  ∃ pre s post st,
    Enhanced.subjects (enhancedManager [4; 4; 4; 4; 4]%Z) = pre ++ s :: post ∧
    Enhanced.name s = "Materia 4" ∧
    forEach pre (Enhanced.scheduleSubject (enhancedManager [4; 4; 4; 4; 4]%Z))
            (Enhanced.initial identityDraws (enhancedManager [4; 4; 4; 4; 4]%Z) 6) = Done tt st ∧
    available st = [].
Proof.
  assert (0 ≤ 6)%Z as H6 by lia. split; [exact H6|].
  destruct (subject_capacity_error identityDraws (enhancedManager [4; 4; 4; 4; 4]%Z) 6 H6)
    as [Hiff _].
  assert ((Enhanced.createScheduleMatrix identityDraws
             (enhancedManager [4; 4; 4; 4; 4]%Z) 6).1 = Throw (NoSpaceFor "Materia 4"))
    as Hthrow by (by vm_compute).
  split; [exact Hthrow|]. exact (proj2 (proj1 (Hiff "Materia 4") Hthrow)).
Defined.

Lemma single_subject_of_five_credits_witness :
  ∃ s,
    Enhanced.subjects (enhancedManager [5]%Z) = [s] ∧ Enhanced.credits s = 5%Z ∧
    (0 ≤ 7)%Z ∧ 4 ≤ length (Enhanced.availableSlots (enhancedManager [5]%Z) 7) ∧
    ∃ g, (Enhanced.createScheduleMatrix identityDraws (enhancedManager [5]%Z) 7).1 =
           Return g ∧
         (cellCount 0 g = 3 ∨ cellCount 0 g = 4) ∧
         ∃ t d, readCell g t d = Some (Ref 0) ∧ readCell g (t + 1) d = Some (Ref 0).
Proof.
  exists (Enhanced.mkSubject "Materia 1" "Docente" 5 1 1).
  assert (0 ≤ 7)%Z as H7 by lia.
  assert (4 ≤ length (Enhanced.availableSlots (enhancedManager [5]%Z) 7)) as H4
    by (vm_compute; lia).
  split_and!; [reflexivity|reflexivity|exact H7|exact H4|].
  exact (single_subject_of_five_credits identityDraws (enhancedManager [5]%Z) 7 _
           eq_refl eq_refl H7 H4).
Defined.

Lemma slots_before_start_unused_witness :
  ∃ g,
    (Enhanced.createScheduleMatrix identityDraws (enhancedManager [3; 4]%Z) 2).1 = Return g ∧
    inGrid 9 5 1 0 ∧ (1 < 2)%Z ∧ readCell g 1 0 = Some Null.
Proof.
  destruct (Enhanced.createScheduleMatrix identityDraws (enhancedManager [3; 4]%Z) 2).1
    as [g|e] eqn:Hg; [|by vm_compute in Hg].
  assert (inGrid 9 5 1 0) as Hin by (split; lia).
  assert (1 < 2)%Z as Hlt by lia.
  exists g. split_and!; [reflexivity|exact Hin|exact Hlt|].
  exact (slots_before_start_unused identityDraws (enhancedManager [3; 4]%Z) 2 g 1 0 Hg Hin Hlt).
Defined.

(** The store protects nothing by itself: the shuffle applied to
    [this.subjects] instead of the list of positions reorders the subjects
    the caller sees, and a write to a subject object changes its fields. *)
Lemma shared_objects_can_be_written :
  Shared.subjectsOf
    (Shared.memoryAfter
       (Shared.shuffleArray (λ _, 0) 2 (Shared.memoryOf (enhancedManager [3; 4]%Z)))) =
    Some (reverse (Enhanced.subjects (enhancedManager [3; 4]%Z))) ∧
  Shared.subjectsOf
    (Shared.memoryAfter
       (Shared.store 3 (Shared.SubjectObject (Enhanced.mkSubject "Materia 1" "Docente" 0 1 1))
          (Shared.memoryOf (enhancedManager [3; 4]%Z)))) =
    Some [Enhanced.mkSubject "Materia 1" "Docente" 0 1 1;
          Enhanced.mkSubject "Materia 2" "Docente" 4 2 2].
Proof. split; reflexivity. Qed.

Lemma inputs_not_mutated_witness :
  (∃ grid rows,
     Shared.createScheduleMatrix identityDraws 0 (Shared.memoryOf (enhancedManager [3; 4]%Z)) =
       Shared.Value grid
         (Shared.memoryAfter
            (Shared.createScheduleMatrix identityDraws 0
               (Shared.memoryOf (enhancedManager [3; 4]%Z)))) ∧
     Shared.gridAt
       (Shared.memoryAfter
          (Shared.createScheduleMatrix identityDraws 0
             (Shared.memoryOf (enhancedManager [3; 4]%Z)))) grid = Some rows ∧
     rows !! 0 = Some [Ref 3; Null; Null; Null; Null]) ∧
  Shared.subjectsOf (Shared.memoryOf (enhancedManager [3; 4]%Z)) =
    Some (Enhanced.subjects (enhancedManager [3; 4]%Z)) ∧
  Shared.subjectsOf
    (Shared.memoryAfter
       (Shared.createScheduleMatrix identityDraws 0
          (Shared.memoryOf (enhancedManager [3; 4]%Z)))) =
    Some (Enhanced.subjects (enhancedManager [3; 4]%Z)) ∧
  Shared.timeSlotsOf
    (Shared.memoryAfter
       (Shared.createScheduleMatrix identityDraws 0
          (Shared.memoryOf (enhancedManager [3; 4]%Z)))) =
    Some (Enhanced.timeSlots (enhancedManager [3; 4]%Z)) ∧
  Shared.weekDaysOf
    (Shared.memoryAfter
       (Shared.createScheduleMatrix identityDraws 0
          (Shared.memoryOf (enhancedManager [3; 4]%Z)))) =
    Some (Enhanced.weekDays (enhancedManager [3; 4]%Z)).
Proof.
  assert (Shared.subjectsOf (Shared.memoryOf (enhancedManager [3; 4]%Z)) =
            Some (Enhanced.subjects (enhancedManager [3; 4]%Z))) as Hsubjects
    by reflexivity.
  split.
  { eexists _, _. split_and!; [by vm_compute|by vm_compute|reflexivity]. }
  split; [exact Hsubjects|].
  destruct (inputs_not_mutated identityDraws 0 (Shared.memoryOf (enhancedManager [3; 4]%Z))
              _ _ _ Hsubjects eq_refl eq_refl) as (Hs & Ht & Hw & _).
  split; [exact Hs|]. split; [exact Ht|exact Hw].
Defined.

Lemma grid_accesses_in_bounds_witness :
  (0 ≤ 6)%Z ∧
  Forall (accessInGrid 9 5)
         (trace (finalLocals (Enhanced.allocation identityDraws
                                (enhancedManager [4; 4; 4; 4; 4]%Z) 6))) ∧
  (Enhanced.createScheduleMatrix identityDraws (enhancedManager [4; 4; 4; 4; 4]%Z) 6).1 ≠
    Throw TypeError.
Proof.
  assert (0 ≤ 6)%Z as H6 by lia. split; [exact H6|].
  exact (grid_accesses_in_bounds identityDraws (enhancedManager [4; 4; 4; 4; 4]%Z) 6 H6).
Defined.

(** * Further properties of the code *)

(** ** shuffleArray *)

(** Whatever the draws, [shuffleArray] only reorders: the result holds the
    same elements with the same multiplicities, so it has the same length,
    the same members, and no duplicates the input had not. *)
Theorem shuffleArray_reorders {A} (rnd : Random) (array : list A) :
  shuffleArray rnd array ≡ₚ array ∧
  length (shuffleArray rnd array) = length array ∧
  (∀ x, x ∈ shuffleArray rnd array ↔ x ∈ array) ∧
  (NoDup (shuffleArray rnd array) ↔ NoDup array).
Proof.
  pose proof (shuffleArray_Permutation rnd array) as Hperm.
  split_and!; [done|by apply Permutation_length|by intros x; rewrite Hperm|by rewrite Hperm].
Qed.

(** ** src/schedule.js: what the claims leave out *)

Lemma slotsNeeded_le_2 s :
  (Enhanced.credits s ≤ 5)%Z → (Enhanced.slotsNeeded s ≤ 2)%Z.
Proof.
  intros Hc. unfold Enhanced.slotsNeeded.
  assert (Enhanced.credits s / 2 < 3)%Z by (apply Z.div_lt_upper_bound; lia). lia.
Qed.

Lemma requiredCapacity_le subjects :
  (∀ s, s ∈ subjects → (Enhanced.credits s ≤ 5)%Z) →
  (requiredCapacity subjects ≤ 2 * Z.of_nat (length subjects))%Z.
Proof.
  induction subjects as [|s l IH]; intros Hc; simpl; [lia|].
  pose proof (slotsNeeded_le_2 s (Hc s ltac:(left))).
  assert (requiredCapacity l ≤ 2 * Z.of_nat (length l))%Z.
  { apply IH. intros s' ?. apply Hc. by right. }
  lia.
Qed.

(** With subjects of at most 5 credits (what [proceedToSchedule] lets
    through) the upfront check is at least as strict as the required
    capacity: when the candidate positions are fewer than the sum of
    [slotsNeeded], the call fails with the upfront capacity error and leaves
    the manager as it was. *)
Theorem too_few_for_required_is_rejected rnd this startIndex :
  (∀ s, s ∈ Enhanced.subjects this → (Enhanced.credits s ≤ 5)%Z) →
  (Z.of_nat (length (Enhanced.availableSlots this startIndex)) <
   requiredCapacity (Enhanced.subjects this))%Z →
  Enhanced.createScheduleMatrix rnd this startIndex =
    (Throw (InsufficientSlots (length (Enhanced.subjects this) * 2)
                              (length (Enhanced.availableSlots this startIndex))), this).
Proof.
  intros Hcredits Hfew. pose proof (requiredCapacity_le _ Hcredits) as Hle.
  unfold Enhanced.createScheduleMatrix. rewrite allocation_unfold.
  by rewrite decide_True by lia.
Qed.

(** The candidate positions are [days * (slots - 1 - startIndex)] many, none
    when the start index is the last time slot or beyond: then every
    non-empty subject list is rejected by the upfront check, and the empty
    one gets the grid of [null] cells. *)
Theorem start_at_last_slot rnd this startIndex :
  (Z.of_nat (length (Enhanced.timeSlots this)) - 1 ≤ startIndex)%Z →
  length (Enhanced.availableSlots this startIndex) = 0 ∧
  (Enhanced.subjects this ≠ [] →
   Enhanced.createScheduleMatrix rnd this startIndex =
     (Throw (InsufficientSlots (length (Enhanced.subjects this) * 2) 0), this)) ∧
  (Enhanced.subjects this = [] →
   (Enhanced.createScheduleMatrix rnd this startIndex).1 =
     Return (replicate (length (Enhanced.timeSlots this))
                       (replicate (length (Enhanced.weekDays this)) Null))).
Proof.
  intros Hlast.
  assert (length (Enhanced.availableSlots this startIndex) = 0) as Hnone.
  { unfold Enhanced.availableSlots. rewrite positionsFrom_length. lia. }
  split_and!; [done| |].
  - intros Hne. unfold Enhanced.createScheduleMatrix. rewrite allocation_unfold.
    rewrite Hnone, decide_True; [done|].
    destruct (Enhanced.subjects this); [done|simpl; lia].
  - intros Hnil. unfold Enhanced.createScheduleMatrix. rewrite allocation_unfold.
    rewrite Hnil, Hnone. simpl. by rewrite emptySchedule_eq.
Qed.

Section enhanced_cells.
Context (this : Enhanced.ScheduleManager) (startIndex : Z).
Context (Hstart : (0 ≤ startIndex)%Z).

Local Abbreviation LoopInv :=
  (Inv (length (Enhanced.timeSlots this)) (length (Enhanced.weekDays this)) startIndex).

(** The cells a subject holds after the loop: at least one per position it
    took, at most two. *)
Lemma forEachFrom_counts l i st st' :
  LoopInv st →
  forEachFrom (Enhanced.scheduleSubject this) i l st = Done tt st' →
  ∀ j s, l !! j = Some s →
    ∃ k, 1 ≤ k ≤ Z.to_nat (Enhanced.slotsNeeded s) ∧
         cellCount (i + j) (schedule st) + k ≤ cellCount (i + j) (schedule st') ≤
         cellCount (i + j) (schedule st) + 2 * k.
Proof.
  revert i st. induction l as [|s l IH]; intros i st HI Hrun j s' Hj; [done|].
  simpl in Hrun.
  destruct (decide (available st = [])) as [Hav|Hav].
  { by rewrite (bind_Threw _ _ _ _ _ (scheduleSubject_empty this s i st Hav)) in Hrun. }
  destruct (scheduleSubject_spec this startIndex Hstart s i st HI Hav)
    as (st1 & k & Heq & HI1 & HT & Hk & _).
  rewrite (bind_Done _ _ _ _ _ Heq) in Hrun.
  pose proof (forEachFrom_spec this startIndex Hstart l (i + 1) st1 HI1) as Hrest.
  rewrite Hrun in Hrest. destruct Hrest as [_ HR].
  destruct j as [|j]; simplify_eq/=.
  - exists k. rewrite Nat.add_0_r. split; [lia|].
    destruct (ran_frame HR i) as [_ ->]; [lia|].
    pose proof (turn_count HT). lia.
  - destruct (IH (i + 1) st1 HI1 Hrun j s' Hj) as (k' & Hk' & Hcount).
    exists k'. split; [done|].
    replace (i + S j) with (i + 1 + j) by lia.
    rewrite (turn_others HT) in Hcount by lia. done.
Qed.
End enhanced_cells.

(** Every grid the call returns has one row per time slot and one cell per
    week day in each row, refers only to subjects of the input, and is the
    grid the manager then keeps in [currentScheduleData]. *)
Theorem returned_grid_is_well_formed rnd this startIndex g :
  (0 ≤ startIndex)%Z →
  (Enhanced.createScheduleMatrix rnd this startIndex).1 = Return g →
  gridShape (length (Enhanced.timeSlots this)) (length (Enhanced.weekDays this)) g ∧
  (∀ t d r, readCell g t d = Some (Ref r) → r < length (Enhanced.subjects this)) ∧
  Enhanced.currentScheduleData (Enhanced.createScheduleMatrix rnd this startIndex).2 = Some g.
Proof.
  intros Hstart (st & Hrun & <-)%createScheduleMatrix_Return.
  pose proof (allocation_spec this startIndex Hstart rnd) as Hspec.
  unfold Enhanced.createScheduleMatrix. rewrite Hrun in *. simpl.
  destruct Hspec as (HI & HR & _). split_and!; [apply HI| |done].
  intros t d r Hcell. apply cellCount_pos in Hcell.
  destruct (decide (r < length (Enhanced.subjects this))) as [|Hge]; [done|].
  destruct (ran_frame HR r) as [_ Hcount]; [lia|].
  simpl in Hcount. rewrite emptySchedule_count in Hcount. lia.
Qed.

(** In every grid the call returns, a subject holds at least one cell and
    at most twice its [slotsNeeded]: each of its placements takes one cell
    or a block of two. *)
Theorem cells_per_subject rnd this startIndex g i s :
  (0 ≤ startIndex)%Z →
  (Enhanced.createScheduleMatrix rnd this startIndex).1 = Return g →
  Enhanced.subjects this !! i = Some s →
  1 ≤ cellCount i g ≤ 2 * Z.to_nat (Enhanced.slotsNeeded s).
Proof.
  intros Hstart (st & Hrun & <-)%createScheduleMatrix_Return Hs.
  rewrite allocation_unfold in Hrun. destruct (decide _) as [|_]; [done|].
  destruct (forEachFrom_counts this startIndex Hstart _ 0 _ st
              (initial_Inv this startIndex Hstart rnd) Hrun i s Hs) as (k & Hk & Hcount).
  simpl in Hcount. rewrite emptySchedule_count in Hcount. lia.
Qed.

(** ** src/js/schedule.js: what the claims leave out *)

Section basic_cells.
Context (this : Basic.ScheduleManager) (startIndex : Z).
Context (Hstart : (0 ≤ startIndex)%Z).

Local Abbreviation slots := (length (Basic.timeSlots this)).
Local Abbreviation days := (length (Basic.weekDays this)).
Local Abbreviation LoopInv := (BasicInv slots days startIndex).

(** The turn of the subject [k]: the last position of the list is taken,
    its cell and the next one of that day receive the subject, no other
    cell changes and at most two positions leave the list. *)
Lemma basic_turn_writes subject k st :
  LoopInv k st → 2 ≤ length (available st) →
  ∃ st' p,
    Basic.scheduleSubject this subject k st = Done tt st' ∧
    p ∈ available st ∧
    length (available st) ≤ length (available st') + 2 ∧
    readCell (schedule st') (time p) (day p) = Some (Ref k) ∧
    readCell (schedule st') (time p + 1) (day p) = Some (Ref k) ∧
    (∀ t d, (t, d) ≠ (time p, day p) → (t, d) ≠ ((time p + 1)%Z, day p) →
            readCell (schedule st') t d = readCell (schedule st) t d).
Proof.
  intros HI Hlen.
  destruct (snoc_inv (available st)) as (rest & p & Hav).
  { intros Hnil. rewrite Hnil in Hlen. simpl in Hlen. lia. }
  destruct (binv_range HI p) as (Hd & Hlo & Hhi); [rewrite Hav; apply elem_of_snoc|].
  assert (inGrid slots days (time p) (day p)) as Hin1 by (split; [lia|done]).
  assert (inGrid slots days (time p + 1) (day p)) as Hin2 by (split; [lia|done]).
  rewrite (basic_scheduleSubject_unfold _ _ _ _ _ _ Hav Hlen). cbv zeta.
  rewrite decide_True by done.
  match goal with |- context [ (assign ?t ?d ?s ≫= _) ?st0 ] =>
    destruct (assign_in slots days t d s st0)
      as (g1 & old1 & Ha1 & Hold1 & Hsh1 & Hnew1 & Hoth1 & _);
      [apply HI|done|]
  end.
  simpl in Ha1, Hoth1. rewrite (bind_Done _ _ _ _ _ Ha1).
  match goal with |- context [ (assign ?t ?d ?s ≫= _) ?st0 ] =>
    destruct (assign_in slots days t d s st0)
      as (g2 & old2 & Ha2 & Hold2 & Hsh2 & Hnew2 & Hoth2 & _);
      [done|done|]
  end.
  simpl in Ha2, Hoth2. rewrite (bind_Done _ _ _ _ _ Ha2).
  match goal with |- context [ removeSlot ?d ?t ?st0 ] =>
    destruct (removeSlot_spec d t st0) as (l & -> & _ & Hll & _)
  end.
  simpl in Hll. eexists _, p. split; [done|]. simpl. split_and!.
  - rewrite Hav. apply elem_of_snoc.
  - rewrite Hav, length_app. simpl. lia.
  - rewrite Hoth2 by (intros [=]; lia). done.
  - done.
  - intros t d Hne1 Hne2. by rewrite Hoth2, Hoth1.
Qed.

(** The loop ends, normally or with its capacity error, in a state of the
    invariant. *)
Lemma basic_forEachFrom_final l i st :
  LoopInv i st →
  ∃ k, LoopInv k (finalLocals (forEachFrom (Basic.scheduleSubject this) i l st)).
Proof.
  revert i st. induction l as [|s l IH]; intros i st HI; simpl; [by exists i|].
  destruct (decide (length (available st) < 2)) as [Hlt|Hge].
  - rewrite (bind_Threw _ _ _ _ _ (basic_scheduleSubject_few this s i st Hlt)). by exists i.
  - destruct (basic_scheduleSubject_spec this startIndex Hstart s i st HI)
      as (st1 & Heq & HI1); [lia|].
    rewrite (bind_Done _ _ _ _ _ Heq). by apply IH.
Qed.

(** Two positions per subject are always enough. *)
Lemma basic_forEachFrom_enough l i st :
  LoopInv i st → 2 * length l ≤ length (available st) →
  ∃ st', forEachFrom (Basic.scheduleSubject this) i l st = Done tt st'.
Proof.
  revert i st. induction l as [|s l IH]; intros i st HI Hcap; simpl in *; [by eexists|].
  destruct (basic_turn_writes s i st HI) as (st1 & p & Heq & _ & Hshrink & _); [lia|].
  destruct (basic_scheduleSubject_spec this startIndex Hstart s i st HI)
    as (st1' & Heq' & HI1); [lia|].
  rewrite Heq in Heq'. injection Heq' as <-.
  rewrite (bind_Done _ _ _ _ _ Heq). apply IH; [done|lia].
Qed.

(** The subjects served by the loop: it returns after a turn for each of
    them, or throws its capacity error at the first subject that finds
    fewer than two positions in the list. *)
Lemma basic_forEachFrom_served l i st :
  LoopInv i st →
  ∃ k, LoopInv k (finalLocals (forEachFrom (Basic.scheduleSubject this) i l st)) ∧
    match forEachFrom (Basic.scheduleSubject this) i l st with
    | Done _ _ => k = i + length l
    | Threw e st' =>
        e = NotEnoughPositions ∧ i ≤ k < i + length l ∧ length (available st') < 2
    end.
Proof.
  revert i st. induction l as [|s l IH]; intros i st HI; simpl.
  - exists i. split; [done|lia].
  - destruct (decide (length (available st) < 2)) as [Hlt|Hge].
    + rewrite (bind_Threw _ _ _ _ _ (basic_scheduleSubject_few this s i st Hlt)).
      exists i. simpl. split_and!; [done|done|lia|lia|done].
    + destruct (basic_scheduleSubject_spec this startIndex Hstart s i st HI)
        as (st1 & Heq & HI1); [lia|].
      rewrite (bind_Done _ _ _ _ _ Heq).
      destruct (IH (i + 1) st1 HI1) as (k & HIk & Hk). exists k. split; [done|].
      destruct (forEachFrom _ (i + 1) l st1) as [[] st2|e st2]; [lia|].
      destruct Hk as (-> & Hk & Hlen). split_and!; [done|lia|lia|done].
Qed.


Local Abbreviation LoopGrid := (BasicGrid slots days startIndex).

Lemma basic_turn_grid subject k st :
  LoopGrid k st → 2 ≤ length (available st) →
  ∃ st', Basic.scheduleSubject this subject k st = Done tt st' ∧ LoopGrid (k + 1) st'.
Proof.
  intros [HI Hdays Hearly] Hlen.
  destruct (basic_turn_writes subject k st HI Hlen)
    as (st' & p & Heq & Hp & _ & Hcell1 & Hcell2 & Hother).
  destruct (basic_scheduleSubject_spec this startIndex Hstart subject k st HI Hlen)
    as (st1 & Heq' & HI').
  rewrite Heq in Heq'. injection Heq' as <-.
  destruct (binv_range HI p Hp) as (_ & Hlo & _).
  assert (∀ t d, readCell (schedule st) t d ≠ Some (Ref k)) as Hfresh.
  { intros t d Hc%cellCount_pos. destruct (binv_fresh HI k); lia. }
  assert (∀ t d r, readCell (schedule st') t d = Some (Ref r) →
            (r = k ∧ d = day p) ∨ (r ≠ k ∧ readCell (schedule st) t d = Some (Ref r)))
    as Hcases.
  { intros t d r Hr.
    destruct (decide ((t, d) = (time p, day p))) as [[= -> ->]|Hne1].
    { rewrite Hcell1 in Hr. injection Hr as <-. by left. }
    destruct (decide ((t, d) = ((time p + 1)%Z, day p))) as [[= -> ->]|Hne2].
    { rewrite Hcell2 in Hr. injection Hr as <-. by left. }
    rewrite (Hother t d Hne1 Hne2) in Hr. right. split; [|done].
    intros ->. by eapply Hfresh. }
  exists st'. split; [done|]. constructor; [done| |].
  - intros r t1 d1 t2 d2 H1 H2.
    destruct (Hcases _ _ _ H1) as [[-> ->]|[Hne1 H1']],
             (Hcases _ _ _ H2) as [[? ->]|[Hne2 H2']]; try done.
    by eapply Hdays.
  - intros t d Hin Hlt. rewrite Hother by (intros [=]; lia). by apply Hearly.
Qed.

Lemma basic_forEachFrom_grid l i st st' :
  LoopGrid i st →
  forEachFrom (Basic.scheduleSubject this) i l st = Done tt st' →
  LoopGrid (i + length l) st'.
Proof.
  revert i st. induction l as [|s l IH]; intros i st HG Hrun; simpl in *.
  - injection Hrun as <-. by rewrite Nat.add_0_r.
  - destruct (decide (length (available st) < 2)) as [Hlt|Hge].
    { by rewrite (bind_Threw _ _ _ _ _ (basic_scheduleSubject_few this s i st Hlt)) in Hrun. }
    destruct (basic_turn_grid s i st HG) as (st1 & Heq & HG1); [lia|].
    rewrite (bind_Done _ _ _ _ _ Heq) in Hrun.
    replace (i + S (length l)) with (i + 1 + length l) by lia. by eapply IH.
Qed.

Lemma basic_initial_grid rnd : LoopGrid 0 (Basic.initial rnd this startIndex).
Proof.
  constructor.
  - apply basic_initial_Inv.
  - intros r t1 d1 t2 d2 Hc%cellCount_pos _. simpl in Hc.
    rewrite emptySchedule_count in Hc. lia.
  - intros t d Hin _. by apply emptySchedule_read.
Qed.

Lemma basic_allocation_grid rnd st :
  Basic.allocation rnd this startIndex = Done tt st →
  LoopGrid (length (Basic.subjects this)) st.
Proof.
  intros Hrun. by apply (basic_forEachFrom_grid _ 0 _ _ (basic_initial_grid rnd)).
Qed.
End basic_cells.

Lemma basic_createScheduleMatrix_Return rnd this startIndex g :
  (Basic.createScheduleMatrix rnd this startIndex).1 = Return g ↔
  ∃ st, Basic.allocation rnd this startIndex = Done tt st ∧ schedule st = g.
Proof.
  unfold Basic.createScheduleMatrix.
  destruct (Basic.allocation rnd this startIndex) as [[] st|e st]; simpl.
  - split; [intros [= <-]; eauto|]. by intros (st' & [= <-] & <-).
  - split; [done|]. by intros (st' & [=] & _).
Qed.

Lemma basic_createScheduleMatrix_Throw rnd this startIndex e :
  (Basic.createScheduleMatrix rnd this startIndex).1 = Throw e ↔
  ∃ st, Basic.allocation rnd this startIndex = Threw e st.
Proof.
  unfold Basic.createScheduleMatrix.
  destruct (Basic.allocation rnd this startIndex) as [[] st|e' st]; simpl.
  - split; [done|]. by intros (st' & [=]).
  - split; [intros [= <-]; eauto|]. by intros (st' & [= <- _]).
Qed.

(** C10: in src/js/schedule.js the credits are never read.  Two managers
    whose subject lists differ only in the credits run the same allocation
    under the same shuffle: same accesses, same grid, same remaining
    positions, same completion.  For a start index that is not negative,
    two candidate positions per subject make the allocation complete, and
    every run, completed or not, has served the subjects before some index:
    all of them when it completes, fewer when it throws, which it does only
    with its capacity error and fewer than two positions left.  Exactly one
    position was taken for every subject served, which holds one or two
    cells of the grid; no position was taken and no cell written for the
    others. *)
Theorem basic_ignores_credits rnd this1 this2 startIndex :
  Basic.timeSlots this1 = Basic.timeSlots this2 →
  Basic.weekDays this1 = Basic.weekDays this2 →
  Forall2 sameButCredits (Basic.subjects this1) (Basic.subjects this2) →
  Basic.allocation rnd this1 startIndex = Basic.allocation rnd this2 startIndex ∧
  (Basic.createScheduleMatrix rnd this1 startIndex).1 =
    (Basic.createScheduleMatrix rnd this2 startIndex).1 ∧
  ((0 ≤ startIndex)%Z →
   (2 * length (Basic.subjects this1) ≤ length (Basic.availablePositions this1 startIndex) →
    ∃ st, Basic.allocation rnd this1 startIndex = Done tt st) ∧
   ∃ served,
     match Basic.allocation rnd this1 startIndex with
     | Done _ _ => served = length (Basic.subjects this1)
     | Threw e st =>
         e = NotEnoughPositions ∧ served < length (Basic.subjects this1) ∧
         length (available st) < 2
     end ∧
     (∀ i, i < served →
        attempts i (trace (finalLocals (Basic.allocation rnd this1 startIndex))) = 1 ∧
        1 ≤ cellCount i (schedule (finalLocals (Basic.allocation rnd this1 startIndex))) ≤ 2) ∧
     (∀ i, served ≤ i →
        attempts i (trace (finalLocals (Basic.allocation rnd this1 startIndex))) = 0 ∧
        cellCount i (schedule (finalLocals (Basic.allocation rnd this1 startIndex))) = 0)).
Proof.
  intros Hslots Hdays Hsubjects.
  assert (Basic.allocation rnd this1 startIndex = Basic.allocation rnd this2 startIndex)
    as Hsame.
  { unfold Basic.allocation, Basic.initial, Basic.availablePositions, forEach.
    rewrite Hslots, Hdays.
    apply basic_forEachFrom_ext; [done|]. by eapply Forall2_length. }
  split_and!; [done| |].
  - unfold Basic.createScheduleMatrix. rewrite Hsame.
    by destruct (Basic.allocation rnd this2 startIndex).
  - intros Hstart. split.
    + intros Hcap. unfold Basic.allocation, forEach.
      apply (basic_forEachFrom_enough this1 startIndex Hstart);
        [apply basic_initial_Inv|].
      simpl. by rewrite shuffleArray_length.
    + destruct (basic_forEachFrom_served this1 startIndex Hstart (Basic.subjects this1) 0 _
                  (basic_initial_Inv this1 startIndex rnd)) as (served & HI & Hserved).
      fold (forEach (Basic.subjects this1) (Basic.scheduleSubject this1)
              (Basic.initial rnd this1 startIndex)) in HI, Hserved.
      fold (Basic.allocation rnd this1 startIndex) in HI, Hserved.
      exists served. split_and!.
      * destruct (Basic.allocation rnd this1 startIndex) as [[] st|e st]; [done|].
        destruct Hserved as (-> & Hk & Hlen). split_and!; [done|lia|done].
      * intros i Hi. destruct (binv_done HI i Hi) as (Hatt & Hle & p & Hcell & _).
        apply cellCount_pos in Hcell. lia.
      * intros i Hi. destruct (binv_fresh HI i Hi) as [Hcount Hatt]. done.
Qed.

(** For a start index that is not negative, every read and write of the
    grid that src/js/schedule.js makes stays inside the grid, whether the
    call returns or throws, and the only exception it can raise is its own
    capacity error. *)
Theorem basic_accesses_in_bounds rnd this startIndex :
  (0 ≤ startIndex)%Z →
  Forall (accessInGrid (length (Basic.timeSlots this)) (length (Basic.weekDays this)))
         (trace (finalLocals (Basic.allocation rnd this startIndex))) ∧
  (∀ e, (Basic.createScheduleMatrix rnd this startIndex).1 = Throw e →
        e = NotEnoughPositions).
Proof.
  intros Hstart. split.
  - destruct (basic_forEachFrom_final this startIndex Hstart (Basic.subjects this) 0 _
                (basic_initial_Inv this startIndex rnd)) as [k HI].
    apply (binv_trace HI).
  - intros e (st & Hrun)%basic_createScheduleMatrix_Throw.
    pose proof (basic_forEachFrom_spec this startIndex Hstart (Basic.subjects this) 0 _
                  (basic_initial_Inv this startIndex rnd)) as Hspec.
    unfold Basic.allocation, forEach in Hrun. by rewrite Hrun in Hspec.
Qed.

(** The capacity src/js/schedule.js needs: with at least two candidate
    positions per subject the call returns a grid; with fewer than two
    candidates in all, as when the start index is the last time slot, every
    non-empty subject list ends in the capacity error and the manager is
    left as it was. *)
Theorem basic_capacity rnd this startIndex :
  (0 ≤ startIndex)%Z →
  (2 * length (Basic.subjects this) ≤ length (Basic.availablePositions this startIndex) →
   ∃ g, Basic.createScheduleMatrix rnd this startIndex =
          (Return g, Basic.mkManager (Basic.timeSlots this) (Basic.weekDays this)
                                     (Basic.subjects this) (Some g))) ∧
  (Basic.subjects this ≠ [] → length (Basic.availablePositions this startIndex) < 2 →
   Basic.createScheduleMatrix rnd this startIndex = (Throw NotEnoughPositions, this)).
Proof.
  intros Hstart. split.
  - intros Hcap.
    destruct (basic_forEachFrom_enough this startIndex Hstart (Basic.subjects this) 0
                (Basic.initial rnd this startIndex) (basic_initial_Inv this startIndex rnd))
      as [st Hst].
    { simpl. by rewrite shuffleArray_length. }
    exists (schedule st). unfold Basic.createScheduleMatrix, Basic.allocation, forEach.
    by rewrite Hst.
  - intros Hne Hfew. unfold Basic.createScheduleMatrix, Basic.allocation, forEach.
    assert (length (available (Basic.initial rnd this startIndex)) < 2) as Hlt.
    { simpl. by rewrite shuffleArray_length. }
    destruct (Basic.subjects this) as [|s l]; [done|]. simpl.
    by rewrite (bind_Threw _ _ _ _ _ (basic_scheduleSubject_few this s 0 _ Hlt)).
Qed.

(** The layout of every grid src/js/schedule.js returns: one row per time
    slot with one cell per week day, references only to subjects of the
    input, every subject on a single week day, and nothing in the slots
    before the start index. *)
Theorem basic_grid_layout rnd this startIndex g :
  (0 ≤ startIndex)%Z →
  (Basic.createScheduleMatrix rnd this startIndex).1 = Return g →
  gridShape (length (Basic.timeSlots this)) (length (Basic.weekDays this)) g ∧
  (∀ t d r, readCell g t d = Some (Ref r) → r < length (Basic.subjects this)) ∧
  onOneDay g ∧
  (∀ t d, inGrid (length (Basic.timeSlots this)) (length (Basic.weekDays this)) t d →
          (t < startIndex)%Z → readCell g t d = Some Null).
Proof.
  intros Hstart (st & Hrun & <-)%basic_createScheduleMatrix_Return.
  pose proof (basic_allocation_grid this startIndex Hstart rnd st Hrun) as [HI Hdays Hearly].
  split_and!; [apply HI| |done|done].
  intros t d r Hcell%cellCount_pos.
  destruct (decide (r < length (Basic.subjects this))) as [|Hge]; [done|].
  destruct (binv_fresh HI r); lia.
Qed.

(** ** detectConflicts *)

Lemma elem_of_imap_pair {A} (l : list A) i x : (i, x) ∈ imap pair l ↔ l !! i = Some x.
Proof.
  rewrite elem_of_lookup_imap. split.
  - by intros (j & y & [= -> ->] & Hy).
  - intros Hx. by exists i, x.
Qed.

(** The conflicts reported: one for every time slot, every day whose cell
    holds a subject and every other day of that slot whose cell holds a
    subject of the same professor. *)
Lemma detectConflicts_elem this g c :
  c ∈ Basic.detectConflicts this g ↔
  ∃ timeIndex row dayIndex cell otherDay otherCell subject otherSubject,
    g !! timeIndex = Some row ∧
    row !! dayIndex = Some cell ∧ row !! otherDay = Some otherCell ∧
    otherDay ≠ dayIndex ∧
    Basic.deref this cell = Some subject ∧
    Basic.deref this otherCell = Some otherSubject ∧
    Basic.professor otherSubject = Basic.professor subject ∧
    c = Basic.mkConflict (Basic.timeSlots this !! timeIndex) (Basic.professor subject)
                         (Basic.name subject, Basic.name otherSubject).
Proof.
  unfold Basic.detectConflicts. rewrite list_elem_of_bind. split.
  - intros ([timeIndex row] & Hin & Hrow%elem_of_imap_pair).
    apply list_elem_of_bind in Hin as ([dayIndex cell] & Hin & Hcell%elem_of_imap_pair).
    destruct (Basic.deref this cell) as [subject|] eqn:Hsubject; [|by apply elem_of_nil in Hin].
    apply list_elem_of_bind in Hin as ([otherDay otherCell] & Hin & Hother%elem_of_imap_pair).
    destruct (decide (otherDay ≠ dayIndex)) as [Hne|]; [|by apply elem_of_nil in Hin].
    destruct (Basic.deref this otherCell) as [otherSubject|] eqn:Hos;
      [|by apply elem_of_nil in Hin].
    destruct (decide (Basic.professor otherSubject = Basic.professor subject)) as [Hprof|];
      [|by apply elem_of_nil in Hin].
    apply list_elem_of_singleton in Hin as ->.
    by exists timeIndex, row, dayIndex, cell, otherDay, otherCell, subject, otherSubject.
  - intros (timeIndex & row & dayIndex & cell & otherDay & otherCell & subject &
            otherSubject & Hrow & Hcell & Hother & Hne & Hsubject & Hos & Hprof & ->).
    exists (timeIndex, row). split; [|by apply elem_of_imap_pair].
    apply list_elem_of_bind. exists (dayIndex, cell). split; [|by apply elem_of_imap_pair].
    rewrite Hsubject. apply list_elem_of_bind. exists (otherDay, otherCell).
    split; [|by apply elem_of_imap_pair].
    rewrite decide_True by done. rewrite Hos, decide_True by done.
    by apply list_elem_of_singleton.
Qed.

Lemma readCell_lookup (g : Schedule) timeIndex row dayIndex cell :
  g !! timeIndex = Some row → row !! dayIndex = Some cell →
  readCell g (Z.of_nat timeIndex) dayIndex = Some cell.
Proof.
  intros Hrow Hcell. unfold readCell, JS.get.
  rewrite decide_True by lia. rewrite Nat2Z.id, Hrow. simpl. by rewrite Hcell.
Qed.

Lemma deref_Some this cell subject :
  Basic.deref this cell = Some subject ↔
  ∃ r, cell = Ref r ∧ Basic.subjects this !! r = Some subject.
Proof.
  destruct cell as [| |r]; simpl; [by split; [|intros (? & ? & ?)]..|].
  split; [by exists r|]. by intros (r' & [= <-] & ?).
Qed.

(** [detectConflicts] finds nothing exactly when no time slot has two
    different days whose cells hold subjects of the same professor, and it
    reports every conflict from both sides: with the names of the two
    subjects in either order. *)
Theorem detectConflicts_reports this g :
  (Basic.detectConflicts this g = [] ↔
   ∀ timeIndex row dayIndex otherDay r r' subject otherSubject,
     g !! timeIndex = Some row → dayIndex ≠ otherDay →
     row !! dayIndex = Some (Ref r) → row !! otherDay = Some (Ref r') →
     Basic.subjects this !! r = Some subject →
     Basic.subjects this !! r' = Some otherSubject →
     Basic.professor subject ≠ Basic.professor otherSubject) ∧
  (∀ t p n1 n2,
     Basic.mkConflict t p (n1, n2) ∈ Basic.detectConflicts this g →
     Basic.mkConflict t p (n2, n1) ∈ Basic.detectConflicts this g).
Proof.
  split.
  - split.
    + intros Hnil timeIndex row dayIndex otherDay r r' subject otherSubject
             Hrow Hne Hcell Hother Hs Hos Hprof.
      assert (Basic.mkConflict (Basic.timeSlots this !! timeIndex) (Basic.professor subject)
                (Basic.name subject, Basic.name otherSubject) ∈ Basic.detectConflicts this g)
        as Hin.
      { apply detectConflicts_elem.
        exists timeIndex, row, dayIndex, (Ref r), otherDay, (Ref r'), subject, otherSubject.
        by split_and!. }
      rewrite Hnil in Hin. by apply elem_of_nil in Hin.
    + intros Hfree. apply elem_of_nil_inv. intros c Hc.
      apply detectConflicts_elem in Hc
        as (timeIndex & row & dayIndex & cell & otherDay & otherCell & subject &
            otherSubject & Hrow & Hcell & Hother & Hne & Hsubject & Hos & Hprof & _).
      apply deref_Some in Hsubject as (r & -> & Hs).
      apply deref_Some in Hos as (r' & -> & Hs').
      by eapply (Hfree timeIndex row dayIndex otherDay r r' subject otherSubject).
  - intros t p n1 n2 Hc.
    apply detectConflicts_elem in Hc
      as (timeIndex & row & dayIndex & cell & otherDay & otherCell & subject &
          otherSubject & Hrow & Hcell & Hother & Hne & Hsubject & Hos & Hprof & [= -> -> -> ->]).
    apply detectConflicts_elem.
    exists timeIndex, row, otherDay, otherCell, dayIndex, cell, otherSubject, subject.
    split_and!; try done. by rewrite Hprof.
Qed.

(** A subject that holds the cells of two different days in one time slot is
    reported as in conflict with itself: the loop compares professors and
    does not tell a subject from itself. *)
Theorem detectConflicts_same_subject this g timeIndex row dayIndex otherDay r subject :
  g !! timeIndex = Some row → dayIndex ≠ otherDay →
  row !! dayIndex = Some (Ref r) → row !! otherDay = Some (Ref r) →
  Basic.subjects this !! r = Some subject →
  Basic.mkConflict (Basic.timeSlots this !! timeIndex) (Basic.professor subject)
                   (Basic.name subject, Basic.name subject)
    ∈ Basic.detectConflicts this g.
Proof.
  intros Hrow Hne Hcell Hother Hs. apply detectConflicts_elem.
  exists timeIndex, row, dayIndex, (Ref r), otherDay, (Ref r), subject, subject.
  by split_and!.
Qed.

(** On the grids src/js/schedule.js itself returns, when no two subjects of
    the input share a professor, [detectConflicts] finds nothing: a subject
    keeps to one day, so a time slot never holds it twice. *)
Theorem detectConflicts_of_generated rnd this startIndex g :
  (0 ≤ startIndex)%Z →
  (∀ i j s1 s2, Basic.subjects this !! i = Some s1 → Basic.subjects this !! j = Some s2 →
                Basic.professor s1 = Basic.professor s2 → i = j) →
  (Basic.createScheduleMatrix rnd this startIndex).1 = Return g →
  Basic.detectConflicts this g = [].
Proof.
  intros Hstart Hdistinct (st & Hrun & <-)%basic_createScheduleMatrix_Return.
  pose proof (bgrid_days (basic_allocation_grid this startIndex Hstart rnd st Hrun)) as Hdays.
  apply elem_of_nil_inv. intros c Hc.
  apply detectConflicts_elem in Hc
    as (timeIndex & row & dayIndex & cell & otherDay & otherCell & subject &
        otherSubject & Hrow & Hcell & Hother & Hne & Hsubject & Hos & Hprof & _).
  apply deref_Some in Hsubject as (r & -> & Hs).
  apply deref_Some in Hos as (r' & -> & Hs').
  assert (r' = r) as -> by by eapply Hdistinct.
  apply Hne. eapply Hdays; by eapply readCell_lookup.
Qed.

(** ** generateSchedule and its timer *)

Lemma findIndex_lt {A} (f : A → bool) (l : list A) i :
  JS.findIndex f l = Some i → i < length l.
Proof.
  intros (x & Hx & _)%findIndex_Some. by eapply lookup_lt_Some.
Qed.

Lemma shown_row (row : list Cell) days :
  length row = days →
  (λ dayIndex, shownCell (default Undefined (row !! dayIndex))) <$> seq 0 days =
  shownCell <$> row.
Proof.
  intros Hlen. apply list_eq. intros d. rewrite !list_lookup_fmap.
  destruct (decide (d < days)) as [Hd|Hd].
  - rewrite lookup_seq_lt by done. simpl.
    destruct (lookup_lt_is_Some_2 row d) as [c Hc]; [lia|]. by rewrite Hc.
  - rewrite lookup_seq_ge by lia. by rewrite (lookup_ge_None_2 row d) by lia.
Qed.

(** On a grid of the right shape [displaySchedule] reads every cell inside
    the grid and shows each as it is. *)
Lemma tableRows_shape slots days g :
  gridShape slots days g → tableRows slots days g = Some (shownGrid g).
Proof.
  intros [Hlen Hrows]. unfold tableRows, shownGrid. apply mapM_Some_2.
  apply Forall2_same_length_lookup_2.
  { by rewrite length_seq, length_fmap. }
  intros t timeIndex shown Ht Hshown.
  apply lookup_seq in Ht as [-> _]. simpl.
  rewrite list_lookup_fmap in Hshown.
  destruct (g !! t) as [row|] eqn:Hrow; simplify_eq/=.
  f_equal. apply shown_row. by eapply (proj1 (Forall_lookup _ _) Hrows).
Qed.

Lemma readCell_Some_lookup (g : Schedule) t d r :
  readCell g t d = Some (Ref r) →
  ∃ row, g !! Z.to_nat t = Some row ∧ row !! d = Some (Ref r).
Proof.
  unfold readCell, JS.get. destruct (decide (0 ≤ t)%Z); [|done].
  destruct (g !! Z.to_nat t) as [row|]; [|done]. simpl.
  destruct (row !! d) as [c|] eqn:Hc; [|done]. simpl. intros [= ->]. by exists row.
Qed.

Lemma shown_in_table (g : Schedule) t d r :
  readCell g t d = Some (Ref r) →
  ∃ shown, shown ∈ shownGrid g ∧ Some r ∈ shown.
Proof.
  intros (row & Hrow & Hcell)%readCell_Some_lookup.
  exists (shownCell <$> row). unfold shownGrid. split.
  - apply list_elem_of_fmap. exists row. split; [done|]. by eapply list_elem_of_lookup_2.
  - apply list_elem_of_fmap. exists (Ref r). split; [done|]. by eapply list_elem_of_lookup_2.
Qed.

(** When [generateSchedule] of src/schedule.js arms its timer, there are
    subjects to place and the start index handed to the allocator is an
    index into the time slots: that of the first slot whose label starts
    with the chosen hour. *)
Theorem generateSchedule_arms_valid_index this horaInicio startIndex :
  Enhanced.generateSchedule this horaInicio = Armed startIndex →
  Enhanced.subjects this ≠ [] ∧
  startIndex < length (Enhanced.timeSlots this) ∧
  ∃ startTime slot,
    horaInicio = Some startTime ∧
    Enhanced.timeSlots this !! startIndex = Some slot ∧
    String.prefix startTime slot = true ∧
    ∀ j earlier, j < startIndex → Enhanced.timeSlots this !! j = Some earlier →
                 String.prefix startTime earlier = false.
Proof.
  unfold Enhanced.generateSchedule. destruct (decide _) as [|Hne]; [done|].
  destruct horaInicio as [startTime|]; [|done].
  destruct (JS.findIndex _ _) as [i|] eqn:Hfind; [|done]. intros [= ->].
  pose proof (findIndex_lt _ _ _ Hfind) as Hlt.
  apply findIndex_Some in Hfind as (slot & Hslot & Hprefix & Hfirst).
  split_and!; [|done|by exists startTime, slot].
  intros Hnil. by rewrite Hnil in Hne.
Qed.

(** How the timer callback of src/schedule.js can end, for every start
    index [generateSchedule] may arm it with.  It never meets the TypeError
    of an access outside the grid.  When the allocator throws, the manager is
    left as it was.  When the table is displayed, it shows the grid now kept
    in [currentScheduleData] cell by cell, and every subject is in it.  When
    the preview container is missing the run counts as failed although the
    grid has already been stored in [currentScheduleData]. *)
Theorem generateScheduleTimer_outcomes rnd this startIndex schedulePreview :
  let shown := (Enhanced.generateScheduleTimer rnd this startIndex schedulePreview).1 in
  let this' := (Enhanced.generateScheduleTimer rnd this startIndex schedulePreview).2 in
  shown ≠ GenerationError TypeError ∧
  (∀ e, shown = GenerationError e → this' = this) ∧
  (∀ table, shown = Displayed table →
     schedulePreview = true ∧
     ∃ g, Enhanced.currentScheduleData this' = Some g ∧
          table = shownGrid g ∧
          ∀ i, i < length (Enhanced.subjects this) →
               ∃ row, row ∈ table ∧ Some i ∈ row) ∧
  (shown = DisplayFailed →
     schedulePreview = false ∧
     ∃ g, (Enhanced.createScheduleMatrix rnd this (Z.of_nat startIndex)).1 = Return g ∧
          Enhanced.currentScheduleData this' = Some g).
Proof.
  assert (0 ≤ Z.of_nat startIndex)%Z as Hstart by lia.
  pose proof (allocation_spec this (Z.of_nat startIndex) Hstart rnd) as Hspec.
  unfold Enhanced.generateScheduleTimer, Enhanced.createScheduleMatrix,
    Enhanced.displaySchedule.
  destruct (Enhanced.allocation rnd this (Z.of_nat startIndex)) as [[] st|e st]; simpl.
  - destruct Hspec as (HI & HR & _).
    destruct schedulePreview; simpl.
    + rewrite (tableRows_shape _ _ _ (inv_shape HI)). simpl.
      split_and!; [done|done| |done].
      intros table [= <-]. split; [done|]. exists (schedule st). split_and!; [done..|].
      intros i Hi. destruct (lookup_lt_is_Some_2 _ _ Hi) as [s Hs].
      destruct (ran_each HR i s Hs) as (_ & _ & _ & _ & t & d & Hcell).
      by eapply shown_in_table.
    + split_and!; [done..|]. intros _. split; [done|]. by exists (schedule st).
  - destruct Hspec as [_ Hne]. split_and!; [|done..]. by intros [= ->].
Qed.

(** [generateSchedule] of src/js/schedule.js and its timer.  Without the
    toast container the call shows neither of its two toasts: it ends in an
    uncaught TypeError or arms the timer, and with no subjects it is the
    TypeError.  When the timer is armed there are subjects, the button
    exists and the start index is an index into the time slots.  The timer
    then ends with a toast exactly when the toast container exists, and
    with an uncaught TypeError otherwise.  In either case it fails in the
    allocator only with the capacity error, leaving the manager as it was;
    a displayed table shows the grid now kept in [currentScheduleData],
    with every subject in it; and when the preview container or the save
    button is missing the run counts as failed although the grid has been
    stored. *)
Theorem basic_generateSchedule_outcomes rnd this horaInicio generateBtn toastContainer
    startIndex schedulePreview saveScheduleBtn :
  let started := Basic.generateSchedule this horaInicio generateBtn toastContainer in
  let ended :=
    (Basic.generateScheduleTimer rnd this startIndex schedulePreview saveScheduleBtn
       toastContainer).1 in
  let this' :=
    (Basic.generateScheduleTimer rnd this startIndex schedulePreview saveScheduleBtn
       toastContainer).2 in
  (toastContainer = false →
     (started = Uncaught ∨ ∃ i, started = Armed i) ∧
     (Basic.subjects this = [] → started = Uncaught)) ∧
  (started = Armed startIndex →
     Basic.subjects this ≠ [] ∧ generateBtn = true ∧
     startIndex < length (Basic.timeSlots this) ∧
     ∃ shown,
       ended = (if toastContainer then Basic.Toasted shown else Basic.Escaped shown) ∧
       (∀ e, shown = GenerationError e → e = NotEnoughPositions ∧ this' = this) ∧
       (∀ table, shown = Displayed table →
          schedulePreview = true ∧ saveScheduleBtn = true ∧
          ∃ g, Basic.currentScheduleData this' = Some g ∧ table = shownGrid g ∧
               ∀ i, i < length (Basic.subjects this) → ∃ row, row ∈ table ∧ Some i ∈ row) ∧
       (shown = DisplayFailed →
          (schedulePreview = false ∨ saveScheduleBtn = false) ∧
          ∃ g, (Basic.createScheduleMatrix rnd this (Z.of_nat startIndex)).1 = Return g ∧
               Basic.currentScheduleData this' = Some g)).
Proof.
  cbv zeta. split.
  - intros ->. unfold Basic.generateSchedule, Basic.showToast.
    split.
    + destruct (decide _); [by left|].
      destruct horaInicio as [startTime|]; [|by left].
      destruct (JS.findIndex _ _) as [i|]; [|by left].
      destruct generateBtn; [right; by exists i|by left].
    + intros ->. by rewrite decide_True.
  - intros Harmed. unfold Basic.generateSchedule, Basic.showToast in Harmed.
    destruct (decide _) as [|Hne]; [by destruct toastContainer|].
    destruct horaInicio as [startTime|]; [|done].
    destruct (JS.findIndex _ _) as [i|] eqn:Hfind; [|by destruct toastContainer].
    destruct generateBtn; [|done]. injection Harmed as ->.
    apply findIndex_lt in Hfind.
    assert (0 ≤ Z.of_nat startIndex)%Z as Hstart by lia.
    pose proof (basic_forEachFrom_spec this (Z.of_nat startIndex) Hstart (Basic.subjects this)
                  0 _ (basic_initial_Inv this (Z.of_nat startIndex) rnd)) as Hspec.
    split_and!; [by intros Hnil; rewrite Hnil in Hne|done|done|].
    unfold Basic.generateScheduleTimer, Basic.createScheduleMatrix, Basic.displaySchedule,
      Basic.allocation, forEach, Basic.showToast.
    destruct (forEachFrom _ _ _ _) as [[] st|e st]; simpl in *.
    + rewrite (tableRows_shape _ _ _ (binv_shape Hspec)). simpl.
      destruct schedulePreview, saveScheduleBtn; simpl.
      * exists (Displayed (shownGrid (schedule st))).
        split_and!; [by destruct toastContainer|done| |done].
        intros table [= <-]. split_and!; [done..|].
        exists (schedule st). split_and!; [by destruct toastContainer|done|].
        intros i Hi. destruct (binv_done Hspec i Hi) as (_ & _ & p & Hcell & _).
        by eapply shown_in_table.
      * exists DisplayFailed. split_and!; [by destruct toastContainer|done..|].
        intros _. split; [by right|]. exists (schedule st). by destruct toastContainer.
      * exists DisplayFailed. split_and!; [by destruct toastContainer|done..|].
        intros _. split; [by left|]. exists (schedule st). by destruct toastContainer.
      * exists DisplayFailed. split_and!; [by destruct toastContainer|done..|].
        intros _. split; [by left|]. exists (schedule st). by destruct toastContainer.
    + subst e. exists (GenerationError NotEnoughPositions).
      split_and!; [by destruct toastContainer| |done..].
      intros e' [= <-]. by destruct toastContainer.
Qed.

(** ** Every order can come out of the shuffle *)

Section shuffle_reach.
Context {A : Type}.
Implicit Types (a b c k : list A) (rnd : Random).

Lemma swap_length a i j : length (JS.swap a i j) = length a.
Proof. apply Permutation_length, swap_Permutation. Qed.

Lemma swap_app a k i j :
  i < length a → j < length a → JS.swap (a ++ k) i j = JS.swap a i j ++ k.
Proof.
  intros Hi Hj. unfold JS.swap. rewrite !lookup_app_l by done.
  destruct (a !! i) as [ai|]; [|done]. destruct (a !! j) as [aj|]; [|done].
  rewrite insert_app_l by done. rewrite insert_app_l by (by rewrite length_insert). done.
Qed.

(** The loop below index [i] leaves the elements past [i] alone. *)
Lemma shuffleLoop_app rnd i a k :
  i < length a → shuffleLoop rnd i (a ++ k) = shuffleLoop rnd i a ++ k.
Proof.
  revert a. induction i as [|i IH]; intros a Hi; simpl; [done|].
  pose proof (Nat.mod_upper_bound (rnd (S i)) (S i + 1)) as Hj.
  rewrite swap_app by lia. apply IH. rewrite swap_length. lia.
Qed.

Lemma shuffleLoop_ext rnd rnd' i a :
  (∀ n, n ≤ i → rnd n = rnd' n) → shuffleLoop rnd i a = shuffleLoop rnd' i a.
Proof.
  revert a. induction i as [|i IH]; intros a Heq; simpl; [done|].
  rewrite (Heq (S i)) by lia. apply IH. intros n ?. apply Heq. lia.
Qed.

Lemma shuffleLoop_pred rnd i a :
  0 < i →
  shuffleLoop rnd i a = shuffleLoop rnd (i - 1) (JS.swap a i (rnd i mod (i + 1))).
Proof.
  destruct i as [|i]; [lia|]. intros _.
  replace (S i - 1) with i by lia. reflexivity.
Qed.

Lemma snoc_of_last a y :
  a !! (length a - 1) = Some y → a = take (length a - 1) a ++ [y].
Proof.
  intros Hy. pose proof (lookup_lt_Some _ _ _ Hy) as Hlt.
  rewrite <-(take_drop (length a - 1) a) at 1. f_equal.
  rewrite (drop_S _ y _ Hy). replace (S (length a - 1)) with (length a) by lia.
  by rewrite drop_all.
Qed.

Lemma shuffleArray_reaches a b : a ≡ₚ b → ∃ rnd, shuffleArray rnd a = b.
Proof.
  revert a. induction b as [|y b' IH] using rev_ind; intros a Hperm.
  { apply Permutation_nil_r in Hperm as ->. by exists identityDraws. }
  destruct b' as [|y' b''] using rev_ind.
  { apply Permutation_singleton_r in Hperm as ->. by exists identityDraws. }
  clear IHb''. set (b' := b'' ++ [y']) in *.
  assert (length a = length b' + 1) as Hlen.
  { rewrite (Permutation_length Hperm), length_app. simpl. lia. }
  assert (1 ≤ length b') as Hb' by (unfold b'; rewrite length_app; simpl; lia).
  assert (y ∈ a) as Hy by (rewrite Hperm; apply elem_of_snoc).
  apply list_elem_of_lookup in Hy as [j Hj].
  pose proof (lookup_lt_Some _ _ _ Hj) as Hjlt.
  destruct (lookup_lt_is_Some_2 a (length a - 1)) as [z Hz]; [lia|].
  set (a1 := JS.swap a (length a - 1) j).
  assert (length a1 = length a) as Hlen1 by apply swap_length.
  assert (a1 !! (length a1 - 1) = Some y) as Hlast.
  { rewrite Hlen1. unfold a1, JS.swap. rewrite Hz, Hj.
    destruct (decide (j = length a - 1)) as [->|Hne].
    - rewrite list_lookup_insert_eq by (rewrite length_insert; lia). congruence.
    - rewrite list_lookup_insert_ne by done. by rewrite list_lookup_insert_eq by lia. }
  apply snoc_of_last in Hlast. set (c := take (length a1 - 1) a1) in *.
  assert (length c = length b') as Hlenc.
  { unfold c. rewrite length_take. lia. }
  assert (c ≡ₚ b') as Hc.
  { apply (Permutation_app_inv_r [y]). rewrite <-Hlast. unfold a1.
    by rewrite swap_Permutation. }
  destruct (IH c Hc) as [rnd' Hrnd'].
  exists (λ n, if decide (n = length a - 1) then j else rnd' n).
  unfold shuffleArray in *. rewrite Hlenc in Hrnd'.
  rewrite shuffleLoop_pred by lia. cbv beta. rewrite decide_True by done.
  replace (length a - 1 + 1) with (length a) by lia.
  rewrite Nat.mod_small by lia. fold a1. rewrite Hlast.
  replace (length a - 1 - 1) with (length b' - 1) by lia.
  rewrite shuffleLoop_app by lia. f_equal. etrans; [|exact Hrnd'].
  apply shuffleLoop_ext. intros n Hn. by rewrite decide_False by lia.
Qed.
End shuffle_reach.

(** The shuffle excludes no order: for every reordering of an array there
    are draws under which [shuffleArray] returns exactly it.  So the list of
    candidate positions can reach the allocator in any order. *)
Theorem shuffleArray_reaches_every_order {A} (array target : list A) :
  array ≡ₚ target → ∃ rnd, shuffleArray rnd array = target.
Proof. apply shuffleArray_reaches. Qed.

(** ** Concrete instances of the further properties *)

Lemma two_professors_distinct :
  ∀ i j s1 s2,
    Basic.subjects twoProfessors !! i = Some s1 →
    Basic.subjects twoProfessors !! j = Some s2 →
    Basic.professor s1 = Basic.professor s2 → i = j.
Proof. intros [|[|i]] [|[|j]] s1 s2 H1 H2 Hp; by simplify_eq/=. Defined.

Lemma too_few_for_required_is_rejected_witness :
  (Z.of_nat (length (Enhanced.availableSlots (enhancedManager [4; 4; 4; 4; 4]%Z) 7)) <
   requiredCapacity (Enhanced.subjects (enhancedManager [4; 4; 4; 4; 4]%Z)))%Z ∧
  Enhanced.createScheduleMatrix identityDraws (enhancedManager [4; 4; 4; 4; 4]%Z) 7 =
    (Throw (InsufficientSlots 10 5), enhancedManager [4; 4; 4; 4; 4]%Z).
Proof.
  assert (∀ s, s ∈ Enhanced.subjects (enhancedManager [4; 4; 4; 4; 4]%Z) →
               (Enhanced.credits s ≤ 5)%Z) as Hcredits.
  { intros s Hs. apply list_elem_of_In in Hs. simpl in Hs.
    repeat destruct Hs as [<-|Hs]; try done. }
  assert (Z.of_nat (length (Enhanced.availableSlots (enhancedManager [4; 4; 4; 4; 4]%Z) 7)) <
          requiredCapacity (Enhanced.subjects (enhancedManager [4; 4; 4; 4; 4]%Z)))%Z
    as Hfew by by vm_compute.
  split; [exact Hfew|].
  exact (too_few_for_required_is_rejected identityDraws (enhancedManager [4; 4; 4; 4; 4]%Z) 7
           Hcredits Hfew).
Defined.

Lemma start_at_last_slot_witness :
  (Z.of_nat (length (Enhanced.timeSlots (enhancedManager [3; 3; 3]%Z))) - 1 ≤ 8)%Z ∧
  Enhanced.createScheduleMatrix identityDraws (enhancedManager [3; 3; 3]%Z) 8 =
    (Throw (InsufficientSlots 6 0), enhancedManager [3; 3; 3]%Z).
Proof.
  assert (Z.of_nat (length (Enhanced.timeSlots (enhancedManager [3; 3; 3]%Z))) - 1 ≤ 8)%Z
    as Hlast by by vm_compute.
  split; [exact Hlast|].
  destruct (start_at_last_slot identityDraws (enhancedManager [3; 3; 3]%Z) 8 Hlast)
    as (_ & Hthrow & _).
  apply Hthrow. discriminate.
Defined.

Lemma returned_grid_is_well_formed_witness :
  ∃ g,
    (Enhanced.createScheduleMatrix identityDraws (enhancedManager [3; 4]%Z) 2).1 = Return g ∧
    gridShape 9 5 g ∧ (∀ t d r, readCell g t d = Some (Ref r) → r < 2).
Proof.
  destruct (Enhanced.createScheduleMatrix identityDraws (enhancedManager [3; 4]%Z) 2).1
    as [g|e] eqn:Hg; [|by vm_compute in Hg].
  assert (0 ≤ 2)%Z as H2 by lia.
  destruct (returned_grid_is_well_formed identityDraws (enhancedManager [3; 4]%Z) 2 g H2 Hg)
    as (Hshape & Hrefs & _).
  exists g. split_and!; [reflexivity|exact Hshape|exact Hrefs].
Defined.

Lemma cells_per_subject_witness :
  ∃ g,
    (Enhanced.createScheduleMatrix identityDraws (enhancedManager [3; 4]%Z) 2).1 = Return g ∧
    1 ≤ cellCount 1 g ≤ 4.
Proof.
  destruct (Enhanced.createScheduleMatrix identityDraws (enhancedManager [3; 4]%Z) 2).1
    as [g|e] eqn:Hg; [|by vm_compute in Hg].
  assert (0 ≤ 2)%Z as H2 by lia.
  exists g. split; [reflexivity|].
  exact (cells_per_subject identityDraws (enhancedManager [3; 4]%Z) 2 g 1
           (Enhanced.mkSubject "Materia 2" "Docente" 4 2 2) H2 Hg eq_refl).
Defined.

Lemma basic_ignores_credits_witness :
  Forall2 sameButCredits (Basic.subjects (basicManager [1; 2; 3]%Z))
                         (Basic.subjects (basicManager [5; 4; 3]%Z)) ∧
  Basic.allocation identityDraws (basicManager [1; 2; 3]%Z) 1 =
    Basic.allocation identityDraws (basicManager [5; 4; 3]%Z) 1 ∧
  (Basic.createScheduleMatrix identityDraws (basicManager [1; 2; 3]%Z) 1).1 =
    (Basic.createScheduleMatrix identityDraws (basicManager [5; 4; 3]%Z) 1).1 ∧
  ∃ st, Basic.allocation identityDraws (basicManager [1; 2; 3]%Z) 1 = Done tt st ∧
    ∀ i, i < 3 → attempts i (trace st) = 1 ∧ 1 ≤ cellCount i (schedule st) ≤ 2.
Proof.
  assert (Forall2 sameButCredits (Basic.subjects (basicManager [1; 2; 3]%Z))
                                 (Basic.subjects (basicManager [5; 4; 3]%Z))) as Hsame.
  { repeat constructor. }
  assert (0 ≤ 1)%Z as H1 by lia.
  destruct (basic_ignores_credits identityDraws (basicManager [1; 2; 3]%Z)
              (basicManager [5; 4; 3]%Z) 1 eq_refl eq_refl Hsame) as (Hrun & Hres & Hcells).
  split; [exact Hsame|]. split; [exact Hrun|]. split; [exact Hres|].
  destruct (Hcells H1) as (Hdone & served & Hall & Hserved & _).
  destruct Hdone as [st Hst]; [vm_compute; lia|].
  exists st. split; [exact Hst|].
  rewrite Hst in Hall, Hserved. simpl in Hall, Hserved. subst served. exact Hserved.
Defined.

Lemma basic_accesses_in_bounds_witness :
  (0 ≤ 0)%Z ∧
  length (trace (finalLocals (Basic.allocation identityDraws (basicManager [3; 3]%Z) 0))) = 6 ∧
  Forall (accessInGrid 5 5)
         (trace (finalLocals (Basic.allocation identityDraws (basicManager [3; 3]%Z) 0))) ∧
  (∀ e, (Basic.createScheduleMatrix identityDraws (basicManager [3; 3]%Z) 0).1 = Throw e →
        e = NotEnoughPositions).
Proof.
  assert (0 ≤ 0)%Z as H0 by lia. split; [exact H0|]. split; [by vm_compute|].
  exact (basic_accesses_in_bounds identityDraws (basicManager [3; 3]%Z) 0 H0).
Defined.

Lemma basic_capacity_witness :
  (0 ≤ 3)%Z ∧
  ∃ g, Basic.createScheduleMatrix identityDraws (basicManager [3; 3]%Z) 3 =
         (Return g, Basic.mkManager (Basic.timeSlots (basicManager [3; 3]%Z))
                                    (Basic.weekDays (basicManager [3; 3]%Z))
                                    (Basic.subjects (basicManager [3; 3]%Z)) (Some g)).
Proof.
  assert (0 ≤ 3)%Z as H3 by lia. split; [exact H3|].
  destruct (basic_capacity identityDraws (basicManager [3; 3]%Z) 3 H3) as [Hreturn _].
  apply Hreturn. vm_compute. lia.
Defined.

Lemma basic_grid_layout_witness :
  ∃ g,
    (Basic.createScheduleMatrix identityDraws (basicManager [3; 3]%Z) 1).1 = Return g ∧
    gridShape 5 5 g ∧ onOneDay g.
Proof.
  destruct (Basic.createScheduleMatrix identityDraws (basicManager [3; 3]%Z) 1).1
    as [g|e] eqn:Hg; [|by vm_compute in Hg].
  assert (0 ≤ 1)%Z as H1 by lia.
  destruct (basic_grid_layout identityDraws (basicManager [3; 3]%Z) 1 g H1 Hg)
    as (Hshape & _ & Hdays & _).
  exists g. split_and!; [reflexivity|exact Hshape|exact Hdays].
Defined.

Lemma detectConflicts_same_subject_witness :
  Basic.mkConflict (Some "07:00-09:00") "Docente" ("Materia 1", "Materia 1")
    ∈ Basic.detectConflicts (basicManager [3]%Z) [[Ref 0; Null; Ref 0; Null; Null]].
Proof.
  exact (detectConflicts_same_subject (basicManager [3]%Z) [[Ref 0; Null; Ref 0; Null; Null]]
           0 [Ref 0; Null; Ref 0; Null; Null] 0 2 0
           (Basic.mkSubject "Materia 1" "Docente" 3 1)
           eq_refl (O_S 1) eq_refl eq_refl eq_refl).
Defined.

Lemma detectConflicts_of_generated_witness :
  ∃ g,
    (Basic.createScheduleMatrix identityDraws twoProfessors 0).1 = Return g ∧
    Basic.detectConflicts twoProfessors g = [].
Proof.
  destruct (Basic.createScheduleMatrix identityDraws twoProfessors 0).1
    as [g|e] eqn:Hg; [|by vm_compute in Hg].
  assert (0 ≤ 0)%Z as H0 by lia.
  exists g. split; [reflexivity|].
  exact (detectConflicts_of_generated identityDraws twoProfessors 0 g H0
           two_professors_distinct Hg).
Defined.

Lemma generateSchedule_arms_valid_index_witness :
  Enhanced.generateSchedule (enhancedManager [3; 3; 3]%Z) (Some "09:00") = Armed 2 ∧
  2 < 9 ∧
  ∃ startTime slot,
    Some "09:00" = Some startTime ∧
    Enhanced.timeSlots (enhancedManager [3; 3; 3]%Z) !! 2 = Some slot ∧
    String.prefix startTime slot = true ∧
    ∀ j earlier, j < 2 → Enhanced.timeSlots (enhancedManager [3; 3; 3]%Z) !! j = Some earlier →
                 String.prefix startTime earlier = false.
Proof.
  assert (Enhanced.generateSchedule (enhancedManager [3; 3; 3]%Z) (Some "09:00") = Armed 2)
    as Harmed by reflexivity.
  split; [exact Harmed|].
  exact (proj2 (generateSchedule_arms_valid_index (enhancedManager [3; 3; 3]%Z)
                  (Some "09:00") 2 Harmed)).
Defined.

Lemma basic_generateSchedule_outcomes_witness :
  Basic.generateSchedule (basicManager [3; 3]%Z) (Some "11:00") true true = Armed 2 ∧
  ∃ table g,
    Basic.generateScheduleTimer identityDraws (basicManager [3; 3]%Z) 2 true true true =
      (Basic.Toasted (Displayed table),
       Basic.mkManager (Basic.timeSlots (basicManager [3; 3]%Z))
                       (Basic.weekDays (basicManager [3; 3]%Z))
                       (Basic.subjects (basicManager [3; 3]%Z)) (Some g)) ∧
    table = shownGrid g ∧
    ∀ i, i < 2 → ∃ row, row ∈ table ∧ Some i ∈ row.
Proof.
  assert (Basic.generateSchedule (basicManager [3; 3]%Z) (Some "11:00") true true = Armed 2)
    as Harmed by reflexivity.
  split; [exact Harmed|].
  destruct (basic_generateSchedule_outcomes identityDraws (basicManager [3; 3]%Z)
              (Some "11:00") true true 2 true true) as [_ Htimer].
  destruct (Htimer Harmed) as (_ & _ & _ & shown & Hended & _ & Hshown & _).
  destruct (Basic.generateScheduleTimer identityDraws (basicManager [3; 3]%Z) 2 true true true)
    as [ended this'] eqn:Hrun.
  simpl in Hended, Hshown.
  destruct shown as [table|e|]; [|by vm_compute in Hrun; subst ended; inversion Hrun..].
  destruct (Hshown table eq_refl) as (_ & _ & g & Hdata & Htable & Hall).
  exists table, g. split_and!; [|exact Htable|exact Hall].
  subst ended. rewrite <-Hdata.
  vm_compute in Hrun. injection Hrun as _ <-. reflexivity.
Defined.

Lemma shuffleArray_reaches_every_order_witness :
  [1; 2; 3] ≡ₚ [3; 1; 2] ∧ ∃ rnd, shuffleArray rnd [1; 2; 3] = [3; 1; 2].
Proof.
  assert ([1; 2; 3] ≡ₚ [3; 1; 2]) as Hperm.
  { symmetry. apply (Permutation_cons_append [1; 2] 3). }
  split; [exact Hperm|]. exact (shuffleArray_reaches_every_order [1; 2; 3] [3; 1; 2] Hperm).
Defined.
